(** * go-flux: lexer, compiler and virtual machine, embedded in Rocq

  The development follows the packages of the repository:
  [token]/[lexer] (internal/lexer), [ast], [bytecode],
  [compiler] (internal/compiler) and [vm] (internal/vm).
  Go's [int] is a 64-bit two's complement integer and is modelled by [Z]
  with the wrap-around written out where arithmetic is performed; bytes are
  [Z] in the range 0..255; [float64] is IEEE-754 binary64, modelled by the
  Standard Library's [spec_float] at precision 53. *)

From Stdlib Require Import ZArith List String Ascii Lia Bool DecimalString.
From Stdlib Require Import Floats.SpecFloat.
From stdpp Require Import gmap strings list fin_maps.

Open Scope Z_scope.

(** ** Go integers and floats *)

Module goint.

Definition minInt64 : Z := - 2 ^ 63.
Definition maxInt64 : Z := 2 ^ 63 - 1.

Definition in_int64 (z : Z) : bool := (minInt64 <=? z) && (z <=? maxInt64).

(** Two's complement wrap-around of 64-bit [int] arithmetic. *)
Definition wrap64 (z : Z) : Z := (z + 2 ^ 63) mod 2 ^ 64 - 2 ^ 63.

(** [byte(x)]: conversion of an integer to an 8-bit value. *)
Definition to_byte (z : Z) : Z := Z.land z 255.

(** [strconv.FormatInt(i, 10)] and the verb [%d]. *)
Definition FormatInt (z : Z) : string := NilZero.string_of_int (Z.to_int z).

End goint.

Module float64.

Definition prec : Z := 53.
Definition emax : Z := 1024.

Definition t : Type := spec_float.

Definition zero : t := S754_zero false.

(** [float64(i)] for an [int] i: round to nearest even. *)
Definition of_int (i : Z) : t := binary_normalize prec emax i 0 false.

(** [int(f)]: truncation toward zero.  The Go specification leaves the
    result open when the value does not fit; the constant below is what
    the amd64 conversion instruction delivers (the most negative integer). *)
Definition to_int (f : t) : Z :=
  match f with
  | S754_zero _ => 0
  | S754_finite s m e =>
      let mag := if 0 <=? e then Z.pos m * 2 ^ e else Z.shiftr (Z.pos m) (- e) in
      let v := if s then - mag else mag in
      if goint.in_int64 v then v else goint.minInt64
  | S754_infinity _ | S754_nan => goint.minInt64
  end.

Definition add (a b : t) : t := SFadd prec emax a b.
Definition sub (a b : t) : t := SFsub prec emax a b.
Definition mul (a b : t) : t := SFmul prec emax a b.
Definition div (a b : t) : t := SFdiv prec emax a b.
Definition neg (a : t) : t := SFopp a.

(** Go's [==], [<], [<=] on floats; [!=] is the negation of [==]. *)
Definition eqb (a b : t) : bool := SFeqb a b.
Definition ltb (a b : t) : bool := SFltb a b.
Definition leb (a b : t) : bool := SFleb a b.

End float64.

(** ** internal/bytecode: opcodes, chunks and prototypes *)

Module bytecode.

Definition OP_CONST : Z := 0.
Definition OP_NULL : Z := 1.
Definition OP_TRUE : Z := 2.
Definition OP_FALSE : Z := 3.
Definition OP_POP : Z := 4.
Definition OP_ADD : Z := 8.
Definition OP_SUB : Z := 9.
Definition OP_MUL : Z := 10.
Definition OP_DIV : Z := 11.
Definition OP_NEG : Z := 12.
Definition OP_NOT : Z := 13.
Definition OP_EQ : Z := 16.
Definition OP_NEQ : Z := 17.
Definition OP_LT : Z := 18.
Definition OP_LTE : Z := 19.
Definition OP_GT : Z := 20.
Definition OP_GTE : Z := 21.
Definition OP_AND : Z := 22.
Definition OP_OR : Z := 23.
Definition OP_GET_GLOBAL : Z := 24.
Definition OP_SET_GLOBAL : Z := 25.
Definition OP_DEFINE_GLOBAL : Z := 26.
Definition OP_GET_LOCAL : Z := 32.
Definition OP_SET_LOCAL : Z := 33.
Definition OP_GET_UPVALUE : Z := 34.
Definition OP_SET_UPVALUE : Z := 35.
Definition OP_ARRAY : Z := 40.
Definition OP_OBJECT : Z := 41.
Definition OP_RANGE : Z := 42.
Definition OP_INDEX_GET : Z := 43.
Definition OP_INDEX_SET : Z := 44.
Definition OP_GET_PROP : Z := 45.
Definition OP_SET_PROP : Z := 46.
Definition OP_JUMP : Z := 48.
Definition OP_JUMP_IF_FALSE : Z := 49.
Definition OP_JUMP_IF_TRUE : Z := 50.
Definition OP_CALL : Z := 56.
Definition OP_RETURN : Z := 57.
Definition OP_CLOSURE : Z := 58.
Definition OP_NOP : Z := 64.
Definition OP_DEBUG : Z := 65.
Definition OP_ITER_PREP : Z := 72.
Definition OP_ITER_NEXT : Z := 73.

(** The cases of the interpreter's [switch op]. *)
Inductive Op :=
| CONST | NULL | TRUE | FALSE | POP
| BINARY (op : Z)
| NEG | NOT | AND | OR
| GET_GLOBAL | SET_GLOBAL | DEFINE_GLOBAL
| GET_LOCAL | SET_LOCAL | GET_UPVALUE | SET_UPVALUE
| ARRAY | OBJECT | RANGE | INDEX_GET | INDEX_SET | GET_PROP | SET_PROP
| JUMP | JUMP_IF_FALSE | JUMP_IF_TRUE
| CALL | RETURN | CLOSURE
| NOP | DEBUG | ITER_PREP | ITER_NEXT.

(** Which [case] of the switch a byte selects; [None] is [default]. *)
Definition switch_case (op : Z) : option Op :=
  match op with
  | 0 => Some CONST | 1 => Some NULL | 2 => Some TRUE | 3 => Some FALSE | 4 => Some POP
  | 8 | 9 | 10 | 11 | 16 | 17 | 18 | 19 | 20 | 21 => Some (BINARY op)
  | 12 => Some NEG | 13 => Some NOT | 22 => Some AND | 23 => Some OR
  | 24 => Some GET_GLOBAL | 25 => Some SET_GLOBAL | 26 => Some DEFINE_GLOBAL
  | 32 => Some GET_LOCAL | 33 => Some SET_LOCAL
  | 34 => Some GET_UPVALUE | 35 => Some SET_UPVALUE
  | 40 => Some ARRAY | 41 => Some OBJECT | 42 => Some RANGE
  | 43 => Some INDEX_GET | 44 => Some INDEX_SET | 45 => Some GET_PROP | 46 => Some SET_PROP
  | 48 => Some JUMP | 49 => Some JUMP_IF_FALSE | 50 => Some JUMP_IF_TRUE
  | 56 => Some CALL | 57 => Some RETURN | 58 => Some CLOSURE
  | 64 => Some NOP | 65 => Some DEBUG | 72 => Some ITER_PREP | 73 => Some ITER_NEXT
  | _ => None
  end.

Record Upvalue := { IsLocal : bool; Index : Z }.

Record LineInfo := { Offset : Z; Line : Z }.

(** [Consts []interface{}]: the dynamic types that occur in a pool.
    A [*Chunk] may be nil. *)
Inductive Const :=
| CNil
| CBool (b : bool)
| CFloat (f : float64.t)
| CString (s : string)
| CProto (p : Prototype)
with Prototype :=
| mkPrototype (Name Source : string) (NumParams : Z) (Chunk : option Chunk)
              (Upvalues : list Upvalue) (MaxLocals : Z)
with Chunk :=
| mkChunk (Code : list Z) (Consts : list Const) (Lines : list LineInfo).

Definition Name (p : Prototype) := let 'mkPrototype n _ _ _ _ _ := p in n.
Definition Source (p : Prototype) := let 'mkPrototype _ s _ _ _ _ := p in s.
Definition NumParams (p : Prototype) := let 'mkPrototype _ _ n _ _ _ := p in n.
Definition PChunk (p : Prototype) := let 'mkPrototype _ _ _ c _ _ := p in c.
Definition Upvalues (p : Prototype) := let 'mkPrototype _ _ _ _ u _ := p in u.
Definition MaxLocals (p : Prototype) := let 'mkPrototype _ _ _ _ _ m := p in m.

Definition Code (c : Chunk) := let 'mkChunk x _ _ := c in x.
Definition Consts (c : Chunk) := let 'mkChunk _ x _ := c in x.
Definition Lines (c : Chunk) := let 'mkChunk _ _ x := c in x.

Definition emptyChunk : Chunk := mkChunk [] [] [].

(** [Module{Functions map[string]*Prototype}] ([Module] is reserved in Rocq). *)
Record Module_ := { Functions : gmap string Prototype }.

End bytecode.

(** ** A state and exit monad

    [SE S E A]: a computation over a mutable [S] that either continues
    with a result or leaves with an [E] (a Go [return] out of the middle
    of a function). *)

Definition SE (S E A : Type) : Type := S -> (A * S) + E.

Definition ret {S E A} (a : A) : SE S E A := fun s => inl (a, s).
Definition bind {S E A B} (x : SE S E A) (k : A -> SE S E B) : SE S E B :=
  fun s => match x s with
           | inl (a, s') => k a s'
           | inr e => inr e
           end.
Definition get_state {S E} : SE S E S := fun s => inl (s, s).
Definition modify {S E} (f : S -> S) : SE S E unit := fun s => inl (tt, f s).
Definition leave {S E A} (e : S -> E) : SE S E A := fun s => inr (e s).
Definition when {S E} (b : bool) (c : SE S E unit) : SE S E unit := if b then c else ret tt.

Notation "x <- c1 ;; c2" := (bind c1 (fun x => c2))
  (at level 100, c1 at next level, right associativity).
Notation "c1 ;;; c2" := (bind c1 (fun _ => c2))
  (at level 100, right associativity).

(** ** Results of fallible Go functions: a value or the message of the
    [error] built by [fmt.Errorf]. *)

Inductive res (A : Type) : Type :=
| Ok (a : A)
| Fail (msg : string).
Arguments Ok {A} a.
Arguments Fail {A} msg.

(** ** internal/vm: values *)

Module vm.

Inductive Kind :=
| KindNull | KindBool | KindNumber | KindString | KindArray
| KindObject | KindFunction | KindError | KindIterator.

Definition Kind_eqb (a b : Kind) : bool :=
  match a, b with
  | KindNull, KindNull | KindBool, KindBool | KindNumber, KindNumber
  | KindString, KindString | KindArray, KindArray | KindObject, KindObject
  | KindFunction, KindFunction | KindError, KindError
  | KindIterator, KindIterator => true
  | _, _ => false
  end.

(** [type Function struct]: [Proto] may be nil, [Native] may be nil (a
    host closure is named by a number and run by the host, see
    [native_call] below), every entry of [Upvalues] is a [*upvalue] that
    may be nil.  A [*Function] is never written to once it has been
    published in a [Value], so the pointer is modelled by its target. *)
Record Function := {
  Proto : option bytecode.Prototype;
  Upvalues : list (option nat);
  Native : option nat;
  Name : string;
  Source : string
}.

(** [type Value struct].  [Arr], [Obj] and [It] are references into the
    store (a slice, a map and a [*Iterator]); [None] is nil. *)
Record Value := {
  VKind : Kind;
  Num : float64.t;
  Str : string;
  Arr : option nat;
  Obj : option nat;
  Func : option Function;
  Err : string;
  It : option nat;
  B : bool;
  ReadOnly : bool
}.

(** [Value{}] *)
Definition zeroValue : Value :=
  {| VKind := KindNull; Num := float64.zero; Str := ""; Arr := None; Obj := None;
     Func := None; Err := ""; It := None; B := false; ReadOnly := false |}.

Definition Null : Value := zeroValue.
Definition Bool (b : bool) : Value :=
  {| VKind := KindBool; Num := float64.zero; Str := ""; Arr := None; Obj := None;
     Func := None; Err := ""; It := None; B := b; ReadOnly := false |}.
Definition Number (n : float64.t) : Value :=
  {| VKind := KindNumber; Num := n; Str := ""; Arr := None; Obj := None;
     Func := None; Err := ""; It := None; B := false; ReadOnly := false |}.
Definition String (s : string) : Value :=
  {| VKind := KindString; Num := float64.zero; Str := s; Arr := None; Obj := None;
     Func := None; Err := ""; It := None; B := false; ReadOnly := false |}.
Definition Array (v : option nat) : Value :=
  {| VKind := KindArray; Num := float64.zero; Str := ""; Arr := v; Obj := None;
     Func := None; Err := ""; It := None; B := false; ReadOnly := false |}.
Definition Object (m : option nat) : Value :=
  {| VKind := KindObject; Num := float64.zero; Str := ""; Arr := None; Obj := m;
     Func := None; Err := ""; It := None; B := false; ReadOnly := false |}.
Definition ErrorVal (s : string) : Value :=
  {| VKind := KindError; Num := float64.zero; Str := ""; Arr := None; Obj := None;
     Func := None; Err := s; It := None; B := false; ReadOnly := false |}.
Definition IteratorVal (it : option nat) : Value :=
  {| VKind := KindIterator; Num := float64.zero; Str := ""; Arr := None; Obj := None;
     Func := None; Err := ""; It := it; B := false; ReadOnly := false |}.
Definition FunctionVal (f : Function) : Value :=
  {| VKind := KindFunction; Num := float64.zero; Str := ""; Arr := None; Obj := None;
     Func := Some f; Err := ""; It := None; B := false; ReadOnly := false |}.

Definition Truthy (v : Value) : bool :=
  match VKind v with
  | KindNull => false
  | KindBool => B v
  | _ => true
  end.

(** Go passes [a] and [b] by value: inside [Equal] they are two distinct
    local variables, and [&a], [&b] are the addresses of those variables.
    [param_a] and [param_b] are their slots in the activation of [Equal]. *)
Definition param_a : nat := 0%nat.
Definition param_b : nat := 1%nat.

Definition Equal (a b : Value) : bool :=
  if negb (Kind_eqb (VKind a) (VKind b)) then false
  else match VKind a with
       | KindNull => true
       | KindBool => Bool.eqb (B a) (B b)
       | KindNumber => float64.eqb (Num a) (Num b)
       | KindString => String.eqb (Str a) (Str b)
       | KindError => String.eqb (Err a) (Err b)
       | _ => Nat.eqb param_a param_b
       end.

(** [type Iterator struct] *)
Record Iterator := {
  arr : option nat;
  obj : option nat;
  keys : list string;
  index : Z
}.

(** The part of the heap that values refer to and that script and host
    share: backing arrays of slices, maps, iterators.  [rangeSeed] counts
    the [range] loops over maps run so far (see [map_range] below). *)
Record Store := {
  arrays : gmap nat (list Value);
  objects : gmap nat (gmap string Value);
  iterators : gmap nat Iterator;
  nextRef : nat;
  rangeSeed : nat
}.

Definition emptyStore : Store :=
  {| arrays := ∅; objects := ∅; iterators := ∅; nextRef := 0%nat; rangeSeed := 0%nat |}.

Definition arrayAt (st : Store) (a : option nat) : list Value :=
  match a with
  | None => []
  | Some r => default [] (arrays st !! r)
  end.

Definition objectAt (st : Store) (o : option nat) : gmap string Value :=
  match o with
  | None => ∅
  | Some r => default ∅ (objects st !! r)
  end.

Definition set_arrays (x : gmap nat (list Value)) (st : Store) : Store :=
  {| arrays := x; objects := objects st; iterators := iterators st;
     nextRef := nextRef st; rangeSeed := rangeSeed st |}.
Definition set_objects (x : gmap nat (gmap string Value)) (st : Store) : Store :=
  {| arrays := arrays st; objects := x; iterators := iterators st;
     nextRef := nextRef st; rangeSeed := rangeSeed st |}.
Definition set_iterators (x : gmap nat Iterator) (st : Store) : Store :=
  {| arrays := arrays st; objects := objects st; iterators := x;
     nextRef := nextRef st; rangeSeed := rangeSeed st |}.
Definition set_nextRef (x : nat) (st : Store) : Store :=
  {| arrays := arrays st; objects := objects st; iterators := iterators st;
     nextRef := x; rangeSeed := rangeSeed st |}.
Definition set_rangeSeed (x : nat) (st : Store) : Store :=
  {| arrays := arrays st; objects := objects st; iterators := iterators st;
     nextRef := nextRef st; rangeSeed := x |}.

(** [make([]Value, ...)] followed by filling it: a fresh backing array. *)
Definition allocArray (l : list Value) (st : Store) : nat * Store :=
  (nextRef st, set_nextRef (S (nextRef st)) (set_arrays (<[nextRef st := l]> (arrays st)) st)).

(** [make(map[string]Value, n)] followed by filling it. *)
Definition allocObject (m : gmap string Value) (st : Store) : nat * Store :=
  (nextRef st, set_nextRef (S (nextRef st)) (set_objects (<[nextRef st := m]> (objects st)) st)).

(** [&Iterator{...}] *)
Definition allocIterator (it : Iterator) (st : Store) : nat * Store :=
  (nextRef st, set_nextRef (S (nextRef st)) (set_iterators (<[nextRef st := it]> (iterators st)) st)).

Definition stringIndex (i : Z) : string := goint.FormatInt i.

Definition zlookup {A : Type} (l : list A) (i : Z) : option A :=
  if i <? 0 then None else l !! Z.to_nat i.

Definition zlen {A : Type} (l : list A) : Z := Z.of_nat (length l).

Definition expectIndex (index : Value) (length : Z) : res Z :=
  match VKind index with
  | KindNumber =>
      let i := float64.to_int (Num index) in
      if negb (float64.eqb (float64.of_int i) (Num index)) then Fail "index must be integer"
      else if (0 <=? length) && ((i <? 0) || (length <=? i)) then Fail "index out of bounds"
      else Ok i
  | _ => Fail "index must be number"
  end.

(** A slice of [Value]s.  A [Value] takes 104 bytes on the 64-bit platform
    the model follows: an [int], a [float64], two strings of two words, a
    slice of three words, a map and two pointers of one word, two [bool]s
    and the padding to the next word.  The Go runtime gives no backing
    array of more than [maxAlloc] bytes, [1 << 48] there: [make] panics with
    "makeslice: cap out of range" and [append] with "growslice: len out of
    range".  A request below that bound can still exhaust the memory of the
    machine at hand; the model has no bound on the memory in use, here as for
    the stack and the store. *)
Definition maxAlloc : Z := 2 ^ 48.

Definition sizeofValue : Z := 104.

Definition slice_fits (n : Z) : bool := n * sizeofValue <=? maxAlloc.

(** [buildRange]: [size], the capacity asked of [make], and the loop
    [for i := start; ; i += step] with the exit test after the append.  An
    append within the capacity [cap] always succeeds, one beyond it needs a
    new backing array.  The loop has no bound of its own in the source, so
    the model counts the iterations down from [fuel]: the distance between
    the bounds plus one, which the loop never exceeds
    ([buildRange_loop_ends]).  [Fail] carries the text of the panic. *)
Fixpoint buildRange_loop (fuel : nat) (i step end_ cap : Z) (out : list Value)
  : res (list Value) :=
  match fuel with
  | O => Fail "out of memory"
  | S fuel' =>
      if (cap <=? zlen out) && negb (slice_fits (zlen out + 1))
      then Fail "growslice: len out of range"
      else
        let out := out ++ [Number (float64.of_int i)] in
        if i =? end_ then Ok out
        else buildRange_loop fuel' (goint.wrap64 (i + step)) step end_ cap out
  end.

Definition buildRange_size (start end_ : Z) : Z :=
  let step := if end_ <? start then -1 else 1 in
  let size := goint.wrap64 (Z.quot (goint.wrap64 (end_ - start)) step + 1) in
  if size <? 0 then 0 else size.

Definition buildRange (start end_ : Z) : res (list Value) :=
  let step := if end_ <? start then -1 else 1 in
  let size := buildRange_size start end_ in
  if negb (slice_fits size) then Fail "makeslice: cap out of range"
  else buildRange_loop (S (Z.to_nat (Z.abs (end_ - start)))) start step end_ size [].

(** [indexKeyString]: the verb [%g] of package [fmt] is not part of the
    repository; [format_g] stands for it. *)
Definition indexKeyString (format_g : float64.t -> string) (index : Value) : string :=
  match VKind index with
  | KindString => Str index
  | KindNumber =>
      if float64.eqb (float64.of_int (float64.to_int (Num index))) (Num index)
      then goint.FormatInt (float64.to_int (Num index))
      else format_g (Num index)
  | _ => ""
  end.

Definition expectKeyString (format_g : float64.t -> string) (index : Value) : res string :=
  match VKind index with
  | KindString => Ok (Str index)
  | KindNumber => Ok (indexKeyString format_g index)
  | _ => Fail "key must be string or number"
  end.

Definition indexGet (format_g : float64.t -> string) (st : Store) (target index : Value)
  : res Value :=
  match VKind target with
  | KindArray =>
      match expectIndex index (zlen (arrayAt st (Arr target))) with
      | Fail msg => Fail msg
      | Ok i => Ok (default zeroValue (zlookup (arrayAt st (Arr target)) i))
      end
  | KindObject =>
      match expectKeyString format_g index with
      | Fail msg => Fail msg
      | Ok key =>
          match objectAt st (Obj target) !! key with
          | None => Fail "missing key"
          | Some val => Ok val
          end
      end
  | _ => Fail "not indexable"
  end.

(** [indexSet] writes through the slice or map the value refers to. *)
Definition indexSet (format_g : float64.t -> string) (st : Store) (target index val : Value)
  : res Store :=
  match VKind target with
  | KindArray =>
      if ReadOnly target then Fail "cannot modify read-only value"
      else match expectIndex index (zlen (arrayAt st (Arr target))) with
           | Fail msg => Fail msg
           | Ok i =>
               match Arr target with
               | None => Ok st
               | Some r =>
                   Ok (set_arrays (<[r := <[Z.to_nat i := val]> (arrayAt st (Arr target))]> (arrays st)) st)
               end
           end
  | KindObject =>
      if ReadOnly target then Fail "cannot modify read-only value"
      else match expectKeyString format_g index with
           | Fail msg => Fail msg
           | Ok k =>
               match Obj target with
               | None => Fail "not indexable"
               | Some r =>
                   Ok (set_objects (<[r := <[k := val]> (objectAt st (Obj target))]> (objects st)) st)
               end
           end
  | _ => Fail "not indexable"
  end.

Definition indexExists (format_g : float64.t -> string) (st : Store) (target index : Value)
  : bool :=
  match VKind target with
  | KindArray =>
      match expectIndex index (zlen (arrayAt st (Arr target))) with
      | Ok _ => true
      | Fail _ => false
      end
  | KindObject =>
      match expectKeyString format_g index with
      | Fail _ => false
      | Ok k =>
          match objectAt st (Obj target) !! k with
          | Some _ => true
          | None => false
          end
      end
  | _ => false
  end.

(** [valueExists]: the loop [for _, el := range arr.Arr] that returns at
    the first element equal to [v]. *)
Definition valueExists (st : Store) (arr v : Value) : bool :=
  match VKind arr with
  | KindArray => existsb (fun el => Equal el v) (arrayAt st (Arr arr))
  | _ => false
  end.

Definition typeName (v : Value) : string :=
  match VKind v with
  | KindNull => "null"
  | KindBool => "boolean"
  | KindNumber => "number"
  | KindString => "string"
  | KindArray => "array"
  | KindObject => "object"
  | KindFunction => "function"
  | KindError => "error"
  | KindIterator => "iterator"
  end.

(** ** Iterators *)

Definition NewArrayIterator (arr : option nat) (st : Store) : nat * Store :=
  allocIterator {| arr := arr; obj := None; keys := []; index := 0 |} st.

(** The order in which [for k := range obj] visits a Go map is not
    specified by the language and differs from run to run.  [choice seed k]
    picks, for the [seed]-th range loop, which of the remaining keys is
    visited at position [k]; every order of the keys arises from some
    [choice]. *)
Fixpoint pick_order (choice : nat -> nat) (n : nat) (remaining : list string) (k : nat)
  : list string :=
  match n with
  | O => []
  | S n' =>
      let i := (choice k mod length remaining)%nat in
      match remaining !! i with
      | Some x => x :: pick_order choice n' (delete i remaining) (S k)
      | None => []
      end
  end.

Definition map_range (choice : nat -> nat -> nat) (seed : nat) (m : gmap string Value)
  : list string :=
  let ks := (map_to_list m).*1 in
  pick_order (choice seed) (length ks) ks 0%nat.

Definition NewObjectIterator (choice : nat -> nat -> nat) (obj : option nat) (st : Store)
  : nat * Store :=
  let keys := map_range choice (rangeSeed st) (objectAt st obj) in
  allocIterator {| arr := None; obj := obj; keys := keys; index := 0 |}
                (set_rangeSeed (S (rangeSeed st)) st).

(** [Next] of [*Iterator]: key, value, ok, and the store with the advanced
    index. *)
Definition Iterator_Next (p : nat) (st : Store) : (string * Value * bool) * Store :=
  match iterators st !! p with
  | None => (("", zeroValue, false), st)
  | Some it =>
      match arr it with
      | Some _ =>
          if zlen (arrayAt st (arr it)) <=? index it then (("", zeroValue, false), st)
          else
            let v := default zeroValue (zlookup (arrayAt st (arr it)) (index it)) in
            let k := index it in
            let it' := {| arr := arr it; obj := obj it; keys := keys it;
                          index := goint.wrap64 (index it + 1) |} in
            ((stringIndex k, v, true), set_iterators (<[p := it']> (iterators st)) st)
      | None =>
          match obj it with
          | Some _ =>
              if zlen (keys it) <=? index it then (("", zeroValue, false), st)
              else
                let k := default "" (zlookup (keys it) (index it)) in
                let v := default zeroValue (objectAt st (obj it) !! k) in
                let it' := {| arr := arr it; obj := obj it; keys := keys it;
                              index := goint.wrap64 (index it + 1) |} in
                ((k, v, true), set_iterators (<[p := it']> (iterators st)) st)
          | None => (("", zeroValue, false), st)
          end
      end
  end.

Definition toIterator (choice : nat -> nat -> nat) (v : Value) (st : Store)
  : res (nat * Store) :=
  match VKind v with
  | KindArray => Ok (NewArrayIterator (Arr v) st)
  | KindObject => Ok (NewObjectIterator choice (Obj v) st)
  | KindIterator =>
      match It v with
      | None => Fail "iterator is nil"
      | Some p => Ok (p, st)
      end
  | _ => Fail "not iterable"
  end.

(** ** Errors and diagnostics *)

Record FrameInfo := {
  fiFunction : string;
  fiSource : string;
  fiLine : Z;
  fiIP : Z
}.

Definition zeroFrameInfo : FrameInfo :=
  {| fiFunction := ""; fiSource := ""; fiLine := 0; fiIP := 0 |}.

(** A Go [error]: either a plain error ([fmt.Errorf], host errors), known
    by its message, or a [*RuntimeError]. *)
#[warnings="-register-all"] Inductive GoError :=
| PlainError (msg : string)
| RuntimeError (Message : string) (Frame : FrameInfo) (Stack : list FrameInfo)
               (Cause : option GoError).

Definition join_space (parts : list string) : string :=
  match parts with
  | [] => ""
  | p :: ps => fold_left (fun acc q => acc ++ " " ++ q)%string ps p
  end.

Definition RuntimeError_Error (Message : string) (Frame : FrameInfo) : string :=
  let locParts :=
    if negb (String.eqb (fiSource Frame) "") then
      if 0 <? fiLine Frame
      then [(fiSource Frame ++ ":" ++ goint.FormatInt (fiLine Frame))%string]
      else [fiSource Frame]
    else if 0 <? fiLine Frame then [("line " ++ goint.FormatInt (fiLine Frame))%string]
    else [] in
  let locParts :=
    if negb (String.eqb (fiFunction Frame) "")
    then locParts ++ [("in " ++ fiFunction Frame)%string] else locParts in
  let loc := join_space locParts in
  if negb (String.eqb loc "") then (loc ++ ": " ++ Message)%string else Message.

Definition Error (e : GoError) : string :=
  match e with
  | PlainError msg => msg
  | RuntimeError m f _ _ => RuntimeError_Error m f
  end.

Definition Message (e : GoError) : string :=
  match e with
  | PlainError msg => msg
  | RuntimeError m _ _ _ => m
  end.

Definition Frame (e : GoError) : FrameInfo :=
  match e with
  | PlainError _ => zeroFrameInfo
  | RuntimeError _ f _ _ => f
  end.

(** ** The machine *)

(** [type upvalue struct]: [location] points at a slot of the locals of a
    frame (the address of the array and the index of the slot), or is nil. *)
Record upvalue := {
  location : option (nat * nat);
  closed : Value
}.

(** [type frame struct]; [locals] is the address of the array that
    [make([]Value, n)] allocated for the frame. *)
Record frame := {
  fn : Function;
  ip : Z;
  locals : nat;
  base : nat;
  lastOp : Z
}.

(** [type VM struct].  [stack] is a Go slice: [stack_buf] is its backing
    array, whose length is the capacity, and [stack_len] its length.
    [frames] lists the innermost frame first.  [upvalues] and [localsMem]
    hold the cells and locals arrays that the machine has allocated, under
    the addresses handed out from [nextCell]. *)
Record VM := {
  stack_buf : list Value;
  stack_len : nat;
  frames : list frame;
  globals : gmap string Value;
  openUpvalues : list nat;
  maxStack : Z;
  maxFrames : Z;
  instLimit : Z;
  instCount : Z;
  store : Store;
  upvalues : gmap nat upvalue;
  localsMem : gmap nat (list Value);
  nextCell : nat
}.

Definition set_stack (b : list Value) (n : nat) (m : VM) : VM :=
  {| stack_buf := b; stack_len := n; frames := frames m; globals := globals m;
     openUpvalues := openUpvalues m; maxStack := maxStack m; maxFrames := maxFrames m;
     instLimit := instLimit m; instCount := instCount m; store := store m;
     upvalues := upvalues m; localsMem := localsMem m; nextCell := nextCell m |}.
Definition set_frames (x : list frame) (m : VM) : VM :=
  {| stack_buf := stack_buf m; stack_len := stack_len m; frames := x; globals := globals m;
     openUpvalues := openUpvalues m; maxStack := maxStack m; maxFrames := maxFrames m;
     instLimit := instLimit m; instCount := instCount m; store := store m;
     upvalues := upvalues m; localsMem := localsMem m; nextCell := nextCell m |}.
Definition set_globals (x : gmap string Value) (m : VM) : VM :=
  {| stack_buf := stack_buf m; stack_len := stack_len m; frames := frames m; globals := x;
     openUpvalues := openUpvalues m; maxStack := maxStack m; maxFrames := maxFrames m;
     instLimit := instLimit m; instCount := instCount m; store := store m;
     upvalues := upvalues m; localsMem := localsMem m; nextCell := nextCell m |}.
Definition set_openUpvalues (x : list nat) (m : VM) : VM :=
  {| stack_buf := stack_buf m; stack_len := stack_len m; frames := frames m;
     globals := globals m;
     openUpvalues := x; maxStack := maxStack m; maxFrames := maxFrames m;
     instLimit := instLimit m; instCount := instCount m; store := store m;
     upvalues := upvalues m; localsMem := localsMem m; nextCell := nextCell m |}.
Definition set_instLimit (x : Z) (m : VM) : VM :=
  {| stack_buf := stack_buf m; stack_len := stack_len m; frames := frames m;
     globals := globals m;
     openUpvalues := openUpvalues m; maxStack := maxStack m; maxFrames := maxFrames m;
     instLimit := x; instCount := instCount m; store := store m;
     upvalues := upvalues m; localsMem := localsMem m; nextCell := nextCell m |}.
Definition set_instCount (x : Z) (m : VM) : VM :=
  {| stack_buf := stack_buf m; stack_len := stack_len m; frames := frames m;
     globals := globals m;
     openUpvalues := openUpvalues m; maxStack := maxStack m; maxFrames := maxFrames m;
     instLimit := instLimit m; instCount := x; store := store m;
     upvalues := upvalues m; localsMem := localsMem m; nextCell := nextCell m |}.
Definition set_store (x : Store) (m : VM) : VM :=
  {| stack_buf := stack_buf m; stack_len := stack_len m; frames := frames m;
     globals := globals m;
     openUpvalues := openUpvalues m; maxStack := maxStack m; maxFrames := maxFrames m;
     instLimit := instLimit m; instCount := instCount m; store := x;
     upvalues := upvalues m; localsMem := localsMem m; nextCell := nextCell m |}.
Definition set_upvalues (x : gmap nat upvalue) (m : VM) : VM :=
  {| stack_buf := stack_buf m; stack_len := stack_len m; frames := frames m;
     globals := globals m;
     openUpvalues := openUpvalues m; maxStack := maxStack m; maxFrames := maxFrames m;
     instLimit := instLimit m; instCount := instCount m; store := store m;
     upvalues := x; localsMem := localsMem m; nextCell := nextCell m |}.
Definition set_localsMem (x : gmap nat (list Value)) (m : VM) : VM :=
  {| stack_buf := stack_buf m; stack_len := stack_len m; frames := frames m;
     globals := globals m;
     openUpvalues := openUpvalues m; maxStack := maxStack m; maxFrames := maxFrames m;
     instLimit := instLimit m; instCount := instCount m; store := store m;
     upvalues := upvalues m; localsMem := x; nextCell := nextCell m |}.
Definition set_nextCell (x : nat) (m : VM) : VM :=
  {| stack_buf := stack_buf m; stack_len := stack_len m; frames := frames m;
     globals := globals m;
     openUpvalues := openUpvalues m; maxStack := maxStack m; maxFrames := maxFrames m;
     instLimit := instLimit m; instCount := instCount m; store := store m;
     upvalues := upvalues m; localsMem := localsMem m; nextCell := x |}.

Definition defaultMaxStack : Z := 1024.
Definition defaultMaxFrames : Z := 256.

(** [New]: the stack is [make([]Value, 0, 256)]. *)
Definition New : VM :=
  {| stack_buf := repeat zeroValue 256; stack_len := 0%nat; frames := [];
     globals := ∅; openUpvalues := []; maxStack := defaultMaxStack;
     maxFrames := defaultMaxFrames; instLimit := 0; instCount := 0;
     store := emptyStore; upvalues := ∅; localsMem := ∅; nextCell := 0%nat |}.

Definition SetInstructionLimit (limit : Z) (m : VM) : VM :=
  let limit := if limit <? 0 then 0 else limit in
  set_instLimit limit m.

(** [ResetState]: the three slices are cut to length 0 and keep their
    backing arrays. *)
Definition ResetState (m : VM) : VM :=
  set_instCount 0 (set_openUpvalues [] (set_frames [] (set_stack (stack_buf m) 0%nat m))).

Definition DefineGlobal (name : string) (v : Value) (m : VM) : VM :=
  set_globals (<[name := v]> (globals m)) m.

(** [LoadModule]: every entry of the module is written into [globals];
    the entries have distinct names, so the order of the [range] loop does
    not matter. *)
Definition LoadModule (mod_ : option bytecode.Module_) (m : VM) : VM :=
  match mod_ with
  | None => m
  | Some md =>
      let entry (name : string) (proto : bytecode.Prototype) : Value :=
        FunctionVal {| Proto := Some proto; Name := name; Source := bytecode.Source proto;
                       Upvalues := repeat None (length (bytecode.Upvalues proto));
                       Native := None |} in
      set_globals (map_imap (fun name proto => Some (entry name proto)) (bytecode.Functions md)
                     ∪ globals m) m
  end.

(** *** Outcomes and the machine monad *)

(** How [Run] ends: [return v, nil], [return v, err], or a Go run-time
    panic (an index out of range in the bytecode, for instance). *)
Inductive Outcome :=
| Done (v : Value) (m : VM)
| Failed (v : Value) (e : GoError) (m : VM)
| Panic (what : string).

Definition M (A : Type) : Type := SE VM Outcome A.

Definition stop {A} (o : VM -> Outcome) : M A := leave o.
Definition get_vm : M VM := get_state.
Definition panic {A} (what : string) : M A := leave (fun _ => Panic what).

(** [type builtinEntry struct].  A handler receives the machine; through
    the exported [Pop] and [Push] it changes the operand stack, and through
    the values it pops it reaches the shared store.  It answers with a
    value and an optional error. *)
Record builtinEntry := {
  name : string;
  opcode : Z;
  arity : Z;
  handler : VM -> (Value * option GoError) * (list Value * nat) * Store
}.

(** *** Frames and diagnostics *)

(** A [*frame] is nil or points at an element of [vm.frames]; the model
    names the element by its distance from the innermost frame. *)
Definition framePtr : Type := option nat.

Definition deref (m : VM) (fr : framePtr) : option frame :=
  match fr with
  | None => None
  | Some i => frames m !! i
  end.

Definition chunk_of (f : Function) : option bytecode.Chunk :=
  match Proto f with
  | Some p => bytecode.PChunk p
  | None => None
  end.

Fixpoint lineForOffset_loop (lines : list bytecode.LineInfo) (offset line : Z) : Z :=
  match lines with
  | [] => line
  | info :: rest =>
      if offset <? bytecode.Offset info then line
      else lineForOffset_loop rest offset (bytecode.Line info)
  end.

Definition lineForOffset (chunk : option bytecode.Chunk) (offset : Z) : Z :=
  match chunk with
  | None => 0
  | Some c => if offset <? 0 then 0 else lineForOffset_loop (bytecode.Lines c) offset 0
  end.

Definition frameInfo (fr : option frame) (offset : Z) : FrameInfo :=
  match fr with
  | None => zeroFrameInfo
  | Some fr =>
      let name := Name (fn fr) in
      let src := Source (fn fr) in
      let src := if String.eqb src ""
                 then match Proto (fn fr) with
                      | Some p => bytecode.Source p
                      | None => src
                      end
                 else src in
      let line := match Proto (fn fr) with
                  | Some p => match bytecode.PChunk p with
                              | Some c => lineForOffset (Some c) offset
                              | None => 0
                              end
                  | None => 0
                  end in
      {| fiFunction := name; fiSource := src; fiLine := line; fiIP := offset |}
  end.

Definition offsetForFrame (fr : option frame) : Z :=
  match fr with
  | None => -1
  | Some fr => if 0 <=? lastOp fr then lastOp fr else ip fr
  end.

(** [stackTrace]: innermost frame first; the frame [current] points at
    reports [offset] when that is not negative. *)
Definition stackTrace (m : VM) (current : framePtr) (offset : Z) : list FrameInfo :=
  imap (fun i fr =>
          let off := lastOp fr in
          let off := if bool_decide (current = Some i) && (0 <=? offset) then offset else off in
          frameInfo (Some fr) off) (frames m).

Definition newRuntimeError (m : VM) (fr : framePtr) (offset : Z) (msg : string)
  (cause : option GoError) : GoError :=
  RuntimeError msg (frameInfo (deref m fr) offset) (stackTrace m fr offset) cause.

(** [return vm.errorf(fr, ...)] *)
Definition errorf_at (fr : framePtr) (msg : string) (m : VM) : Outcome :=
  let err := newRuntimeError m fr (offsetForFrame (deref m fr)) msg None in
  Failed (ErrorVal (Error err)) err m.

Definition errorf {A} (fr : framePtr) (msg : string) : M A := stop (errorf_at fr msg).

(** [return vm.wrapError(fr, val, err)] with [err != nil] *)
Definition wrapError_at (fr : framePtr) (val : Value) (err : GoError) (m : VM) : Outcome :=
  let err := match err with
             | RuntimeError _ _ _ _ => err
             | PlainError _ =>
                 newRuntimeError m fr (offsetForFrame (deref m fr)) (Error err) (Some err)
             end in
  let val := if negb (Kind_eqb (VKind val) KindError) then ErrorVal (Error err) else val in
  Failed val err m.

Definition wrapError {A} (fr : framePtr) (val : Value) (err : GoError) : M A :=
  stop (wrapError_at fr val err).

(** [vm.currentFrame()]; indexing an empty slice panics. *)
Definition currentFrame : M frame :=
  fun m => match frames m with
           | fr :: _ => inl (fr, m)
           | [] => inr (Panic "index out of range")
           end.

(** A write through the pointer that [currentFrame] returned. *)
Definition updFrame (f : frame -> frame) : M unit :=
  modify (fun m => match frames m with
                   | fr :: rest => set_frames (f fr :: rest) m
                   | [] => m
                   end).

Definition set_ip (x : Z) (fr : frame) : frame :=
  {| fn := fn fr; ip := x; locals := locals fr; base := base fr; lastOp := lastOp fr |}.
Definition set_lastOp (x : Z) (fr : frame) : frame :=
  {| fn := fn fr; ip := ip fr; locals := locals fr; base := base fr; lastOp := x |}.

Definition cur : framePtr := Some 0%nat.

(** *** Upvalue cells *)

Definition newUpvalue (slot : nat * nat) : upvalue :=
  {| location := Some slot; closed := zeroValue |}.

Definition readSlot (m : VM) (slot : nat * nat) : Value :=
  default zeroValue (default [] (localsMem m !! slot.1) !! slot.2).

Definition writeSlot (slot : nat * nat) (v : Value) (m : VM) : VM :=
  set_localsMem (<[slot.1 := <[slot.2 := v]> (default [] (localsMem m !! slot.1))]> (localsMem m)) m.

(** [uv.get()]; the receiver may be nil. *)
Definition upvalue_get (uv : option nat) (m : VM) : Value :=
  match uv with
  | None => Null
  | Some p =>
      match upvalues m !! p with
      | None => Null
      | Some c =>
          match location c with
          | Some slot => readSlot m slot
          | None => closed c
          end
      end
  end.

(** [uv.set(v)] *)
Definition upvalue_set (uv : option nat) (v : Value) (m : VM) : VM :=
  match uv with
  | None => m
  | Some p =>
      match upvalues m !! p with
      | None => m
      | Some c =>
          match location c with
          | Some slot => writeSlot slot v m
          | None => set_upvalues (<[p := {| location := None; closed := v |}]> (upvalues m)) m
          end
      end
  end.

(** [uv.close()] *)
Definition upvalue_close (p : nat) (m : VM) : VM :=
  match upvalues m !! p with
  | None => m
  | Some c =>
      match location c with
      | Some slot =>
          set_upvalues (<[p := {| location := None; closed := readSlot m slot |}]> (upvalues m)) m
      | None => m
      end
  end.

Definition location_of (m : VM) (p : nat) : option (nat * nat) :=
  match upvalues m !! p with
  | Some c => location c
  | None => None
  end.

(** [captureUpvalue(slot)]: the first open cell whose [location] is [slot],
    or a new cell appended to the open list. *)
Definition captureUpvalue (slot : nat * nat) : M nat :=
  fun m =>
    match List.find (fun p => bool_decide (location_of m p = Some slot)) (openUpvalues m) with
    | Some p => inl (p, m)
    | None =>
        let p := nextCell m in
        inl (p, set_openUpvalues (openUpvalues m ++ [p])
                  (set_nextCell (S p) (set_upvalues (<[p := newUpvalue slot]> (upvalues m)) m)))
    end.

(** [containsSlot(locals, slot)]: is [slot] the address of an element of
    the array at [la]? *)
Definition containsSlot (m : VM) (la : nat) (slot : option (nat * nat)) : bool :=
  match slot with
  | None => false
  | Some (a, i) => Nat.eqb a la && (i <? length (default [] (localsMem m !! la)))%nat
  end.

Fixpoint closeUpvalues_loop (la : nat) (open : list nat) (m : VM) : list nat * VM :=
  match open with
  | [] => ([], m)
  | uv :: rest =>
      if containsSlot m la (location_of m uv)
      then closeUpvalues_loop la rest (upvalue_close uv m)
      else let '(filtered, m') := closeUpvalues_loop la rest m in (uv :: filtered, m')
  end.

Definition closeUpvalues (la : nat) : M unit :=
  modify (fun m =>
            if (length (default [] (localsMem m !! la)) =? 0)%nat then m
            else let '(filtered, m') := closeUpvalues_loop la (openUpvalues m) m in
                 set_openUpvalues filtered m').

(** *** The interpreter, for a given host *)

Section Machine.

(** What the Go runtime and the host contribute: the capacity [append]
    chooses when it must grow a slice of the given capacity, the verb [%g],
    the order of [range] over a map, the native functions of the host and
    the process-wide registry of builtin opcodes.  A native function sees
    its arguments and the shared store.  The trace hook is an observer that
    must not change the machine and is left out. *)
Variable growcap : nat -> nat.
Variable format_g : float64.t -> string.
Variable map_range_choice : nat -> nat -> nat.
Variable native_call : nat -> list Value -> Store -> (Value * option GoError) * Store.
Variable builtinRegistry : Z -> option builtinEntry.

Definition lookupBuiltin (op : Z) : option builtinEntry := builtinRegistry op.

(** [vm.stack = append(vm.stack, v)] *)
Definition push (v : Value) : M unit :=
  modify (fun m =>
            if (stack_len m <? length (stack_buf m))%nat
            then set_stack (<[stack_len m := v]> (stack_buf m)) (S (stack_len m)) m
            else
              let cap := Nat.max (growcap (length (stack_buf m))) (S (stack_len m)) in
              set_stack (take (stack_len m) (stack_buf m) ++ v ::
                           repeat zeroValue (cap - S (stack_len m)))
                        (S (stack_len m)) m).

Definition pop : M Value :=
  fun m => match stack_len m with
           | O => inl (Null, m)
           | S n => inl (default zeroValue (stack_buf m !! n), set_stack (stack_buf m) n m)
           end.

Definition peek : M Value :=
  fun m => match stack_len m with
           | O => inl (Null, m)
           | S n => inl (default zeroValue (stack_buf m !! n), m)
           end.

(** [vm.stack = vm.stack[:n]]: allowed up to the capacity. *)
Definition truncate_stack (n : nat) : M unit :=
  fun m => if (n <=? length (stack_buf m))%nat
           then inl (tt, set_stack (stack_buf m) n m)
           else inr (Panic "slice bounds out of range").

Definition code_of (fr : frame) : list Z :=
  match chunk_of (fn fr) with
  | Some c => bytecode.Code c
  | None => []
  end.

Definition consts_of (fr : frame) : list bytecode.Const :=
  match chunk_of (fn fr) with
  | Some c => bytecode.Consts c
  | None => []
  end.

(** [Code[i]]: the code is a [[]byte], and the model reads its elements as
    bytes. *)
Definition codeAt (fr : frame) (i : Z) : option Z :=
  option_map goint.to_byte (zlookup (code_of fr) i).

Definition readU16 : M Z :=
  fr <- currentFrame ;;
  match codeAt fr (ip fr), codeAt fr (ip fr + 1) with
  | Some hi, Some lo =>
      updFrame (set_ip (ip fr + 2)) ;;;
      ret (Z.lor (Z.shiftl hi 8) lo)
  | _, _ => panic "index out of range"
  end.

Definition readU8 : M Z :=
  fr <- currentFrame ;;
  match codeAt fr (ip fr) with
  | Some b => updFrame (set_ip (ip fr + 1)) ;;; ret b
  | None => panic "index out of range"
  end.

(** [fr.fn.Proto.Chunk.Consts[idx]] *)
Definition constAt (idx : Z) : M bytecode.Const :=
  fr <- currentFrame ;;
  match zlookup (consts_of fr) idx with
  | Some c => ret c
  | None => panic "index out of range"
  end.

Definition localsLen (m : VM) (fr : frame) : Z :=
  zlen (default [] (localsMem m !! locals fr)).

Definition constToValue (v : bytecode.Const) : Value :=
  match v with
  | bytecode.CNil => Null
  | bytecode.CBool b => Bool b
  | bytecode.CFloat f => Number f
  | bytecode.CString s => String s
  | bytecode.CProto p =>
      FunctionVal {| Proto := Some p; Name := bytecode.Name p; Source := bytecode.Source p;
                     Upvalues := repeat None (length (bytecode.Upvalues p));
                     Native := None |}
  end.

Definition binaryOp (op : Z) (a b : Value) : res Value :=
  if (op =? bytecode.OP_ADD) || (op =? bytecode.OP_SUB) || (op =? bytecode.OP_MUL)
     || (op =? bytecode.OP_DIV) then
    match VKind a, VKind b with
    | KindNumber, KindNumber =>
        if op =? bytecode.OP_ADD then Ok (Number (float64.add (Num a) (Num b)))
        else if op =? bytecode.OP_SUB then Ok (Number (float64.sub (Num a) (Num b)))
        else if op =? bytecode.OP_MUL then Ok (Number (float64.mul (Num a) (Num b)))
        else Ok (Number (float64.div (Num a) (Num b)))
    | _, _ => Fail "operands must be numbers"
    end
  else if op =? bytecode.OP_EQ then Ok (Bool (Equal a b))
  else if op =? bytecode.OP_NEQ then Ok (Bool (negb (Equal a b)))
  else if (op =? bytecode.OP_LT) || (op =? bytecode.OP_LTE) || (op =? bytecode.OP_GT)
          || (op =? bytecode.OP_GTE) then
    match VKind a, VKind b with
    | KindNumber, KindNumber =>
        if op =? bytecode.OP_LT then Ok (Bool (float64.ltb (Num a) (Num b)))
        else if op =? bytecode.OP_LTE then Ok (Bool (float64.leb (Num a) (Num b)))
        else if op =? bytecode.OP_GT then Ok (Bool (float64.ltb (Num b) (Num a)))
        else Ok (Bool (float64.leb (Num b) (Num a)))
    | _, _ => Fail "operands must be numbers"
    end
  else Fail "unsupported op".

Definition maxLocals (f : Function) : Z :=
  match Proto f with
  | None => 0
  | Some p => if 0 <? bytecode.MaxLocals p then bytecode.MaxLocals p else bytecode.NumParams p
  end.

Definition toFunction (v : Value) : res Function :=
  match VKind v, Func v with
  | KindFunction, Some f => Ok f
  | _, _ => Fail "not a function"
  end.

(** [pushFrame]: the frame gets a fresh locals array. *)
Definition pushFrame (f : option Function) : M (res unit) :=
  fun m =>
    match f with
    | None => inl (Fail "invalid function", m)
    | Some f =>
        match Proto f with
        | None => inl (Fail "invalid function", m)
        | Some _ =>
            if maxFrames m <=? zlen (frames m) then inl (Fail "call stack overflow", m)
            else if maxLocals f <? 0 then inr (Panic "makeslice: len out of range")
            else
              let la := nextCell m in
              let fr := {| fn := f; ip := 0; locals := la; base := stack_len m; lastOp := -1 |} in
              inl (Ok tt,
                   set_frames (fr :: frames m)
                     (set_nextCell (S la)
                        (set_localsMem (<[la := repeat zeroValue (Z.to_nat (maxLocals f))]>
                                          (localsMem m)) m)))
        end
    end.

(** [for i := 0; i < len(args) && i < len(fr.locals); i++ { fr.locals[i] = args[i] }] *)
Definition copyArgs (args : list Value) : M unit :=
  fr <- currentFrame ;;
  modify (fun m =>
            let old := default [] (localsMem m !! locals fr) in
            let n := Nat.min (length args) (length old) in
            set_localsMem (<[locals fr := take n args ++ drop n old]> (localsMem m)) m).

Definition finishFrame (r : Value) : M (Value * bool) :=
  fr <- currentFrame ;;
  closeUpvalues (locals fr) ;;;
  modify (fun m => set_frames (tail (frames m)) m) ;;;
  truncate_stack (base fr) ;;;
  m <- get_vm ;;
  match frames m with
  | [] => ret (r, true)
  | _ => push r ;;; ret (r, false)
  end.

(** [for i := n - 1; i >= 0; i-- { elements[i] = vm.pop() }] *)
Fixpoint popN (n : nat) : M (list Value) :=
  match n with
  | O => ret []
  | S n' => v <- pop ;; rest <- popN n' ;; ret (rest ++ [v])
  end.

(** The loop of [OP_OBJECT]: the pairs are popped last field first. *)
Fixpoint popFields (n : nat) (obj : gmap string Value) : M (gmap string Value) :=
  match n with
  | O => ret obj
  | S n' =>
      val <- pop ;;
      key <- pop ;;
      match expectKeyString format_g key with
      | Fail msg => wrapError cur (ErrorVal msg) (PlainError msg)
      | Ok keyStr => popFields n' (<[keyStr := val]> obj)
      end
  end.

(** The loop of [OP_CLOSURE] over the upvalue descriptors. *)
Fixpoint closureUpvalues (n : nat) (acc : list (option nat)) : M (list (option nat)) :=
  match n with
  | O => ret acc
  | S n' =>
      isLocal <- readU8 ;;
      slot <- readU8 ;;
      fr <- currentFrame ;;
      m <- get_vm ;;
      if isLocal =? 1 then
        if localsLen m fr <=? slot then errorf cur "upvalue local slot out of range"
        else uv <- captureUpvalue (locals fr, Z.to_nat slot) ;;
             closureUpvalues n' (acc ++ [Some uv])
      else
        if zlen (Upvalues (fn fr)) <=? slot then errorf cur "upvalue index out of range"
        else closureUpvalues n' (acc ++ [default None (zlookup (Upvalues (fn fr)) slot)])
  end.

(** [if err != nil { return vm.wrapError(fr, ErrorVal(err.Error()), err) }] *)
Definition try {A} (r : res A) : M A :=
  match r with
  | Ok a => ret a
  | Fail msg => wrapError cur (ErrorVal msg) (PlainError msg)
  end.

(** [Consts[idx].(string)] with the message of the failed assertion. *)
Definition stringConst (idx : Z) (msg : string) : M string :=
  c <- constAt idx ;;
  match c with
  | bytecode.CString s => ret s
  | _ => errorf cur msg
  end.

Definition update_store (f : Store -> Store) : M unit :=
  modify (fun m => set_store (f (store m)) m).

(** One [case] of the [switch op] in [Run]. *)
Definition exec (op : bytecode.Op) : M unit :=
  match op with
  | bytecode.NOP | bytecode.DEBUG => ret tt
  | bytecode.CONST =>
      idx <- readU16 ;;
      c <- constAt idx ;;
      push (constToValue c)
  | bytecode.NULL => push Null
  | bytecode.TRUE => push (Bool true)
  | bytecode.FALSE => push (Bool false)
  | bytecode.POP => pop ;;; ret tt
  | bytecode.BINARY o =>
      b <- pop ;;
      a <- pop ;;
      r <- try (binaryOp o a b) ;;
      push r
  | bytecode.NEG =>
      v <- pop ;;
      match VKind v with
      | KindNumber => push (Number (float64.neg (Num v)))
      | _ => errorf cur "operand must be number"
      end
  | bytecode.NOT =>
      v <- pop ;;
      push (Bool (negb (Truthy v)))
  | bytecode.AND =>
      b <- pop ;;
      a <- pop ;;
      push (Bool (Truthy a && Truthy b))
  | bytecode.OR =>
      b <- pop ;;
      a <- pop ;;
      push (Bool (Truthy a || Truthy b))
  | bytecode.GET_LOCAL =>
      slot <- readU8 ;;
      fr <- currentFrame ;;
      m <- get_vm ;;
      if localsLen m fr <=? slot then errorf cur "local slot out of range"
      else push (readSlot m (locals fr, Z.to_nat slot))
  | bytecode.SET_LOCAL =>
      slot <- readU8 ;;
      fr <- currentFrame ;;
      m <- get_vm ;;
      if localsLen m fr <=? slot then errorf cur "local slot out of range"
      else val <- pop ;;
           modify (writeSlot (locals fr, Z.to_nat slot) val)
  | bytecode.GET_UPVALUE =>
      slot <- readU8 ;;
      fr <- currentFrame ;;
      if zlen (Upvalues (fn fr)) <=? slot then errorf cur "upvalue slot out of range"
      else m <- get_vm ;;
           push (upvalue_get (default None (zlookup (Upvalues (fn fr)) slot)) m)
  | bytecode.SET_UPVALUE =>
      slot <- readU8 ;;
      fr <- currentFrame ;;
      if zlen (Upvalues (fn fr)) <=? slot then errorf cur "upvalue slot out of range"
      else val <- pop ;;
           modify (upvalue_set (default None (zlookup (Upvalues (fn fr)) slot)) val)
  | bytecode.GET_GLOBAL =>
      idx <- readU16 ;;
      name <- stringConst idx "global name constant is not string" ;;
      m <- get_vm ;;
      match globals m !! name with
      | None => errorf cur ("global " ++ name ++ " not found")
      | Some v => push v
      end
  | bytecode.SET_GLOBAL =>
      idx <- readU16 ;;
      name <- stringConst idx "global name constant is not string" ;;
      val <- pop ;;
      modify (fun m => set_globals (<[name := val]> (globals m)) m)
  | bytecode.DEFINE_GLOBAL =>
      idx <- readU16 ;;
      name <- stringConst idx "global name constant is not string" ;;
      val <- pop ;;
      modify (fun m => set_globals (<[name := val]> (globals m)) m)
  | bytecode.ARRAY =>
      count <- readU16 ;;
      elements <- popN (Z.to_nat count) ;;
      m <- get_vm ;;
      let '(r, st) := allocArray elements (store m) in
      update_store (fun _ => st) ;;;
      push (Array (Some r))
  | bytecode.OBJECT =>
      count <- readU16 ;;
      obj <- popFields (Z.to_nat count) ∅ ;;
      m <- get_vm ;;
      let '(r, st) := allocObject obj (store m) in
      update_store (fun _ => st) ;;;
      push (Object (Some r))
  | bytecode.RANGE =>
      end_ <- pop ;;
      start <- pop ;;
      startIdx <- try (expectIndex start (-1)) ;;
      endIdx <- try (expectIndex end_ (-1)) ;;
      match buildRange startIdx endIdx with
      | Fail what => panic what
      | Ok elements =>
          m <- get_vm ;;
          let '(r, st) := allocArray elements (store m) in
          update_store (fun _ => st) ;;;
          push (Array (Some r))
      end
  | bytecode.INDEX_GET =>
      index <- pop ;;
      target <- pop ;;
      m <- get_vm ;;
      val <- try (indexGet format_g (store m) target index) ;;
      push val
  | bytecode.INDEX_SET =>
      val <- pop ;;
      index <- pop ;;
      target <- pop ;;
      m <- get_vm ;;
      st <- try (indexSet format_g (store m) target index val) ;;
      update_store (fun _ => st)
  | bytecode.GET_PROP =>
      idx <- readU16 ;;
      prop <- stringConst idx "property name constant is not string" ;;
      obj <- pop ;;
      match VKind obj, Obj obj with
      | KindObject, Some r =>
          m <- get_vm ;;
          match objectAt (store m) (Some r) !! prop with
          | None => errorf cur ("missing property " ++ prop)
          | Some val => push val
          end
      | _, _ => errorf cur "property access on non-object"
      end
  | bytecode.SET_PROP =>
      idx <- readU16 ;;
      prop <- stringConst idx "property name constant is not string" ;;
      val <- pop ;;
      obj <- pop ;;
      match VKind obj, Obj obj with
      | KindObject, Some r =>
          if ReadOnly obj then errorf cur "cannot modify read-only value"
          else update_store (fun st =>
                 set_objects (<[r := <[prop := val]> (objectAt st (Some r))]> (objects st)) st)
      | _, _ => errorf cur "property set on non-object"
      end
  | bytecode.JUMP =>
      off <- readU16 ;;
      updFrame (set_ip off)
  | bytecode.JUMP_IF_FALSE =>
      off <- readU16 ;;
      cond <- pop ;;
      when (negb (Truthy cond)) (updFrame (set_ip off))
  | bytecode.JUMP_IF_TRUE =>
      off <- readU16 ;;
      cond <- pop ;;
      when (Truthy cond) (updFrame (set_ip off))
  | bytecode.CALL =>
      argc <- readU8 ;;
      m <- get_vm ;;
      if Z.of_nat (stack_len m) <? argc + 1
      then errorf cur ("stack underflow on call: argc=" ++ goint.FormatInt argc ++ " stack="
                         ++ goint.FormatInt (Z.of_nat (stack_len m)))
      else
        args <- popN (Z.to_nat argc) ;;
        callee <- pop ;;
        f <- try (toFunction callee) ;;
        match Native f with
        | Some h =>
            m <- get_vm ;;
            let '(r, err, st) := native_call h args (store m) in
            update_store (fun _ => st) ;;;
            match err with
            | Some e => wrapError cur (ErrorVal (Error e)) e
            | None => push r
            end
        | None =>
            r <- pushFrame (Some f) ;;
            try r ;;;
            copyArgs args
        end
  | bytecode.RETURN =>
      fr <- currentFrame ;;
      m <- get_vm ;;
      r <- (if (base fr <? stack_len m)%nat then pop else ret Null) ;;
      rd <- finishFrame r ;;
      if rd.2 then stop (Done rd.1) else ret tt
  | bytecode.CLOSURE =>
      idx <- readU16 ;;
      upcount <- readU8 ;;
      c <- constAt idx ;;
      match c with
      | bytecode.CProto proto =>
          ups <- closureUpvalues (Z.to_nat upcount) [] ;;
          push (FunctionVal {| Proto := Some proto; Name := bytecode.Name proto;
                               Source := bytecode.Source proto; Upvalues := ups;
                               Native := None |})
      | _ => errorf cur "closure constant is not prototype"
      end
  | bytecode.ITER_PREP =>
      iterable <- pop ;;
      m <- get_vm ;;
      it <- try (toIterator map_range_choice iterable (store m)) ;;
      update_store (fun _ => it.2) ;;;
      push (IteratorVal (Some it.1))
  | bytecode.ITER_NEXT =>
      jump <- readU16 ;;
      iter <- peek ;;
      match VKind iter, It iter with
      | KindIterator, Some p =>
          m <- get_vm ;;
          let '(key, val, ok, st) := Iterator_Next p (store m) in
          update_store (fun _ => st) ;;;
          if negb ok then updFrame (set_ip jump)
          else push (String key) ;;; push val
      | _, _ => errorf cur "not an iterator"
      end
  end.

Definition runBuiltin (entry : builtinEntry) : M unit :=
  m <- get_vm ;;
  if Z.of_nat (stack_len m) <? arity entry
  then errorf cur ("builtin " ++ name entry ++ " expects " ++ goint.FormatInt (arity entry)
                     ++ " args, stack has " ++ goint.FormatInt (Z.of_nat (stack_len m)))
  else
    let '(val, err, stk, st) := handler entry m in
    modify (fun m => set_store st (set_stack stk.1 stk.2 m)) ;;;
    match err with
    | Some e => wrapError cur val e
    | None => ret tt
    end.

(** One iteration of the loop [for len(vm.frames) > 0] of [Run]. *)
Definition step : M unit :=
  fr0 <- currentFrame ;;
  updFrame (set_lastOp (ip fr0)) ;;;
  fr <- currentFrame ;;
  match chunk_of (fn fr) with
  | None => errorf cur "function missing prototype"
  | Some chunk =>
      let code := bytecode.Code chunk in
      if zlen code <=? ip fr then
        rd <- finishFrame Null ;;
        if rd.2 then stop (Done rd.1) else ret tt
      else
        match codeAt fr (ip fr) with
        | None => panic "index out of range"
        | Some op =>
            updFrame (set_ip (ip fr + 1)) ;;;
            modify (fun m => set_instCount (goint.wrap64 (instCount m + 1)) m) ;;;
            m <- get_vm ;;
            if (0 <? instLimit m) && (instLimit m <? instCount m)
            then errorf cur "instruction limit exceeded"
            else
              match lookupBuiltin op with
              | Some entry => runBuiltin entry
              | None =>
                  match bytecode.switch_case op with
                  | Some o => exec o
                  | None => errorf cur ("unknown opcode " ++ goint.FormatInt op)
                  end
              end
        end
  end.

(** The part of [Run] before the loop. *)
Definition Run_enter (f : option Function) (args : list Value) : M unit :=
  modify ResetState ;;;
  modify (set_instCount 0) ;;;
  match f with
  | None => errorf None "invalid function"
  | Some f' =>
      match Native f' with
      | Some h =>
          m <- get_vm ;;
          let '(val, err, st) := native_call h args (store m) in
          update_store (fun _ => st) ;;;
          match err with
          | Some e => wrapError None (ErrorVal (Error e)) e
          | None => stop (Done val)
          end
      | None =>
          r <- pushFrame f ;;
          match r with
          | Fail msg => errorf None msg
          | Ok _ => copyArgs args
          end
      end
  end.

(** The loop of [Run].  It has no bound in the source; the model runs at
    most [fuel] iterations and answers [None] when they do not suffice. *)
Fixpoint Run_loop (fuel : nat) (m : VM) : option Outcome :=
  match fuel with
  | O => None
  | S fuel' =>
      match frames m with
      | [] => Some (Done Null m)
      | _ :: _ =>
          match step m with
          | inl (_, m') => Run_loop fuel' m'
          | inr o => Some o
          end
      end
  end.

Definition Run (fuel : nat) (f : option Function) (args : list Value) (m : VM)
  : option Outcome :=
  match Run_enter f args m with
  | inl (_, m') => Run_loop fuel m'
  | inr o => Some o
  end.

Definition Call (fuel : nat) (name : string) (args : list Value) (m : VM) : option Outcome :=
  match globals m !! name with
  | None => Some (errorf_at None ("global " ++ name ++ " not found") m)
  | Some val =>
      match toFunction val with
      | Fail msg => Some (wrapError_at None (ErrorVal msg) (PlainError msg) m)
      | Ok f => Run fuel (Some f) args m
      end
  end.

End Machine.

End vm.

(** ** internal/token *)

Module token.

(** [type Type string] with its declared constants. *)
Inductive Type_ :=
| Illegal | EOF | Newline
| Ident | Variable_ | Number | String
| If | ElseIf | Else | While | For | In | Func | Return | True_ | False_ | Null
| Yield | Iterate | Using
| Assign | Define | Plus | Minus | Star | Slash | Bang
| Equal | NotEqual | Less | LessEqual | Greater | GreaterEqual | AndAnd | OrOr | Range
| Comma | Colon | Dot | LParen | RParen | LBrace | RBrace | LBracket | RBracket.

(** The string behind each constant, as the verb [%s] prints it. *)
Definition Type_string (t : Type_) : string :=
  match t with
  | Illegal => "ILLEGAL" | EOF => "EOF" | Newline => "NEWLINE"
  | Ident => "IDENT" | Variable_ => "VAR" | Number => "NUMBER" | String => "STRING"
  | If => "IF" | ElseIf => "ELSEIF" | Else => "ELSE" | While => "WHILE" | For => "FOR"
  | In => "IN" | Func => "FUNC" | Return => "RETURN" | True_ => "TRUE" | False_ => "FALSE"
  | Null => "NULL" | Yield => "YIELD" | Iterate => "ITERATE" | Using => "USING"
  | Assign => "ASSIGN" | Define => "DEFINE" | Plus => "PLUS" | Minus => "MINUS"
  | Star => "STAR" | Slash => "SLASH" | Bang => "BANG" | Equal => "EQUAL"
  | NotEqual => "NOTEQUAL" | Less => "LESS" | LessEqual => "LESSEQUAL"
  | Greater => "GREATER" | GreaterEqual => "GREATEREQUAL" | AndAnd => "ANDAND"
  | OrOr => "OROR" | Range => "RANGE" | Comma => "COMMA" | Colon => "COLON" | Dot => "DOT"
  | LParen => "LPAREN" | RParen => "RPAREN" | LBrace => "LBRACE" | RBrace => "RBRACE"
  | LBracket => "LBRACKET" | RBracket => "RBRACKET"
  end.

Record Position := { Offset : Z; Line : Z; Column : Z }.

Definition zeroPosition : Position := {| Offset := 0; Line := 0; Column := 0 |}.

Record Token := { Typ : Type_; Literal : string; Pos : Position }.

Definition zeroToken : Token := {| Typ := Illegal; Literal := ""; Pos := zeroPosition |}.

Definition keywords : list (string * Type_) :=
  [("if", If); ("elseif", ElseIf); ("else", Else); ("while", While); ("for", For);
   ("in", In); ("func", Func); ("return", Return); ("true", True_); ("false", False_);
   ("null", Null); ("yield", Yield); ("iterate", Iterate); ("using", Using)]%string.

Definition LookupIdent (ident : string) : Type_ :=
  match List.find (fun kw => String.eqb (fst kw) ident) keywords with
  | Some kw => snd kw
  | None => Ident
  end.

End token.

(** ** internal/ast

    Every node keeps the position that its [Pos()] returns; the spans are
    not read by the compiler and are left out. *)

Module ast.

Record Param := { PName : string; PPos : token.Position }.

Record ObjectKey := {
  KIdent : string;
  KStr : option string;
  KNum : option string
}.

Record ForBinding := { Key : string; ValueName : string }.

#[warnings="-register-all"] Inductive Expression :=
| Identifier (Name : string) (pos : token.Position)
| Variable_ (Name : string) (pos : token.Position)
| NumberLiteral (Value : string) (pos : token.Position)
| StringLiteral (Value : string) (pos : token.Position)
| BoolLiteral (Value : bool) (pos : token.Position)
| NullLiteral (pos : token.Position)
| ArrayLiteral (Elements : list Expression) (pos : token.Position)
| RangeLiteral (Start End_ : Expression) (pos : token.Position)
| ObjectLiteral (Fields : list (ObjectKey * Expression)) (pos : token.Position)
| IndexExpr (Left Index : Expression) (pos : token.Position)
| MemberExpr (Left : Expression) (Property : string) (pos : token.Position)
| CallExpr (Callee : Expression) (Arguments : list Expression) (pos : token.Position)
| AssignExpr (Left Value : Expression) (Operator : token.Type_) (pos : token.Position)
| BinaryExpr (Left : Expression) (Operator : token.Type_) (Right : Expression)
             (pos : token.Position)
| UnaryExpr (Operator : token.Type_) (Right : Expression) (pos : token.Position)
| FuncExpr (Params : list Param) (Body : list Statement) (pos : token.Position)
with Statement :=
| Program (Statements : list Statement)
| BlockStmt (Statements : list Statement) (pos : token.Position)
| ExprStmt (Expression_ : Expression) (pos : token.Position)
| ReturnStmt (Value : option Expression) (pos : token.Position)
| IfStmt (Condition : Expression) (Conseq : list Statement)
         (ElseIfs : list (Expression * list Statement))
         (Alt : option (list Statement)) (pos : token.Position)
| WhileStmt (Condition : Expression) (Body : list Statement) (pos : token.Position)
| ForStmt (Binding : ForBinding) (Iterable : Expression) (Body : list Statement)
          (pos : token.Position)
| FuncDecl (Name : string) (Params : list Param) (Body : list Statement)
           (pos : token.Position).

Definition Expression_Pos (e : Expression) : token.Position :=
  match e with
  | Identifier _ p | Variable_ _ p | NumberLiteral _ p | StringLiteral _ p
  | BoolLiteral _ p | NullLiteral p | ArrayLiteral _ p | RangeLiteral _ _ p
  | ObjectLiteral _ p | IndexExpr _ _ p | MemberExpr _ _ p | CallExpr _ _ p
  | AssignExpr _ _ _ p | BinaryExpr _ _ _ p | UnaryExpr _ _ p | FuncExpr _ _ p => p
  end.

Fixpoint Statement_Pos (s : Statement) : token.Position :=
  match s with
  | Program [] => token.zeroPosition
  | Program (s0 :: _) => Statement_Pos s0
  | BlockStmt _ p | ExprStmt _ p | ReturnStmt _ p | IfStmt _ _ _ _ p
  | WhileStmt _ _ p | ForStmt _ _ _ p | FuncDecl _ _ _ p => p
  end.

End ast.

(** ** internal/compiler *)

Module compiler.

(** [type scope struct]; [enclosing] is the scope of the function around
    this one, or nil.  Slots and upvalue indices are [uint8]. *)
#[warnings="-register-all"] Inductive scope :=
| mkScope (enclosing : option scope) (locals : gmap string Z)
          (upvalues : list bytecode.Upvalue) (nextLoc : Z).

Definition enclosing (s : scope) := let 'mkScope e _ _ _ := s in e.
Definition locals (s : scope) := let 'mkScope _ l _ _ := s in l.
Definition upvalues (s : scope) := let 'mkScope _ _ u _ := s in u.
Definition nextLoc (s : scope) := let 'mkScope _ _ _ n := s in n.

Definition newScope (enclosing : option scope) : scope := mkScope enclosing ∅ [] 0.

Definition uint8 (z : Z) : Z := z mod 256.
Definition uint16 (z : Z) : Z := z mod 65536.

(** [addLocal]: the slot and the scope with the name bound. *)
Definition scope_addLocal (name : string) (s : scope) : Z * scope :=
  let slot := nextLoc s in
  (slot, mkScope (enclosing s) (<[name := slot]> (locals s)) (upvalues s) (uint8 (nextLoc s + 1))).

Definition scope_resolveLocal (name : string) (s : scope) : option Z := locals s !! name.

(** [resolveUpvalue]: the descriptor handed back and the scope chain with
    the descriptors that were appended on the way. *)
Fixpoint scope_resolveUpvalue (name : string) (s : scope) : option bytecode.Upvalue * scope :=
  match s with
  | mkScope None _ _ _ => (None, s)
  | mkScope (Some enc) l ups n =>
      match scope_resolveLocal name enc with
      | Some slot =>
          let ups' := ups ++ [{| bytecode.IsLocal := true; bytecode.Index := slot |}] in
          (Some {| bytecode.IsLocal := false;
                   bytecode.Index := uint8 (Z.of_nat (length ups') - 1) |},
           mkScope (Some enc) l ups' n)
      | None =>
          match scope_resolveUpvalue name enc with
          | (Some up, enc') =>
              let ups' := ups ++ [up] in
              (Some {| bytecode.IsLocal := false;
                       bytecode.Index := uint8 (Z.of_nat (length ups') - 1) |},
               mkScope (Some enc') l ups' n)
          | (None, enc') => (None, mkScope (Some enc') l ups n)
          end
      end
  end.

(** [type funcCompiler struct] *)
Record funcCompiler := {
  chunk : bytecode.Chunk;
  scope_ : scope;
  line : Z;
  temp : Z;
  source : string
}.

Definition set_chunk (c : bytecode.Chunk) (fc : funcCompiler) : funcCompiler :=
  {| chunk := c; scope_ := scope_ fc; line := line fc; temp := temp fc; source := source fc |}.
Definition set_scope (s : scope) (fc : funcCompiler) : funcCompiler :=
  {| chunk := chunk fc; scope_ := s; line := line fc; temp := temp fc; source := source fc |}.
Definition set_line (l : Z) (fc : funcCompiler) : funcCompiler :=
  {| chunk := chunk fc; scope_ := scope_ fc; line := l; temp := temp fc; source := source fc |}.

Definition newFuncCompiler (source : string) : funcCompiler :=
  {| chunk := bytecode.emptyChunk; scope_ := newScope None; line := 0; temp := 0;
     source := source |}.

Definition newFuncCompilerWithScope (parent : scope) (source : string) : funcCompiler :=
  {| chunk := bytecode.emptyChunk; scope_ := newScope (Some parent); line := 0; temp := 0;
     source := source |}.

(** A compiling function either goes on with a changed [funcCompiler] or
    returns an error. *)
Definition C (A : Type) : Type := SE funcCompiler string A.

Definition fail {A} (msg : string) : C A := leave (fun _ => msg).

Definition codeLen (fc : funcCompiler) : Z := Z.of_nat (length (bytecode.Code (chunk fc))).

Definition addLocal (name : string) : C Z :=
  fc <- get_state ;;
  let '(slot, s) := scope_addLocal name (scope_ fc) in
  modify (set_scope s) ;;; ret slot.

Definition ensureLocal (name : string) : C Z :=
  fc <- get_state ;;
  match scope_resolveLocal name (scope_ fc) with
  | Some slot => ret slot
  | None => addLocal name
  end.

Definition resolveUpvalue (name : string) : C (option bytecode.Upvalue) :=
  fc <- get_state ;;
  let '(up, s) := scope_resolveUpvalue name (scope_ fc) in
  modify (set_scope s) ;;; ret up.

Definition lastOp (fc : funcCompiler) : Z :=
  default 0 (last (bytecode.Code (chunk fc))).

Definition setLine (l : Z) : C unit :=
  when (0 <? l) (modify (set_line l)).

Definition recordLine : C unit :=
  modify (fun fc =>
    if line fc =? 0 then fc
    else
      let off := codeLen fc in
      let c := chunk fc in
      let fresh := match last (bytecode.Lines c) with
                   | None => true
                   | Some li => negb (bytecode.Offset li =? off)
                   end in
      if fresh
      then set_chunk (bytecode.mkChunk (bytecode.Code c) (bytecode.Consts c)
                        (bytecode.Lines c ++ [{| bytecode.Offset := off;
                                                 bytecode.Line := line fc |}])) fc
      else fc).

Definition appendCode (bs : list Z) : C unit :=
  modify (fun fc =>
    let c := chunk fc in
    set_chunk (bytecode.mkChunk (bytecode.Code c ++ bs) (bytecode.Consts c) (bytecode.Lines c)) fc).

Definition emitByte (b : Z) : C unit := recordLine ;;; appendCode [b].

Definition emitBytes (bs : list Z) : C unit := recordLine ;;; appendCode bs.

Definition addConst (v : bytecode.Const) : C Z :=
  modify (fun fc =>
    let c := chunk fc in
    set_chunk (bytecode.mkChunk (bytecode.Code c) (bytecode.Consts c ++ [v]) (bytecode.Lines c)) fc) ;;;
  fc <- get_state ;;
  ret (uint16 (Z.of_nat (length (bytecode.Consts (chunk fc))) - 1)).

Definition hi (z : Z) : Z := goint.to_byte (Z.shiftr z 8).
Definition lo (z : Z) : Z := goint.to_byte z.

Definition emitConst (v : bytecode.Const) : C unit :=
  idx <- addConst v ;;
  emitBytes [bytecode.OP_CONST; hi idx; lo idx].

Definition emitGlobalGet (name : string) : C unit :=
  idx <- addConst (bytecode.CString name) ;;
  emitBytes [bytecode.OP_GET_GLOBAL; hi idx; lo idx].

Definition emitGlobalSet (name : string) (define : bool) : C unit :=
  idx <- addConst (bytecode.CString name) ;;
  if define then emitBytes [bytecode.OP_DEFINE_GLOBAL; hi idx; lo idx]
  else emitBytes [bytecode.OP_SET_GLOBAL; hi idx; lo idx].

Definition emitJump (op : Z) : C Z :=
  emitByte op ;;;
  emitByte 255 ;;;
  emitByte 255 ;;;
  fc <- get_state ;;
  ret (codeLen fc - 2).

(** [patchJump]: writing outside the code panics in Go; the compiler only
    patches positions it has emitted, and the model leaves the code as it
    is otherwise. *)
Definition patchJump (pos : Z) : C unit :=
  modify (fun fc =>
    let c := chunk fc in
    let offset := codeLen fc in
    let code := <[Z.to_nat pos := hi offset]> (bytecode.Code c) in
    let code := <[Z.to_nat (pos + 1) := lo offset]> code in
    set_chunk (bytecode.mkChunk code (bytecode.Consts c) (bytecode.Lines c)) fc).

Definition emitLoop (start : Z) : C unit :=
  emitByte bytecode.OP_JUMP ;;;
  emitByte (hi start) ;;;
  emitByte (lo start).

Definition objectKeyToString (k : ast.ObjectKey) : string :=
  if negb (String.eqb (ast.KIdent k) "") then ast.KIdent k
  else match ast.KStr k with
       | Some s => s
       | None => match ast.KNum k with
                 | Some s => s
                 | None => ""
                 end
       end.

(** The verb [%T] on the nodes. *)
Definition expr_type_name (e : ast.Expression) : string :=
  match e with
  | ast.Identifier _ _ => "*ast.Identifier"
  | ast.Variable_ _ _ => "*ast.Variable"
  | ast.NumberLiteral _ _ => "*ast.NumberLiteral"
  | ast.StringLiteral _ _ => "*ast.StringLiteral"
  | ast.BoolLiteral _ _ => "*ast.BoolLiteral"
  | ast.NullLiteral _ => "*ast.NullLiteral"
  | ast.ArrayLiteral _ _ => "*ast.ArrayLiteral"
  | ast.RangeLiteral _ _ _ => "*ast.RangeLiteral"
  | ast.ObjectLiteral _ _ => "*ast.ObjectLiteral"
  | ast.IndexExpr _ _ _ => "*ast.IndexExpr"
  | ast.MemberExpr _ _ _ => "*ast.MemberExpr"
  | ast.CallExpr _ _ _ => "*ast.CallExpr"
  | ast.AssignExpr _ _ _ _ => "*ast.AssignExpr"
  | ast.BinaryExpr _ _ _ _ => "*ast.BinaryExpr"
  | ast.UnaryExpr _ _ _ => "*ast.UnaryExpr"
  | ast.FuncExpr _ _ _ => "*ast.FuncExpr"
  end.

Section ForEach.
Context {A : Type} (f : A -> C unit).

(** [for _, x := range xs { if err := f(x); err != nil { return err } }] *)
Fixpoint forEach (xs : list A) : C unit :=
  match xs with
  | [] => ret tt
  | x :: rest => f x ;;; forEach rest
  end.

End ForEach.

(** The loop over the parameters of a function. *)
Fixpoint addParams (i : Z) (params : list ast.Param) : C unit :=
  match params with
  | [] => ret tt
  | p :: rest =>
      if 255 <=? i then fail "too many parameters"
      else addLocal (ast.PName p) ;;; addParams (i + 1) rest
  end.

(** The bytes that follow [OP_CLOSURE idx n]: one pair per descriptor. *)
Definition emitUpvalueDescs (ups : list bytecode.Upvalue) : C unit :=
  forEach (fun uv => emitBytes [if bytecode.IsLocal uv then 1 else 0; bytecode.Index uv]) ups.

Section Compiler.

(** What lies outside the package: [strconv.ParseFloat(s, 64)] ([None] is
    an error), the verb [%q], and the registry of builtins by name, which
    answers with the opcode and the arity of a builtin. *)
Variable ParseFloat : string -> option float64.t.
Variable quote : string -> string.
Variable LookupByName : string -> option (Z * Z).

Definition builtinName (e : ast.Expression) : option string :=
  match e with
  | ast.Identifier name _ =>
      match LookupByName name with
      | Some _ => Some name
      | None => None
      end
  | _ => None
  end.

Definition errArgs (name : string) (want got : Z) : string :=
  "builtin " ++ name ++ " expects " ++ goint.FormatInt want ++ " args, got "
    ++ goint.FormatInt got.

Definition emitBuiltin (name : string) (argc : Z) : C unit :=
  match LookupByName name with
  | None => fail ("unknown builtin " ++ name)
  | Some (opcode, arity) =>
      if negb (argc =? arity) then fail (errArgs name arity argc)
      else emitByte opcode
  end.

(** [compilePrototype], given the compilation of the body: the child
    compiler works in a new scope whose [enclosing] is the scope of this
    compiler, and what it appends to the enclosing scopes stays. *)
Definition compilePrototype (name : string) (params : list ast.Param) (empty_body : bool)
  (compileBody : C unit) : C (Z * list bytecode.Upvalue) :=
  fc <- get_state ;;
  let child := newFuncCompilerWithScope (scope_ fc) (source fc) in
  match (addParams 0 params ;;;
         compileBody ;;;
         ch <- get_state ;;
         when (empty_body || negb (lastOp ch =? bytecode.OP_RETURN))
              (emitByte bytecode.OP_NULL ;;; emitByte bytecode.OP_RETURN)) child with
  | inr err => fail err
  | inl (_, child) =>
      let proto := bytecode.mkPrototype name (source fc) (Z.of_nat (length params))
                     (Some (chunk child)) (upvalues (scope_ child))
                     (nextLoc (scope_ child)) in
      modify (fun fc => match enclosing (scope_ child) with
                        | Some parent => set_scope parent fc
                        | None => fc
                        end) ;;;
      idx <- addConst (bytecode.CProto proto) ;;
      ret (idx, bytecode.Upvalues proto)
  end.

Definition emitArith (op : token.Type_) : C unit :=
  match op with
  | token.Plus => emitByte bytecode.OP_ADD
  | token.Minus => emitByte bytecode.OP_SUB
  | token.Star => emitByte bytecode.OP_MUL
  | token.Slash => emitByte bytecode.OP_DIV
  | token.Equal => emitByte bytecode.OP_EQ
  | token.NotEqual => emitByte bytecode.OP_NEQ
  | token.Less => emitByte bytecode.OP_LT
  | token.LessEqual => emitByte bytecode.OP_LTE
  | token.Greater => emitByte bytecode.OP_GT
  | token.GreaterEqual => emitByte bytecode.OP_GTE
  | _ => fail ("unsupported binary op " ++ token.Type_string op)
  end.

(** [compileExpr] with [compileLogical], [compileAssign] and
    [compileFuncExpr] in place, and one round of the loop of
    [compileBlock] ([compileStmt]) with [compileIf], [compileWhile],
    [compileForIn] and [compileNestedFuncDecl] in place. *)
Fixpoint compileExpr (expr : ast.Expression) : C unit :=
  setLine (token.Line (ast.Expression_Pos expr)) ;;;
  match expr with
  | ast.NumberLiteral v _ =>
      match ParseFloat v with
      | None => fail ("invalid number " ++ quote v)
      | Some num => emitConst (bytecode.CFloat num)
      end
  | ast.StringLiteral v _ => emitConst (bytecode.CString v)
  | ast.BoolLiteral v _ =>
      if v then emitByte bytecode.OP_TRUE else emitByte bytecode.OP_FALSE
  | ast.NullLiteral _ => emitByte bytecode.OP_NULL
  | ast.ArrayLiteral els _ =>
      forEach compileExpr els ;;;
      emitBytes [bytecode.OP_ARRAY; hi (Z.of_nat (length els)); lo (Z.of_nat (length els))]
  | ast.RangeLiteral st en _ =>
      compileExpr st ;;;
      compileExpr en ;;;
      emitByte bytecode.OP_RANGE
  | ast.ObjectLiteral fields _ =>
      forEach (fun f : ast.ObjectKey * ast.Expression =>
                 emitConst (bytecode.CString (objectKeyToString (fst f))) ;;;
                 compileExpr (snd f)) fields ;;;
      let count := Z.of_nat (length fields) in
      emitBytes [bytecode.OP_OBJECT; hi count; lo count]
  | ast.Identifier name _ => emitGlobalGet name
  | ast.Variable_ name _ =>
      fc <- get_state ;;
      match scope_resolveLocal name (scope_ fc) with
      | Some slot => emitBytes [bytecode.OP_GET_LOCAL; slot]
      | None =>
          up <- resolveUpvalue name ;;
          match up with
          | Some up => emitBytes [bytecode.OP_GET_UPVALUE; bytecode.Index up]
          | None => emitGlobalGet name
          end
      end
  | ast.UnaryExpr op right_ _ =>
      compileExpr right_ ;;;
      match op with
      | token.Minus => emitByte bytecode.OP_NEG
      | token.Bang => emitByte bytecode.OP_NOT
      | token.Plus => ret tt
      | _ => fail ("unsupported unary op " ++ token.Type_string op)
      end
  | ast.BinaryExpr left_ op right_ _ =>
      match op with
      | token.AndAnd =>
          compileExpr left_ ;;;
          endJump <- emitJump bytecode.OP_JUMP_IF_FALSE ;;
          emitByte bytecode.OP_POP ;;;
          compileExpr right_ ;;;
          patchJump endJump
      | token.OrOr =>
          compileExpr left_ ;;;
          endJump <- emitJump bytecode.OP_JUMP_IF_TRUE ;;
          emitByte bytecode.OP_POP ;;;
          compileExpr right_ ;;;
          patchJump endJump
      | _ =>
          compileExpr left_ ;;;
          compileExpr right_ ;;;
          emitArith op
      end
  | ast.AssignExpr left_ value op _ =>
      match left_ with
      | ast.Variable_ name _ =>
          fc <- get_state ;;
          when (match op with token.Define => true | _ => false end
                && negb (bool_decide (is_Some (locals (scope_ fc) !! name))))
               (addLocal name ;;; ret tt) ;;;
          compileExpr value ;;;
          fc <- get_state ;;
          match scope_resolveLocal name (scope_ fc) with
          | Some slot => emitBytes [bytecode.OP_SET_LOCAL; slot]
          | None =>
              up <- resolveUpvalue name ;;
              match up with
              | Some up => emitBytes [bytecode.OP_SET_UPVALUE; bytecode.Index up]
              | None => emitGlobalSet name (match op with token.Define => true | _ => false end)
              end
          end
      | ast.MemberExpr l prop _ =>
          compileExpr l ;;;
          idx <- addConst (bytecode.CString prop) ;;
          compileExpr value ;;;
          emitBytes [bytecode.OP_SET_PROP; hi idx; lo idx]
      | ast.IndexExpr l i _ =>
          compileExpr l ;;;
          compileExpr i ;;;
          compileExpr value ;;;
          emitByte bytecode.OP_INDEX_SET
      | _ => fail ("invalid assignment target " ++ expr_type_name left_)
      end
  | ast.CallExpr callee args _ =>
      match builtinName callee with
      | Some name =>
          forEach compileExpr args ;;;
          emitBuiltin name (Z.of_nat (length args))
      | None =>
          compileExpr callee ;;;
          forEach compileExpr args ;;;
          emitBytes [bytecode.OP_CALL; goint.to_byte (Z.of_nat (length args))]
      end
  | ast.MemberExpr l prop _ =>
      compileExpr l ;;;
      idx <- addConst (bytecode.CString prop) ;;
      emitBytes [bytecode.OP_GET_PROP; hi idx; lo idx]
  | ast.IndexExpr l i _ =>
      compileExpr l ;;;
      compileExpr i ;;;
      emitByte bytecode.OP_INDEX_GET
  | ast.FuncExpr params body _ =>
      r <- compilePrototype "" params (bool_decide (body = []))
             (forEach compileStmt body) ;;
      emitBytes [bytecode.OP_CLOSURE; hi r.1; lo r.1; goint.to_byte (Z.of_nat (length r.2))] ;;;
      emitUpvalueDescs r.2
  end
with compileStmt (stmt : ast.Statement) : C unit :=
  setLine (token.Line (ast.Statement_Pos stmt)) ;;;
  match stmt with
  | ast.ExprStmt e _ =>
      compileExpr e ;;;
      match e with
      | ast.AssignExpr _ _ _ _ => ret tt
      | _ => emitByte bytecode.OP_POP
      end
  | ast.ReturnStmt v _ =>
      match v with
      | Some e => compileExpr e
      | None => emitByte bytecode.OP_NULL
      end ;;;
      emitByte bytecode.OP_RETURN
  | ast.IfStmt cond conseq elseifs alt _ =>
      compileExpr cond ;;;
      jumpIfFalsePos <- emitJump bytecode.OP_JUMP_IF_FALSE ;;
      emitByte bytecode.OP_POP ;;;
      forEach compileStmt conseq ;;;
      jumpOverElse <- emitJump bytecode.OP_JUMP ;;
      patchJump jumpIfFalsePos ;;;
      emitByte bytecode.OP_POP ;;;
      forEach (fun clause : ast.Expression * list ast.Statement =>
                 compileExpr (fst clause) ;;;
                 jFalse <- emitJump bytecode.OP_JUMP_IF_FALSE ;;
                 emitByte bytecode.OP_POP ;;;
                 forEach compileStmt (snd clause) ;;;
                 jOver <- emitJump bytecode.OP_JUMP ;;
                 patchJump jFalse ;;;
                 emitByte bytecode.OP_POP ;;;
                 patchJump jOver) elseifs ;;;
      match alt with
      | Some a => forEach compileStmt a
      | None => ret tt
      end ;;;
      patchJump jumpOverElse
  | ast.WhileStmt cond body _ =>
      fc <- get_state ;;
      let loopStart := codeLen fc in
      compileExpr cond ;;;
      exitJump <- emitJump bytecode.OP_JUMP_IF_FALSE ;;
      emitByte bytecode.OP_POP ;;;
      forEach compileStmt body ;;;
      emitLoop loopStart ;;;
      patchJump exitJump ;;;
      emitByte bytecode.OP_POP
  | ast.ForStmt binding iterable body _ =>
      compileExpr iterable ;;;
      emitByte bytecode.OP_ITER_PREP ;;;
      fc <- get_state ;;
      let loopStart := codeLen fc in
      iterNextPos <- emitJump bytecode.OP_ITER_NEXT ;;
      (if negb (String.eqb (ast.Key binding) "") then
         keySlot <- ensureLocal (ast.Key binding) ;;
         valSlot <- ensureLocal (ast.ValueName binding) ;;
         emitBytes [bytecode.OP_SET_LOCAL; valSlot] ;;;
         emitBytes [bytecode.OP_SET_LOCAL; keySlot]
       else
         valSlot <- ensureLocal (ast.ValueName binding) ;;
         emitBytes [bytecode.OP_SET_LOCAL; valSlot] ;;;
         emitByte bytecode.OP_POP) ;;;
      forEach compileStmt body ;;;
      emitLoop loopStart ;;;
      patchJump iterNextPos ;;;
      emitByte bytecode.OP_POP
  | ast.FuncDecl name params body _ =>
      r <- compilePrototype name params (bool_decide (body = []))
             (forEach compileStmt body) ;;
      emitBytes [bytecode.OP_CLOSURE; hi r.1; lo r.1; goint.to_byte (Z.of_nat (length r.2))] ;;;
      emitUpvalueDescs r.2 ;;;
      slot <- ensureLocal name ;;
      emitBytes [bytecode.OP_SET_LOCAL; slot]
  | ast.Program _ => fail "unsupported statement type *ast.Program"
  | ast.BlockStmt _ _ => fail "unsupported statement type *ast.BlockStmt"
  end.

Definition compileBlock (block : list ast.Statement) : C unit := forEach compileStmt block.

(** [(c *compiler).compileFunction] on the fields of a [*ast.FuncDecl]. *)
Definition compileFunction (source : string) (name : string) (params : list ast.Param)
  (body : list ast.Statement) : res bytecode.Prototype :=
  match (addParams 0 params ;;;
         compileBlock body ;;;
         fc <- get_state ;;
         when (bool_decide (body = []) || negb (lastOp fc =? bytecode.OP_RETURN))
              (emitByte bytecode.OP_NULL ;;; emitByte bytecode.OP_RETURN))
          (newFuncCompiler source) with
  | inr err => Fail err
  | inl (_, fc) =>
      Ok (bytecode.mkPrototype name source (Z.of_nat (length params)) (Some (chunk fc))
            (upvalues (scope_ fc)) (nextLoc (scope_ fc)))
  end.

(** The loop of [Compile] over the statements of the program. *)
Fixpoint Compile_loop (source : string) (stmts : list ast.Statement)
  (functions : gmap string bytecode.Prototype) : res (gmap string bytecode.Prototype) :=
  match stmts with
  | [] => Ok functions
  | stmt :: rest =>
      match stmt with
      | ast.FuncDecl name params body _ =>
          match compileFunction source name params body with
          | Fail err => Fail err
          | Ok proto => Compile_loop source rest (<[name := proto]> functions)
          end
      | _ => Fail "top-level statements other than func are not supported"
      end
  end.

Definition Compile (prog : list ast.Statement) (source : string) : res bytecode.Module_ :=
  match Compile_loop source prog ∅ with
  | Fail err => Fail err
  | Ok functions => Ok {| bytecode.Functions := functions |}
  end.

End Compiler.

End compiler.

(** ** internal/lexer *)

Module lexer.

Local Open Scope char_scope.

(** [type Lexer struct]; [ch] is a byte, and the byte 0 marks the end. *)
Record Lexer := {
  input : string;
  pos : Z;
  readPos : Z;
  ch : ascii;
  line : Z;
  column : Z;
  parenDepth : Z;
  bracketDepth : Z;
  lastToken : token.Type_
}.

Definition NUL : ascii := "000".
Definition LF : ascii := "010".
Definition TAB : ascii := "009".
Definition CR : ascii := "013".
Definition BS : ascii := "008".
Definition FF : ascii := "012".
Definition QUOTE : ascii := "034".
Definition BACKSLASH : ascii := "092".

Definition inputLen (l : Lexer) : Z := Z.of_nat (String.length (input l)).

(** [l.input[i]] for an index inside the input. *)
Definition byteAt (l : Lexer) (i : Z) : ascii :=
  default NUL (String.get (Z.to_nat i) (input l)).

Definition peekChar (l : Lexer) : ascii :=
  if (inputLen l <=? readPos l)%Z then NUL else byteAt l (readPos l).

Definition readChar (l : Lexer) : Lexer :=
  if (inputLen l <=? readPos l)%Z then
    {| input := input l; pos := readPos l; readPos := readPos l; ch := NUL;
       line := line l; column := column l; parenDepth := parenDepth l;
       bracketDepth := bracketDepth l; lastToken := lastToken l |}
  else
    let c := byteAt l (readPos l) in
    {| input := input l; pos := readPos l; readPos := readPos l + 1; ch := c;
       line := if Ascii.eqb c LF then line l + 1 else line l;
       column := if Ascii.eqb c LF then 0 else column l + 1;
       parenDepth := parenDepth l; bracketDepth := bracketDepth l;
       lastToken := lastToken l |}.

Definition set_lastToken (t : token.Type_) (l : Lexer) : Lexer :=
  {| input := input l; pos := pos l; readPos := readPos l; ch := ch l;
     line := line l; column := column l; parenDepth := parenDepth l;
     bracketDepth := bracketDepth l; lastToken := t |}.
Definition set_parenDepth (d : Z) (l : Lexer) : Lexer :=
  {| input := input l; pos := pos l; readPos := readPos l; ch := ch l;
     line := line l; column := column l; parenDepth := d;
     bracketDepth := bracketDepth l; lastToken := lastToken l |}.
Definition set_bracketDepth (d : Z) (l : Lexer) : Lexer :=
  {| input := input l; pos := pos l; readPos := readPos l; ch := ch l;
     line := line l; column := column l; parenDepth := parenDepth l;
     bracketDepth := d; lastToken := lastToken l |}.

(** [New]: the start counts as a newline boundary. *)
Definition New (input : string) : Lexer :=
  readChar {| input := input; pos := 0; readPos := 0; ch := NUL; line := 1; column := 0;
              parenDepth := 0; bracketDepth := 0; lastToken := token.Newline |}.

Definition makeToken (t : token.Type_) (lit : string) (l : Lexer) : token.Token :=
  {| token.Typ := t; token.Literal := lit;
     token.Pos := {| token.Offset := pos l; token.Line := line l;
                     token.Column := column l |} |}.

Definition finishToken (tok : token.Token) (l : Lexer) : token.Token * Lexer :=
  (tok, set_lastToken (token.Typ tok) l).

(** The loops of the lexer advance with [readChar] and stop at the byte 0
    at the latest; [remaining] bounds their iterations. *)
Definition remaining (l : Lexer) : nat := S (Z.to_nat (inputLen l - readPos l)).

Definition isLetter (c : ascii) : bool :=
  (Ascii.leb "a" c && Ascii.leb c "z") || (Ascii.leb "A" c && Ascii.leb c "Z")
  || Ascii.eqb c "_".

Definition isDigit (c : ascii) : bool := Ascii.leb "0" c && Ascii.leb c "9".

Fixpoint skipWhitespace_loop (fuel : nat) (l : Lexer) : Lexer :=
  match fuel with
  | O => l
  | S fuel' =>
      if Ascii.eqb (ch l) " " || Ascii.eqb (ch l) TAB || Ascii.eqb (ch l) CR
      then skipWhitespace_loop fuel' (readChar l)
      else l
  end.

Definition skipWhitespace (l : Lexer) : Lexer := skipWhitespace_loop (remaining l) l.

Definition newlineEligible (t : token.Type_) : bool :=
  match t with
  | token.Ident | token.Variable_ | token.Number | token.String
  | token.True_ | token.False_ | token.Null
  | token.RParen | token.RBracket | token.RBrace
  | token.Return => true
  | _ => false
  end.

(** [consumeNewline]: the token, if one is emitted, and the lexer past the
    line feed. *)
Definition consumeNewline (l : Lexer) : option token.Token * Lexer :=
  let pos := makeToken token.Newline "" l in
  let l := readChar l in
  if (parenDepth l =? 0)%Z && (bracketDepth l =? 0)%Z && newlineEligible (lastToken l)
  then (Some pos, set_lastToken token.Newline l)
  else (None, l).

Fixpoint skipLineComment_loop (fuel : nat) (l : Lexer) : Lexer :=
  match fuel with
  | O => l
  | S fuel' =>
      if negb (Ascii.eqb (ch l) NUL) && negb (Ascii.eqb (ch l) LF)
      then skipLineComment_loop fuel' (readChar l)
      else l
  end.

Definition skipLineComment (l : Lexer) : Lexer := skipLineComment_loop (remaining l) l.

Fixpoint skipBlockComment_loop (fuel : nat) (l : Lexer) : Lexer :=
  match fuel with
  | O => l
  | S fuel' =>
      if Ascii.eqb (ch l) NUL then l
      else if Ascii.eqb (ch l) "*" && Ascii.eqb (peekChar l) "/"
      then readChar (readChar l)
      else skipBlockComment_loop fuel' (readChar l)
  end.

Definition skipBlockComment (l : Lexer) : Lexer :=
  let l := readChar (readChar l) in
  skipBlockComment_loop (remaining l) l.

(** [string(b)] for a byte [b]: the UTF-8 encoding of the code point. *)
Definition string_of_byte (c : ascii) : string :=
  let n := nat_of_ascii c in
  if (n <? 128)%nat then String.String c EmptyString
  else String.String (ascii_of_nat (192 + n / 64))
         (String.String (ascii_of_nat (128 + n mod 64)) EmptyString).

(** The loop [for isLetter(l.ch) || isDigit(l.ch) { sb.WriteByte(l.ch); l.readChar() }] *)
Fixpoint readWord_loop (fuel : nat) (sb : string) (l : Lexer) : string * Lexer :=
  match fuel with
  | O => (sb, l)
  | S fuel' =>
      if isLetter (ch l) || isDigit (ch l)
      then readWord_loop fuel' (sb ++ String.String (ch l) EmptyString) (readChar l)
      else (sb, l)
  end.

Fixpoint readDigits_loop (fuel : nat) (sb : string) (l : Lexer) : string * Lexer :=
  match fuel with
  | O => (sb, l)
  | S fuel' =>
      if isDigit (ch l)
      then readDigits_loop fuel' (sb ++ String.String (ch l) EmptyString) (readChar l)
      else (sb, l)
  end.

Definition readIdentifier (l : Lexer) : token.Token * Lexer :=
  let start := makeToken token.Ident "" l in
  let '(lit, l) := readWord_loop (remaining l) "" l in
  finishToken {| token.Typ := token.LookupIdent lit; token.Literal := lit;
                 token.Pos := token.Pos start |} l.

Definition readVariable (l : Lexer) : token.Token * Lexer :=
  let start := makeToken token.Variable_ "" l in
  let l := readChar l in
  if negb (isLetter (ch l)) then
    (makeToken token.Illegal "$" l, set_lastToken token.Illegal l)
  else
    let '(lit, l) := readWord_loop (remaining l) "" l in
    finishToken {| token.Typ := token.Variable_; token.Literal := lit;
                   token.Pos := token.Pos start |} l.

Definition readNumber (l : Lexer) : token.Token * Lexer :=
  let start := makeToken token.Number "" l in
  let '(sb, l) := readDigits_loop (remaining l) "" l in
  let '(sb, l) :=
    if Ascii.eqb (ch l) "." && isDigit (peekChar l)
    then readDigits_loop (remaining l) (sb ++ String.String (ch l) EmptyString) (readChar l)
    else (sb, l) in
  finishToken {| token.Typ := token.Number; token.Literal := sb;
                 token.Pos := token.Pos start |} l.

Definition unescape (c : ascii) : ascii :=
  if Ascii.eqb c "n" then LF
  else if Ascii.eqb c "r" then CR
  else if Ascii.eqb c "t" then TAB
  else if Ascii.eqb c "b" then BS
  else if Ascii.eqb c "f" then FF
  else c.

Fixpoint readString_loop (fuel : nat) (start : token.Token) (sb : string) (l : Lexer)
  : token.Token * Lexer :=
  match fuel with
  | O => (makeToken token.Illegal "unterminated string" l, set_lastToken token.Illegal l)
  | S fuel' =>
      let l := readChar l in
      if Ascii.eqb (ch l) NUL then
        (makeToken token.Illegal "unterminated string" l, set_lastToken token.Illegal l)
      else if Ascii.eqb (ch l) QUOTE then
        finishToken {| token.Typ := token.String; token.Literal := sb;
                       token.Pos := token.Pos start |} (readChar l)
      else if Ascii.eqb (ch l) BACKSLASH then
        let l := readChar l in
        readString_loop fuel' start (sb ++ String.String (unescape (ch l)) EmptyString) l
      else readString_loop fuel' start (sb ++ String.String (ch l) EmptyString) l
  end.

Definition readString (l : Lexer) : token.Token * Lexer :=
  readString_loop (remaining l) (makeToken token.String "" l) "" l.

(** A one-byte token: [makeToken], [readChar], [finishToken]. *)
Definition single (t : token.Type_) (l : Lexer) : token.Token * Lexer :=
  let tok := makeToken t (string_of_byte (ch l)) l in
  finishToken tok (readChar l).

(** A two-byte token; the token is made after the first [readChar]. *)
Definition double (t : token.Type_) (l : Lexer) : token.Token * Lexer :=
  let c := ch l in
  let l := readChar l in
  let tok := makeToken t (string_of_byte c ++ string_of_byte (ch l)) l in
  finishToken tok (readChar l).

(** The [switch l.ch] of [NextToken]. *)
Definition lexSymbol (l : Lexer) : token.Token * Lexer :=
  let c := ch l in
  let p := peekChar l in
  if Ascii.eqb c "=" then
    if Ascii.eqb p "=" then double token.Equal l else single token.Assign l
  else if Ascii.eqb c ":" then
    if Ascii.eqb p "=" then double token.Define l else single token.Colon l
  else if Ascii.eqb c "+" then single token.Plus l
  else if Ascii.eqb c "-" then single token.Minus l
  else if Ascii.eqb c "*" then single token.Star l
  else if Ascii.eqb c "/" then single token.Slash l
  else if Ascii.eqb c "!" then
    if Ascii.eqb p "=" then double token.NotEqual l else single token.Bang l
  else if Ascii.eqb c "<" then
    if Ascii.eqb p "=" then double token.LessEqual l else single token.Less l
  else if Ascii.eqb c ">" then
    if Ascii.eqb p "=" then double token.GreaterEqual l else single token.Greater l
  else if Ascii.eqb c "&" then
    if Ascii.eqb p "&" then double token.AndAnd l else single token.Illegal l
  else if Ascii.eqb c "|" then
    if Ascii.eqb p "|" then double token.OrOr l else single token.Illegal l
  else if Ascii.eqb c "." then
    if Ascii.eqb p "." then double token.Range l else single token.Dot l
  else if Ascii.eqb c "," then single token.Comma l
  else if Ascii.eqb c "(" then
    let tok := makeToken token.LParen (string_of_byte c) l in
    let l := readChar l in
    finishToken tok (set_parenDepth (parenDepth l + 1) l)
  else if Ascii.eqb c ")" then
    let tok := makeToken token.RParen (string_of_byte c) l in
    let l := readChar l in
    finishToken tok (if (0 <? parenDepth l)%Z then set_parenDepth (parenDepth l - 1) l else l)
  else if Ascii.eqb c "[" then
    let tok := makeToken token.LBracket (string_of_byte c) l in
    let l := readChar l in
    finishToken tok (set_bracketDepth (bracketDepth l + 1) l)
  else if Ascii.eqb c "]" then
    let tok := makeToken token.RBracket (string_of_byte c) l in
    let l := readChar l in
    finishToken tok (if (0 <? bracketDepth l)%Z then set_bracketDepth (bracketDepth l - 1) l else l)
  else if Ascii.eqb c "{" then single token.LBrace l
  else if Ascii.eqb c "}" then single token.RBrace l
  else if Ascii.eqb c QUOTE then readString l
  else if Ascii.eqb c "$" then readVariable l
  else if isLetter c then readIdentifier l
  else if isDigit c then readNumber l
  else single token.Illegal l.

(** [NextToken]: the loop [for { ... }] runs again after a suppressed
    newline and after a comment.  [None]: the fuel did not suffice. *)
Fixpoint NextToken_loop (fuel : nat) (l : Lexer) : option (token.Token * Lexer) :=
  match fuel with
  | O => None
  | S fuel' =>
      let l := skipWhitespace l in
      if Ascii.eqb (ch l) LF then
        match consumeNewline l with
        | (Some tok, l') => Some (tok, l')
        | (None, l') => NextToken_loop fuel' l'
        end
      else if Ascii.eqb (ch l) NUL then Some (makeToken token.EOF "" l, l)
      else if Ascii.eqb (ch l) "/" && Ascii.eqb (peekChar l) "/"
      then NextToken_loop fuel' (skipLineComment l)
      else if Ascii.eqb (ch l) "/" && Ascii.eqb (peekChar l) "*"
      then NextToken_loop fuel' (skipBlockComment l)
      else Some (lexSymbol l)
  end.

Definition NextToken (l : Lexer) : option (token.Token * Lexer) :=
  NextToken_loop (S (remaining l)) l.

(** The caller's loop: tokens up to and including the first [EOF]. *)
Fixpoint tokens_loop (fuel : nat) (l : Lexer) : list token.Token :=
  match fuel with
  | O => []
  | S fuel' =>
      match NextToken l with
      | None => []
      | Some (tok, l') =>
          match token.Typ tok with
          | token.EOF => [tok]
          | _ => tok :: tokens_loop fuel' l'
          end
      end
  end.

Definition tokens (src : string) : list token.Token :=
  tokens_loop (S (S (String.length src))) (New src).

End lexer.

(** ** A concrete host

    The closed examples below run the compiler and the machine in a
    process that registers no builtin plugin and binds no native function.
    [strconv.ParseFloat] is given for the literals the lexer produces
    (digits, optionally a point and more digits); [append] doubles the
    capacity of a full slice. *)

Module host.

Fixpoint digits_value (s : string) (acc : Z) : option Z :=
  match s with
  | EmptyString => Some acc
  | String.String c r =>
      if lexer.isDigit c
      then digits_value r (acc * 10 + (Z.of_nat (nat_of_ascii c) - 48))
      else None
  end.

Fixpoint split_point (s : string) (acc : string) : string * option string :=
  match s with
  | EmptyString => (acc, None)
  | String.String c r =>
      if Ascii.eqb c "."%char then (acc, Some r)
      else split_point r (acc ++ String.String c EmptyString)
  end.

Definition ParseFloat (s : string) : option float64.t :=
  match split_point s "" with
  | (ip, None) =>
      if String.eqb ip "" then None
      else option_map float64.of_int (digits_value ip 0)
  | (ip, Some fp) =>
      if String.eqb ip "" || String.eqb fp "" then None
      else match digits_value (ip ++ fp) 0 with
           | None => None
           | Some 0 => Some float64.zero
           | Some (Z.pos m) =>
               Some (float64.div (S754_finite false m 0)
                       (S754_finite false (Z.to_pos (10 ^ Z.of_nat (String.length fp))) 0))
           | Some (Z.neg _) => None
           end
  end.

Definition quote (s : string) : string :=
  String.String lexer.QUOTE s ++ String.String lexer.QUOTE EmptyString.

Definition LookupByName (name : string) : option (Z * Z) := None.

Definition growcap (n : nat) : nat := (2 * n)%nat.

Definition format_g (f : float64.t) : string := "".

(** Two of the orders [range] may take over a map: always the first of
    the remaining keys, or always the second (when there is one). *)
Definition range_first (seed k : nat) : nat := 0%nat.
Definition range_second (seed k : nat) : nat := 1%nat.

Definition native_call (h : nat) (args : list vm.Value) (st : vm.Store)
  : (vm.Value * option vm.GoError) * vm.Store := ((vm.Null, None), st).

Definition builtinRegistry (op : Z) : option vm.builtinEntry := None.

Definition Compile (prog : list ast.Statement) (source : string) : res bytecode.Module_ :=
  compiler.Compile ParseFloat quote LookupByName prog source.

Definition step : vm.M unit :=
  vm.step growcap format_g range_first native_call builtinRegistry.

Definition Call (fuel : nat) (name : string) (args : list vm.Value) (m : vm.VM)
  : option vm.Outcome :=
  vm.Call growcap format_g range_first native_call builtinRegistry fuel name args m.

(** Load a source into a new machine and call one of its functions, as
    the tests of the repository do. *)
Definition load_and_call (limit : Z) (prog : list ast.Statement) (fuel : nat)
  (name : string) (args : list vm.Value) : option vm.Outcome :=
  match Compile prog "test" with
  | Fail _ => None
  | Ok md => Call fuel name args (vm.SetInstructionLimit limit (vm.LoadModule (Some md) vm.New))
  end.

(** The machine as it enters the loop of [Run] for a call of [name], and
    after [k] more iterations of the loop. *)
Definition enter (limit : Z) (prog : list ast.Statement) (name : string)
  (args : list vm.Value) : option vm.VM :=
  match Compile prog "test" with
  | Fail _ => None
  | Ok md =>
      let m := vm.SetInstructionLimit limit (vm.LoadModule (Some md) vm.New) in
      match vm.globals m !! name with
      | None => None
      | Some v =>
          match vm.Run_enter native_call (vm.Func v) args m with
          | inl (_, m') => Some m'
          | inr _ => None
          end
      end
  end.

Fixpoint steps (k : nat) (m : vm.VM) : option vm.VM :=
  match k with
  | O => Some m
  | S k' =>
      match step m with
      | inl (_, m') => steps k' m'
      | inr _ => None
      end
  end.

End host.

(** ** Programs used in the examples

    The parser is not part of this development: the programs are given as
    the trees the parser delivers for the quoted source, all on line 1. *)

Module examples.

Definition at1 (col : Z) : token.Position :=
  {| token.Offset := col - 1; token.Line := 1; token.Column := col |}.

(** [func spin(){while(true){}}] *)
Definition spin : list ast.Statement :=
  [ast.FuncDecl "spin" []
     [ast.WhileStmt (ast.BoolLiteral true (at1 19)) [] (at1 13)] (at1 1)].

(** [func f(){return 1 || 2}] *)
Definition or_one_two : list ast.Statement :=
  [ast.FuncDecl "f" []
     [ast.ReturnStmt
        (Some (ast.BinaryExpr (ast.NumberLiteral "1" (at1 17)) token.OrOr
                 (ast.NumberLiteral "2" (at1 22)) (at1 19))) (at1 10)] (at1 1)].

(** [func f(){return false && true}] *)
Definition and_false_true : list ast.Statement :=
  [ast.FuncDecl "f" []
     [ast.ReturnStmt
        (Some (ast.BinaryExpr (ast.BoolLiteral false (at1 17)) token.AndAnd
                 (ast.BoolLiteral true (at1 26)) (at1 23))) (at1 10)] (at1 1)].

(** [func f(){$a := [1]; return $a == $a}] with the two statements on one
    line each in the source; the tree is the same. *)
Definition same_array : list ast.Statement :=
  [ast.FuncDecl "f" []
     [ast.ExprStmt
        (ast.AssignExpr (ast.Variable_ "a" (at1 10))
           (ast.ArrayLiteral [ast.NumberLiteral "1" (at1 17)] (at1 16))
           token.Define (at1 13)) (at1 10);
      ast.ReturnStmt
        (Some (ast.BinaryExpr (ast.Variable_ "a" (at1 27)) token.Equal
                 (ast.Variable_ "a" (at1 33)) (at1 30))) (at1 20)] (at1 1)].

(** [func f(){} func f(){return 1}] *)
Definition twice_f : list ast.Statement :=
  [ast.FuncDecl "f" [] [] (at1 1);
   ast.FuncDecl "f" []
     [ast.ReturnStmt (Some (ast.NumberLiteral "1" (at1 28))) (at1 21)] (at1 12)].

(** [func bad(){$x := 1; return [func(){return $x}, -"s"]}] *)
Definition bad : list ast.Statement :=
  [ast.FuncDecl "bad" []
     [ast.ExprStmt
        (ast.AssignExpr (ast.Variable_ "x" (at1 12)) (ast.NumberLiteral "1" (at1 18))
           token.Define (at1 15)) (at1 12);
      ast.ReturnStmt
        (Some (ast.ArrayLiteral
                 [ast.FuncExpr []
                    [ast.ReturnStmt (Some (ast.Variable_ "x" (at1 43))) (at1 36)] (at1 29);
                  ast.UnaryExpr token.Minus (ast.StringLiteral "s" (at1 49)) (at1 48)]
                 (at1 28))) (at1 21)] (at1 1)].

(** [func add($a,$b){return $a+$b}] *)
Definition add : list ast.Statement :=
  [ast.FuncDecl "add"
     [{| ast.PName := "a"; ast.PPos := at1 10 |}; {| ast.PName := "b"; ast.PPos := at1 13 |}]
     [ast.ReturnStmt
        (Some (ast.BinaryExpr (ast.Variable_ "a" (at1 24)) token.Plus
                 (ast.Variable_ "b" (at1 27)) (at1 26))) (at1 17)] (at1 1)].

(** [func g(){$x = 5}] *)
Definition assign_global : list ast.Statement :=
  [ast.FuncDecl "g" []
     [ast.ExprStmt
        (ast.AssignExpr (ast.Variable_ "x" (at1 10)) (ast.NumberLiteral "5" (at1 15))
           token.Assign (at1 13)) (at1 10)] (at1 1)].

(** The machine running [g] above, about to run its [OP_SET_GLOBAL]: one
    instruction after the entry. *)
Definition before_set_global : vm.VM :=
  match host.enter 0 assign_global "g" [] with
  | Some m => default vm.New (host.steps 1 m)
  | None => vm.New
  end.

End examples.

(** ** The inclusive sequence of a range, in the words of the language
    description: from [a] to [b], stepping by +1 when [a <= b] and by -1
    otherwise. *)

Module spec.

Definition inclusive (a b : Z) : list Z :=
  if a <=? b
  then map (fun k => a + Z.of_nat k) (seq 0 (S (Z.to_nat (b - a))))
  else map (fun k => a - Z.of_nat k) (seq 0 (S (Z.to_nat (a - b)))).

(** A [float64] holds the integer [i] of Go's [int]: the conversion to
    [int] gives [i] and converting back compares equal. *)
Definition holds_int (f : float64.t) (i : Z) : Prop :=
  float64.to_int f = i /\ float64.eqb (float64.of_int i) f = true.

(** A [float64] is integer-valued: it is a zero, or a finite [m * 2^e] that
    has no fractional part. *)
Definition integer_valued (f : float64.t) : bool :=
  match f with
  | S754_zero _ => true
  | S754_finite _ m e => (0 <=? e) || (Z.pos m mod 2 ^ (- e) =? 0)
  | S754_infinity _ | S754_nan => false
  end.

End spec.

(** ** The builtin plugins (internal/runtime, internal/builtins)

    A handler works on the machine through the exported [Pop] and [Push]
    and answers with a value and an optional error. *)

Module builtins.

(** [vm.RuntimeErrorf(rt, ...)] for a machine that is not nil: the frame
    is the running frame when there is one. *)
Definition RuntimeErrorf (m : vm.VM) (msg : string) : vm.Value * option vm.GoError :=
  let fr := match vm.frames m with
            | [] => None
            | _ :: _ => vm.cur
            end in
  let err := vm.newRuntimeError m fr (vm.offsetForFrame (vm.deref m fr)) msg None in
  (vm.ErrorVal (vm.Error err), Some err).

(** What [runBuiltin] sees of a handler: its answer, the stack and the
    store it leaves. *)
Definition handler_of (h : vm.M (vm.Value * option vm.GoError)) (m : vm.VM)
  : (vm.Value * option vm.GoError) * (list vm.Value * nat) * vm.Store :=
  match h m with
  | inl (r, m') => (r, (vm.stack_buf m', vm.stack_len m'), vm.store m')
  | inr _ => ((vm.zeroValue, None), (vm.stack_buf m, vm.stack_len m), vm.store m)
  end.

Definition done : vm.M (vm.Value * option vm.GoError) := ret (vm.zeroValue, None).

Section Handlers.

Variable growcap : nat -> nat.
Variable format_g : float64.t -> string.

Definition runTypeof : vm.M (vm.Value * option vm.GoError) :=
  v <- vm.pop ;;
  vm.push growcap (vm.String (vm.typeName v)) ;;;
  done.

Definition runError : vm.M (vm.Value * option vm.GoError) :=
  v <- vm.pop ;;
  match vm.VKind v with
  | vm.KindString => vm.push growcap (vm.ErrorVal (vm.Str v)) ;;; done
  | _ => m <- vm.get_vm ;; ret (RuntimeErrorf m "error expects string")
  end.

Definition runIndexExist : vm.M (vm.Value * option vm.GoError) :=
  index <- vm.pop ;;
  target <- vm.pop ;;
  m <- vm.get_vm ;;
  vm.push growcap (vm.Bool (vm.indexExists format_g (vm.store m) target index)) ;;;
  done.

Definition runIndexRead : vm.M (vm.Value * option vm.GoError) :=
  def <- vm.pop ;;
  index <- vm.pop ;;
  target <- vm.pop ;;
  m <- vm.get_vm ;;
  match vm.indexGet format_g (vm.store m) target index with
  | Fail _ => vm.push growcap def ;;; done
  | Ok val => vm.push growcap val ;;; done
  end.

Definition runValueExist : vm.M (vm.Value * option vm.GoError) :=
  val <- vm.pop ;;
  arr <- vm.pop ;;
  m <- vm.get_vm ;;
  vm.push growcap (vm.Bool (vm.valueExists (vm.store m) arr val)) ;;;
  done.

Definition runReadonly : vm.M (vm.Value * option vm.GoError) :=
  v <- vm.pop ;;
  vm.push growcap (vm.Bool (vm.ReadOnly v)) ;;;
  done.

(** The [runtime.Spec]s that the [init] functions of the plugins
    register: name, opcode, arity, handler. *)
Definition specs : list vm.builtinEntry :=
  [ {| vm.name := "typeof"; vm.opcode := 128; vm.arity := 1;
       vm.handler := handler_of runTypeof |};
    {| vm.name := "error"; vm.opcode := 129; vm.arity := 1;
       vm.handler := handler_of runError |};
    {| vm.name := "indexExist"; vm.opcode := 130; vm.arity := 2;
       vm.handler := handler_of runIndexExist |};
    {| vm.name := "indexRead"; vm.opcode := 131; vm.arity := 3;
       vm.handler := handler_of runIndexRead |};
    {| vm.name := "valueExist"; vm.opcode := 132; vm.arity := 2;
       vm.handler := handler_of runValueExist |};
    {| vm.name := "readonly"; vm.opcode := 133; vm.arity := 1;
       vm.handler := handler_of runReadonly |} ].

(** [runtime.LookupByName], as the compiler uses it, and the registry of
    the machine, [lookupBuiltin]. *)
Definition LookupByName (name : string) : option (Z * Z) :=
  option_map (fun e => (vm.opcode e, vm.arity e))
    (find (fun e => String.eqb (vm.name e) name) specs).

Definition registry (op : Z) : option vm.builtinEntry :=
  find (fun e => vm.opcode e =? op) specs.

End Handlers.

End builtins.

(** ** Notions used in the statements *)

Module props.

(** The two operands of a binary instruction on top of the stack: [e] on
    top, [s] below it, [n] values underneath. *)
Definition operands (m : vm.VM) (s e : vm.Value) (n : nat) : Prop :=
  vm.stack_len m = S (S n) /\ vm.stack_buf m !! S n = Some e /\ vm.stack_buf m !! n = Some s.

(** The test of [expectIndex] for "the number is an integer". *)
Definition is_int (v : vm.Value) : bool :=
  float64.eqb (float64.of_int (float64.to_int (vm.Num v))) (vm.Num v).

(** A machine with the numbers 3 and 0 on its stack. *)
Definition three_zero : vm.VM :=
  vm.set_stack [vm.Number (float64.of_int 3); vm.Number (float64.of_int 0)] 2%nat vm.New.

(** The number [1e19], the integer [10^19]: it is above the largest [int]. *)
Definition ten_to_19 : float64.t := S754_finite false 4882812500000000 11.

(** A machine with the numbers 0 and [1e19] on its stack. *)
Definition zero_big : vm.VM :=
  vm.set_stack [vm.Number (float64.of_int 0); vm.Number ten_to_19] 2%nat vm.New.

(** The object [{a: 1, b: 2}] in an otherwise empty store, at reference 0. *)
Definition ab_store : vm.Store :=
  snd (vm.allocObject (<["a"%string := vm.Number (float64.of_int 1)]>
                         (<["b"%string := vm.Number (float64.of_int 2)]> ∅)) vm.emptyStore).

(** The key list an object iterator captures when it is made. *)
Definition captured_keys (choice : nat -> nat -> nat) (st : vm.Store) (obj : option nat)
  : list string :=
  let '(p, st') := vm.NewObjectIterator choice obj st in
  match vm.iterators st' !! p with
  | Some it => vm.keys it
  | None => []
  end.

(** The last top-level declaration of a function called [name]. *)
Fixpoint last_decl (name : string) (prog : list ast.Statement)
  : option (list ast.Param * list ast.Statement) :=
  match prog with
  | [] => None
  | stmt :: rest =>
      match last_decl name rest with
      | Some d => Some d
      | None =>
          match stmt with
          | ast.FuncDecl n ps body _ => if String.eqb n name then Some (ps, body) else None
          | _ => None
          end
      end
  end.

(** A top-level statement that [Compile] accepts: a function declaration
    whose body compiles. *)
Definition compiles (ParseFloat : string -> option float64.t) (quote : string -> string)
  (LookupByName : string -> option (Z * Z)) (source : string) (s : ast.Statement) : Prop :=
  match s with
  | ast.FuncDecl name ps body _ =>
      exists p, compiler.compileFunction ParseFloat quote LookupByName source name ps body = Ok p
  | _ => False
  end.

(** The condition under which [consumeNewline] emits a token. *)
Definition newline_cond (l : lexer.Lexer) : bool :=
  (lexer.parenDepth l =? 0) && (lexer.bracketDepth l =? 0)
  && lexer.newlineEligible (lexer.lastToken l).

(** How much input the lexer still has to look at: nothing once the
    current byte is 0, else the current byte and what follows. *)
Definition mu (l : lexer.Lexer) : nat :=
  if Ascii.eqb (lexer.ch l) lexer.NUL then 0%nat
  else S (Z.to_nat (lexer.inputLen l - lexer.readPos l)).

(** The lexer remembers the type of the token it hands out. *)
Definition emits_last (r : token.Token * lexer.Lexer) : Prop :=
  lexer.lastToken (snd r) = token.Typ (fst r).

(** The source [a], line feed, line feed; and the lexer after the [a]. *)
Definition a_lf_lf : string :=
  String.String "a" (String.String lexer.LF (String.String lexer.LF EmptyString)).

Definition after_a : lexer.Lexer :=
  match lexer.NextToken (lexer.New a_lf_lf) with
  | Some (_, l) => l
  | None => lexer.New a_lf_lf
  end.

(** The machine of [examples.before_set_global] with the opcode read. *)
Definition at_set_global_operand : vm.VM :=
  match vm.updFrame (vm.set_ip 4) examples.before_set_global with
  | inl (_, m) => m
  | inr _ => vm.New
  end.

(** *** Reasoning about the machine monad *)

(** [hoare P c Q E]: run from a machine that satisfies [P], the computation
    [c] either goes on with a result and a machine that satisfy [Q], or
    leaves [Run] with an outcome that satisfies [E]. *)
Definition hoare {A} (P : vm.VM -> Prop) (c : vm.M A) (Q : A -> vm.VM -> Prop)
  (E : vm.Outcome -> Prop) : Prop :=
  forall m, P m -> match c m with
                   | inl (a, m') => Q a m'
                   | inr o => E o
                   end.

(** [c] keeps the invariant [J], and leaves only with outcomes in [E]. *)
Definition inv {A} (J : vm.VM -> Prop) (E : vm.Outcome -> Prop) (c : vm.M A) : Prop :=
  hoare J c (fun _ => J) E.

(** *** The turns of the loop of [Run] *)

Section Turns.

Variable growcap : nat -> nat.
Variable format_g : float64.t -> string.
Variable map_range_choice : nat -> nat -> nat.
Variable native_call : nat -> list vm.Value -> vm.Store -> (vm.Value * option vm.GoError) * vm.Store.
Variable builtinRegistry : Z -> option vm.builtinEntry.

(** The machine after [k] turns of the loop, none of which ends the run. *)
Fixpoint turns (k : nat) (m : vm.VM) : option vm.VM :=
  match k with
  | O => Some m
  | S k' =>
      match vm.step growcap format_g map_range_choice native_call builtinRegistry m with
      | inl (_, m') => turns k' m'
      | inr _ => None
      end
  end.

(** Does the next turn dispatch an instruction: is there a frame whose
    [ip] points into its code? *)
Definition dispatching (m : vm.VM) : bool :=
  match vm.frames m with
  | [] => false
  | fr :: _ => bool_decide (is_Some (vm.codeAt fr (vm.ip fr)))
  end.

(** How many of the first [k] turns dispatch an instruction. *)
Fixpoint dispatched (k : nat) (m : vm.VM) : Z :=
  match k with
  | O => 0
  | S k' =>
      match vm.step growcap format_g map_range_choice native_call builtinRegistry m with
      | inl (_, m') => (if dispatching m then 1 else 0) + dispatched k' m'
      | inr _ => 0
      end
  end.

(** What a turn does with the opcode it has read, after its bookkeeping. *)
Definition dispatch (op : Z) : vm.M unit :=
  match vm.lookupBuiltin builtinRegistry op with
  | Some entry => vm.runBuiltin entry
  | None =>
      match bytecode.switch_case op with
      | Some o => vm.exec growcap format_g map_range_choice native_call o
      | None => vm.errorf vm.cur ("unknown opcode " ++ goint.FormatInt op)
      end
  end.

End Turns.

(** The bookkeeping of a turn that dispatches: [lastOp] and [ip] of the
    frame, and the instruction counter. *)
Definition counted (m : vm.VM) : vm.VM :=
  match vm.frames m with
  | [] => m
  | fr :: rest =>
      vm.set_instCount (goint.wrap64 (vm.instCount m + 1))
        (vm.set_frames (vm.set_ip (vm.ip fr + 1) (vm.set_lastOp (vm.ip fr) fr) :: rest) m)
  end.

(** The counter and the limit of the machine are [c] and [L]. *)
Definition counts (L c : Z) (m : vm.VM) : Prop :=
  vm.instLimit m = L /\ vm.instCount m = c.

(** The machine that runs [examples.spin] under the limit 50, as it enters
    the loop of [Run], and after 50 turns of the loop. *)
Definition spin_limited : vm.VM := default vm.New (host.enter 50 examples.spin "spin" []).

Definition spin_at_limit : vm.VM := default vm.New (host.steps 50 spin_limited).


(** *** Upvalue cells *)

(** Every cell of the open list was handed out by the allocator. *)
Definition open_allocated (m : vm.VM) : Prop :=
  Forall (fun p => (p < vm.nextCell m)%nat) (vm.openUpvalues m).

(** The slot a cell points at exists: its array is allocated and the
    index is within it.  A closed cell points at no slot. *)
Definition slot_valid (m : vm.VM) (p : nat) : Prop :=
  match vm.location_of m p with
  | Some slot => (slot.2 < length (default [] (vm.localsMem m !! slot.1)))%nat
  | None => True
  end.

(** A machine on which [slot] has been captured: a frame whose locals
    array, at address 0, holds three values. *)
Definition with_locals : vm.VM :=
  vm.set_nextCell 1 (vm.set_localsMem (<[0%nat := repeat vm.zeroValue 3]> ∅) vm.New).

Definition captured : nat * vm.VM :=
  match vm.captureUpvalue (0%nat, 1%nat) with_locals with
  | inl r => r
  | inr _ => (0%nat, with_locals)
  end.

(** Every cell of the machine was handed out by the allocator. *)
Definition cells_allocated (m : vm.VM) : Prop :=
  map_Forall (fun p _ => (p < vm.nextCell m)%nat) (vm.upvalues m).

(** The cell at [p] exists and is closed. *)
Definition is_closed (m : vm.VM) (p : nat) : bool :=
  match vm.upvalues m !! p with
  | Some c => bool_decide (vm.location c = None)
  | None => false
  end.

(** The machine that [closeUpvalues] leaves. *)
Definition closeUpvalues_of (la : nat) (m : vm.VM) : vm.VM :=
  match vm.closeUpvalues la m with
  | inl (_, m') => m'
  | inr _ => m
  end.

(** The cells of [C] are closed, in a machine whose cells are allocated;
    and the same of the machine an outcome carries. *)
Definition closed_in (C : nat -> Prop) (m : vm.VM) : Prop :=
  cells_allocated m /\ forall p, C p -> is_closed m p = true.

Definition closed_after (C : nat -> Prop) (o : vm.Outcome) : Prop :=
  match o with
  | vm.Done _ m | vm.Failed _ _ m => closed_in C m
  | vm.Panic _ => True
  end.

(** The machine [captured] with its cell closed. *)
Definition captured_closed : vm.VM := vm.upvalue_close captured.1 captured.2.


(** *** What [Run] keeps between the turns of its loop *)

(** The cell [p] is open and points into the locals of one of the frames. *)
Definition points_into_frame (m : vm.VM) (p : nat) : Prop :=
  exists a i, vm.location_of m p = Some (a, i)
              /\ a ∈ map vm.locals (vm.frames m)
              /\ (i < length (default [] (vm.localsMem m !! a)))%nat.

(** The outermost frame starts at the bottom of the stack, the locals of
    the frames were handed out by the allocator, and the open list holds,
    once each, cells that were handed out by the allocator and point into
    the locals of a frame. *)
Definition frames_ok (m : vm.VM) : Prop :=
  (exists fr, last (vm.frames m) = Some fr /\ vm.base fr = 0%nat)
  /\ Forall (fun fr => (vm.locals fr < vm.nextCell m)%nat) (vm.frames m)
  /\ NoDup (vm.openUpvalues m)
  /\ open_allocated m
  /\ Forall (points_into_frame m) (vm.openUpvalues m).

(** A run that returned left nothing on the stack and no open cell. *)
Definition settled (o : vm.Outcome) : Prop :=
  match o with
  | vm.Done _ m => vm.stack_len m = 0%nat /\ vm.openUpvalues m = []
  | _ => True
  end.

(** Every cell from [n0] on that is not closed is on the list of open
    cells; and the same of the machine a returned run leaves. *)
Definition tracked (n0 : nat) (m : vm.VM) : Prop :=
  forall p, (n0 <= p)%nat -> vm.location_of m p = None \/ p ∈ vm.openUpvalues m.

Definition tracked_after (n0 : nat) (o : vm.Outcome) : Prop :=
  match o with
  | vm.Done _ m => tracked n0 m
  | _ => True
  end.

(** [func mk(){$x := 1; return func(){return $x}}]: the function returns
    a closure over its local variable.  The machine that has loaded it,
    the function as [Call] finds it, and what [Run] leaves. *)
Definition make_closure : list ast.Statement :=
  [ast.FuncDecl "mk" []
     [ast.ExprStmt
        (ast.AssignExpr (ast.Variable_ "x" (examples.at1 11))
           (ast.NumberLiteral "1" (examples.at1 17)) token.Define (examples.at1 14))
        (examples.at1 11);
      ast.ReturnStmt
        (Some (ast.FuncExpr []
                 [ast.ReturnStmt (Some (ast.Variable_ "x" (examples.at1 41)))
                    (examples.at1 34)] (examples.at1 27))) (examples.at1 20)]
     (examples.at1 1)].

Definition closure_machine : vm.VM :=
  match host.Compile make_closure "test" with
  | Ok md => vm.LoadModule (Some md) vm.New
  | Fail _ => vm.New
  end.

Definition closure_fn : option vm.Function :=
  match vm.globals closure_machine !! "mk"%string with
  | Some v => vm.Func v
  | None => None
  end.

Definition closure_result : vm.Value * vm.VM :=
  match vm.Run host.growcap host.format_g host.range_first host.native_call
          host.builtinRegistry 100 closure_fn [] closure_machine with
  | Some (vm.Done v m) => (v, m)
  | _ => (vm.Null, vm.New)
  end.

(** The same machine as it enters the loop of [Run], and two turns later. *)
Definition closure_entered : vm.VM :=
  match vm.Run_enter host.native_call closure_fn [] closure_machine with
  | inl (_, m) => m
  | inr _ => vm.New
  end.

Definition closure_turned : vm.VM :=
  default vm.New
    (turns host.growcap host.format_g host.range_first host.native_call
       host.builtinRegistry 2 closure_entered).

(** The call stack of the machine is no deeper than [F], its bound. *)
Definition depth_within (F : Z) (m : vm.VM) : Prop :=
  vm.maxFrames m = F /\ vm.zlen (vm.frames m) <= F.

Definition depth_after (F : Z) (o : vm.Outcome) : Prop :=
  match o with
  | vm.Done _ m | vm.Failed _ _ m => vm.maxFrames m = F /\ vm.zlen (vm.frames m) <= Z.max 0 F
  | vm.Panic _ => True
  end.



(** *** The operand stack *)

(** The operand stack as a list, bottom first: the slice [vm.stack]. *)
Definition stack_of (m : vm.VM) : list vm.Value := take (vm.stack_len m) (vm.stack_buf m).

(** The length of the slice is within its capacity. *)
Definition stack_fits (m : vm.VM) : Prop := (vm.stack_len m <= length (vm.stack_buf m))%nat.

(** A store with the array of two nulls at reference 0, and the store
    after [true] has been stored at its index 1. *)
Definition pair_store : vm.Store := (vm.allocArray [vm.Null; vm.Null] vm.emptyStore).2.

Definition pair_set : vm.Store :=
  match vm.indexSet host.format_g pair_store (vm.Array (Some 0%nat))
          (vm.Number (float64.of_int 1)) (vm.Bool true) with
  | Ok st => st
  | Fail _ => pair_store
  end.

(** A machine over [pair_store] with the operands of
    [indexRead(array, 5, true)] on its stack. *)
Definition read_operands : vm.VM :=
  vm.set_store pair_store
    (vm.set_stack [vm.Array (Some 0%nat); vm.Number (float64.of_int 5); vm.Bool true] 3 vm.New).

(** The kinds whose values are references. *)
Definition is_reference (k : vm.Kind) : bool :=
  match k with
  | vm.KindArray | vm.KindObject | vm.KindFunction | vm.KindIterator => true
  | _ => false
  end.


(** *** Iterating to exhaustion *)

(** The loop of [for ... in]: [Next] is called until it answers [false]
    (at most [fuel] times); the pairs it has yielded, and the store. *)
Fixpoint drain (fuel : nat) (p : nat) (st : vm.Store) : list (string * vm.Value) * vm.Store :=
  match fuel with
  | O => ([], st)
  | S fuel' =>
      match vm.Iterator_Next p st with
      | ((k, v, true), st') =>
          let '(rest, st'') := drain fuel' p st' in ((k, v) :: rest, st'')
      | ((_, _, false), st') => ([], st')
      end
  end.

(** The answer of an exhausted iterator. *)
Definition exhausted (p : nat) (st : vm.Store) : Prop :=
  vm.Iterator_Next p st = (("", vm.zeroValue, false), st).


(** *** Declaring locals *)

(** The scope after the names have been declared, one [addLocal] each. *)
Definition declare (names : list string) (s : compiler.scope) : compiler.scope :=
  foldl (fun s name => (compiler.scope_addLocal name s).2) s names.

End props.

(** * Properties *)

(** ** Equality of values *)

Section Equality.

Lemma Kind_eqb_refl k : vm.Kind_eqb k k = true.
Proof. destruct k; reflexivity. Qed.

(** C3: [Equal] compares arrays, objects, functions and iterators through
    the addresses of its own two parameters, which always differ: a value
    of one of these kinds is not equal even to itself, whereas the claim
    (and the identity comparison the code attempts) wants [true] for the
    very same reference. *)
Theorem Equal_reference_kind_never_equal (v : vm.Value) :
  vm.VKind v = vm.KindArray \/ vm.VKind v = vm.KindObject \/
  vm.VKind v = vm.KindFunction \/ vm.VKind v = vm.KindIterator ->
  vm.Equal v v = false.
Proof.
  intros H. unfold vm.Equal. rewrite Kind_eqb_refl. simpl.
  destruct H as [H | [H | [H | H]]]; rewrite H; reflexivity.
Qed.

Lemma Equal_reference_kind_never_equal_witness :
  vm.Equal (vm.Array (Some 0%nat)) (vm.Array (Some 0%nat)) = false.
Proof. apply Equal_reference_kind_never_equal. left. reflexivity. Defined.

(** The same on a whole program: [$a == $a] for an array [$a] is [false]. *)
Lemma same_array_returns_false :
  exists m, host.load_and_call 0 examples.same_array 100 "f" [] = Some (vm.Done (vm.Bool false) m).
Proof. eexists. vm_compute. reflexivity. Qed.

End Equality.

(** ** Tools: running the monad by rewriting *)

Lemma bind_inl {S E A B} (x : SE S E A) (k : A -> SE S E B) s a s' :
  x s = inl (a, s') -> bind x k s = k a s'.
Proof. unfold bind. intros ->. reflexivity. Qed.

Lemma bind_inr {S E A B} (x : SE S E A) (k : A -> SE S E B) s e :
  x s = inr e -> bind x k s = inr e.
Proof. unfold bind. intros ->. reflexivity. Qed.


(** ** Range literals *)

Lemma wrap64_id z : goint.in_int64 z = true -> goint.wrap64 z = z.
Proof.
  unfold goint.in_int64, goint.wrap64, goint.minInt64, goint.maxInt64.
  intros H. apply andb_true_iff in H as [H1 H2].
  apply Z.leb_le in H1, H2.
  rewrite Z.mod_small; lia.
Qed.

Lemma to_int_in_int64 f : goint.in_int64 (float64.to_int f) = true.
Proof.
  unfold float64.to_int. destruct f; try reflexivity.
  match goal with |- context [if goint.in_int64 ?v then _ else _] => destruct (goint.in_int64 v) eqn:E end.
  - exact E.
  - reflexivity.
Qed.

Definition rng (i step : Z) (n : nat) : list vm.Value :=
  map (fun k => vm.Number (float64.of_int (i + step * Z.of_nat k))) (seq 0 (S n)).

Lemma slice_fits_le n k : k <= n -> vm.slice_fits n = true -> vm.slice_fits k = true.
Proof. unfold vm.slice_fits, vm.sizeofValue. rewrite !Z.leb_le. lia. Qed.

Lemma in_int64_step i step n :
  step = 1 \/ step = -1 ->
  goint.in_int64 i = true -> goint.in_int64 (i + step * Z.of_nat (S n)) = true ->
  goint.in_int64 (i + step) = true.
Proof.
  unfold goint.in_int64, goint.minInt64, goint.maxInt64.
  intros Hs Hi He.
  apply andb_true_iff in Hi as [? ?]. apply andb_true_iff in He as [? ?].
  apply andb_true_iff. rewrite !Z.leb_le in *. lia.
Qed.

Lemma rng_S i step n :
  vm.Number (float64.of_int i) :: rng (i + step) step n = rng i step (S n).
Proof.
  unfold rng.
  change (seq 0 (S (S n))) with (0%nat :: seq 1 (S n)).
  rewrite <- seq_shift. cbn [map]. rewrite map_map.
  change (Z.of_nat 0) with 0. replace (i + step * 0) with i by lia.
  f_equal. apply map_ext. intros k. do 2 f_equal. lia.
Qed.

(** The fuel suffices: within [n + 1] turns the loop has reached a bound
    [n] steps away, unless an append was refused before. *)
Lemma buildRange_loop_ends n :
  forall fuel i step cap out,
    (n < fuel)%nat -> step = 1 \/ step = -1 ->
    goint.in_int64 i = true -> goint.in_int64 (i + step * Z.of_nat n) = true ->
    vm.buildRange_loop fuel i step (i + step * Z.of_nat n) cap out = Ok (out ++ rng i step n) \/
    vm.buildRange_loop fuel i step (i + step * Z.of_nat n) cap out
    = Fail "growslice: len out of range".
Proof.
  induction n as [|n IH]; intros fuel i step cap out Hf Hs Hi He;
    (destruct fuel as [|fuel]; [lia|]); cbn [vm.buildRange_loop];
    destruct ((cap <=? vm.zlen out) && negb (vm.slice_fits (vm.zlen out + 1)));
    try (right; reflexivity).
  - left. change (Z.of_nat 0) with 0.
    replace (i + step * 0) with i by lia. rewrite Z.eqb_refl.
    unfold rng. cbn [seq map]. change (Z.of_nat 0) with 0.
    replace (i + step * 0) with i by lia. reflexivity.
  - assert (Hne : (i =? i + step * Z.of_nat (S n)) = false) by (apply Z.eqb_neq; lia).
    rewrite Hne.
    rewrite (wrap64_id _ (in_int64_step _ _ _ Hs Hi He)).
    replace (i + step * Z.of_nat (S n)) with ((i + step) + step * Z.of_nat n) in * by lia.
    destruct (IH fuel (i + step) step cap (out ++ [vm.Number (float64.of_int i)])
                ltac:(lia) Hs (in_int64_step _ _ n Hs Hi
                                 ltac:(replace (i + step * Z.of_nat (S n))
                                         with ((i + step) + step * Z.of_nat n) by lia; exact He))
                He) as [-> | ->].
    + left. rewrite <- app_assoc. cbn [app]. rewrite rng_S. reflexivity.
    + right. reflexivity.
Qed.

Lemma buildRange_loop_spec n :
  forall fuel i step cap out,
    (n < fuel)%nat -> step = 1 \/ step = -1 ->
    goint.in_int64 i = true -> goint.in_int64 (i + step * Z.of_nat n) = true ->
    vm.slice_fits (vm.zlen out + Z.of_nat n + 1) = true ->
    vm.buildRange_loop fuel i step (i + step * Z.of_nat n) cap out = Ok (out ++ rng i step n).
Proof.
  induction n as [|n IH]; intros fuel i step cap out Hf Hs Hi He Hfit;
    (destruct fuel as [|fuel]; [lia|]); cbn [vm.buildRange_loop];
    (assert (Hfit1 : vm.slice_fits (vm.zlen out + 1) = true)
       by (refine (slice_fits_le _ _ _ Hfit); lia));
    rewrite Hfit1, andb_false_r.
  - change (Z.of_nat 0) with 0.
    replace (i + step * 0) with i by lia. rewrite Z.eqb_refl.
    unfold rng. cbn [seq map]. change (Z.of_nat 0) with 0.
    replace (i + step * 0) with i by lia. reflexivity.
  - assert (Hne : (i =? i + step * Z.of_nat (S n)) = false) by (apply Z.eqb_neq; lia).
    rewrite Hne.
    rewrite (wrap64_id _ (in_int64_step _ _ _ Hs Hi He)).
    assert (Hmid := in_int64_step _ _ _ Hs Hi He).
    replace (i + step * Z.of_nat (S n)) with ((i + step) + step * Z.of_nat n) in * by lia.
    rewrite IH; [|lia|assumption|assumption|assumption|].
    + rewrite <- app_assoc. cbn [app]. rewrite rng_S. reflexivity.
    + unfold vm.zlen in *. rewrite length_app. cbn [length].
      replace (Z.of_nat (length out + 1) + Z.of_nat n + 1)
        with (Z.of_nat (length out) + Z.of_nat (S n) + 1) by lia.
      exact Hfit.
Qed.

(** Without overflow, the capacity asked of [make] is the number of
    elements the loop appends. *)
Lemma buildRange_size_spec a b :
  Z.abs (b - a) + 1 <= goint.maxInt64 -> vm.buildRange_size a b = Z.abs (b - a) + 1.
Proof.
  unfold vm.buildRange_size, goint.wrap64, goint.maxInt64. intros H.
  destruct (b <? a) eqn:E.
  - apply Z.ltb_lt in E.
    rewrite (Z.mod_small (b - a + 2 ^ 63)) by lia.
    replace (b - a + 2 ^ 63 - 2 ^ 63) with (- (a - b)) by lia.
    change (-1) with (- (1)). rewrite Z.quot_opp_opp, Z.quot_1_r by lia.
    rewrite (Z.mod_small (a - b + 1 + 2 ^ 63)) by lia.
    replace (a - b + 1 + 2 ^ 63 - 2 ^ 63) with (a - b + 1) by lia.
    assert ((a - b + 1 <? 0) = false) as -> by (apply Z.ltb_ge; lia). lia.
  - apply Z.ltb_ge in E.
    rewrite (Z.mod_small (b - a + 2 ^ 63)) by lia.
    replace (b - a + 2 ^ 63 - 2 ^ 63) with (b - a) by lia.
    rewrite Z.quot_1_r.
    rewrite (Z.mod_small (b - a + 1 + 2 ^ 63)) by lia.
    replace (b - a + 1 + 2 ^ 63 - 2 ^ 63) with (b - a + 1) by lia.
    assert ((b - a + 1 <? 0) = false) as -> by (apply Z.ltb_ge; lia). lia.
Qed.

Lemma slice_fits_small n : vm.slice_fits n = true -> n <= goint.maxInt64.
Proof.
  unfold vm.slice_fits, vm.sizeofValue, vm.maxAlloc, goint.maxInt64.
  rewrite Z.leb_le. lia.
Qed.

Lemma buildRange_spec a b :
  goint.in_int64 a = true -> goint.in_int64 b = true ->
  vm.slice_fits (Z.abs (b - a) + 1) = true ->
  vm.buildRange a b = Ok (map (fun i => vm.Number (float64.of_int i)) (spec.inclusive a b)).
Proof.
  intros Ha Hb Hfit. unfold vm.buildRange, spec.inclusive.
  rewrite (buildRange_size_spec _ _ (slice_fits_small _ Hfit)), Hfit. cbn [negb].
  destruct (b <? a) eqn:E.
  - apply Z.ltb_lt in E. assert ((a <=? b) = false) as -> by (apply Z.leb_gt; lia).
    assert (Hb' : b = a + -1 * Z.of_nat (Z.to_nat (a - b))) by lia.
    rewrite Hb' at 2.
    rewrite buildRange_loop_spec.
    + cbn [app]. unfold rng. rewrite map_map. f_equal.
    + lia.
    + right; reflexivity.
    + exact Ha.
    + rewrite <- Hb'. exact Hb.
    + refine (slice_fits_le _ _ _ Hfit). unfold vm.zlen. cbn [length]. lia.
  - apply Z.ltb_ge in E. assert ((a <=? b) = true) as -> by (apply Z.leb_le; lia).
    assert (Hb' : b = a + 1 * Z.of_nat (Z.to_nat (b - a))) by lia.
    rewrite Hb' at 2.
    rewrite buildRange_loop_spec.
    + cbn [app]. unfold rng. rewrite map_map. f_equal.
      apply map_ext_in. intros k _. do 2 f_equal. lia.
    + lia.
    + left; reflexivity.
    + exact Ha.
    + rewrite <- Hb'. exact Hb.
    + refine (slice_fits_le _ _ _ Hfit). unfold vm.zlen. cbn [length]. lia.
Qed.

(** A span that needs more than [maxAlloc] bytes is refused by [make]. *)
Lemma buildRange_refused a b :
  Z.abs (b - a) + 1 <= goint.maxInt64 ->
  vm.slice_fits (Z.abs (b - a) + 1) = false ->
  vm.buildRange a b = Fail "makeslice: cap out of range".
Proof.
  intros Hs Hfit. unfold vm.buildRange.
  rewrite (buildRange_size_spec _ _ Hs), Hfit. reflexivity.
Qed.

(** Whatever the bounds, the loop ends within its fuel: [buildRange] gives
    the sequence or one of the two panics of the runtime. *)
Lemma buildRange_total a b :
  goint.in_int64 a = true -> goint.in_int64 b = true ->
  vm.buildRange a b = Ok (map (fun i => vm.Number (float64.of_int i)) (spec.inclusive a b)) \/
  vm.buildRange a b = Fail "makeslice: cap out of range" \/
  vm.buildRange a b = Fail "growslice: len out of range".
Proof.
  intros Ha Hb. unfold vm.buildRange, spec.inclusive.
  destruct (vm.slice_fits (vm.buildRange_size a b)); cbn [negb]; [|right; left; reflexivity].
  destruct (b <? a) eqn:E.
  - apply Z.ltb_lt in E. assert ((a <=? b) = false) as -> by (apply Z.leb_gt; lia).
    assert (Hb' : b = a + -1 * Z.of_nat (Z.to_nat (a - b))) by lia.
    pose proof (buildRange_loop_ends (Z.to_nat (a - b)) (S (Z.to_nat (Z.abs (b - a)))) a (-1)
                  (vm.buildRange_size a b) [] ltac:(lia) ltac:(right; reflexivity) Ha
                  ltac:(rewrite <- Hb'; exact Hb)) as H.
    rewrite <- Hb' in H. destruct H as [-> | ->].
    + left. cbn [app]. unfold rng. rewrite map_map. f_equal.
    + right; right; reflexivity.
  - apply Z.ltb_ge in E. assert ((a <=? b) = true) as -> by (apply Z.leb_le; lia).
    assert (Hb' : b = a + 1 * Z.of_nat (Z.to_nat (b - a))) by lia.
    pose proof (buildRange_loop_ends (Z.to_nat (b - a)) (S (Z.to_nat (Z.abs (b - a)))) a 1
                  (vm.buildRange_size a b) [] ltac:(lia) ltac:(left; reflexivity) Ha
                  ltac:(rewrite <- Hb'; exact Hb)) as H.
    rewrite <- Hb' in H. destruct H as [-> | ->].
    + left. cbn [app]. unfold rng. rewrite map_map. f_equal.
      apply map_ext_in. intros k _. do 2 f_equal. lia.
    + right; right; reflexivity.
Qed.

Section RangeOp.
Variable growcap : nat -> nat.
Variable format_g : float64.t -> string.
Variable map_range_choice : nat -> nat -> nat.
Variable native_call : nat -> list vm.Value -> vm.Store -> (vm.Value * option vm.GoError) * vm.Store.

Lemma expectIndex_ok v i :
  vm.VKind v = vm.KindNumber -> spec.holds_int (vm.Num v) i -> vm.expectIndex v (-1) = Ok i.
Proof.
  intros Hk [Hi Hr]. unfold vm.expectIndex. rewrite Hk, Hi, Hr. reflexivity.
Qed.

Lemma expectIndex_fail v :
  vm.VKind v <> vm.KindNumber \/ props.is_int v = false ->
  vm.expectIndex v (-1) = Fail "index must be number" \/
  vm.expectIndex v (-1) = Fail "index must be integer".
Proof.
  intros H. unfold vm.expectIndex, props.is_int in *.
  destruct (vm.VKind v); try (left; reflexivity).
  destruct H as [H | H]; [congruence|]. rewrite H. right. reflexivity.
Qed.

Lemma expectIndex_total v :
  (exists i, goint.in_int64 i = true /\ vm.expectIndex v (-1) = Ok i) \/
  vm.expectIndex v (-1) = Fail "index must be number" \/
  vm.expectIndex v (-1) = Fail "index must be integer".
Proof.
  unfold vm.expectIndex.
  destruct (vm.VKind v); try (right; left; reflexivity).
  destruct (float64.eqb _ _); cbn.
  - left. eexists. split; [apply to_int_in_int64 | reflexivity].
  - right; right; reflexivity.
Qed.

Lemma pop_eq m n v :
  vm.stack_len m = S n -> vm.stack_buf m !! n = Some v ->
  vm.pop m = inl (v, vm.set_stack (vm.stack_buf m) n m).
Proof. intros Hl Hv. unfold vm.pop. rewrite Hl, Hv. reflexivity. Qed.

Lemma push_in_cap v m :
  (vm.stack_len m < length (vm.stack_buf m))%nat ->
  vm.push growcap v m
  = inl (tt, vm.set_stack (<[vm.stack_len m := v]> (vm.stack_buf m)) (S (vm.stack_len m)) m).
Proof.
  intros H. unfold vm.push, modify. apply Nat.ltb_lt in H. rewrite H. reflexivity.
Qed.

Lemma try_ok {A} (r : res A) a m : r = Ok a -> vm.try r m = inl (a, m).
Proof. intros ->. reflexivity. Qed.

Lemma try_fail {A} (r : res A) msg m :
  r = Fail msg ->
  vm.try r m = inr (vm.wrapError_at vm.cur (vm.ErrorVal msg) (vm.PlainError msg) m).
Proof. intros ->. reflexivity. Qed.


End RangeOp.



(** [[0 .. 0]] is the single-element array [[0]]. *)
Lemma range_zero_zero :
  vm.buildRange 0 0 = Ok [vm.Number (float64.of_int 0)].
Proof. reflexivity. Qed.


(** ** Iteration over objects *)

Lemma pick_order_perm choice n : forall l k, length l = n -> vm.pick_order choice n l k ≡ₚ l.
Proof.
  induction n as [|n IH]; intros l k Hl.
  - destruct l; [reflexivity | discriminate].
  - cbn [vm.pick_order].
    assert (Hi : (choice k mod length l < length l)%nat) by (apply Nat.mod_upper_bound; lia).
    destruct (lookup_lt_is_Some_2 l _ Hi) as [x Hx]. rewrite Hx.
    rewrite IH.
    + symmetry. apply delete_Permutation. exact Hx.
    + rewrite length_delete by eauto. lia.
Qed.

Lemma map_range_perm choice seed (m : gmap string vm.Value) :
  vm.map_range choice seed m ≡ₚ (map_to_list m).*1.
Proof. unfold vm.map_range. apply pick_order_perm. reflexivity. Qed.

(** Whatever order [range] takes, the captured list has every key of the
    object exactly once. *)
Lemma map_range_once choice seed (m : gmap string vm.Value) :
  NoDup (vm.map_range choice seed m) /\
  forall k, k ∈ vm.map_range choice seed m <-> is_Some (m !! k).
Proof.
  split.
  - rewrite map_range_perm. apply NoDup_fst_map_to_list.
  - intros k. rewrite map_range_perm. rewrite <- elem_of_dom.
    rewrite list_elem_of_fmap. split.
    + intros ([k' v] & -> & H). apply elem_of_map_to_list in H. apply elem_of_dom. eauto.
    + intros H. apply elem_of_dom in H as [v Hv]. exists (k, v). split; [reflexivity|].
      apply elem_of_map_to_list. exact Hv.
Qed.

(** Advancing an iterator leaves its captured keys as they are. *)
Lemma Iterator_Next_keeps_keys p st :
  vm.keys <$> (vm.iterators (snd (vm.Iterator_Next p st)) !! p)
  = vm.keys <$> (vm.iterators st !! p).
Proof.
  unfold vm.Iterator_Next.
  destruct (vm.iterators st !! p) as [it|] eqn:E; cbn; [|rewrite E; reflexivity].
  repeat case_match; cbn; rewrite ?lookup_insert_eq, ?E; reflexivity.
Qed.

(** Writing into an object or array does not touch the iterators. *)
Lemma indexSet_keeps_iterators format_g st target index val st' :
  vm.indexSet format_g st target index val = Ok st' -> vm.iterators st' = vm.iterators st.
Proof.
  unfold vm.indexSet. intros H.
  repeat case_match; try discriminate; injection H as <-; reflexivity.
Qed.

(** C2: the key list an object iterator captures is the order of Go's
    [range] over the map, not the insertion order the language description
    promises: for the one object [{a: 1, b: 2}] the list is [a, b] under
    one order of [range] and [b, a] under another. *)
Theorem object_keys_follow_map_range :
  props.captured_keys host.range_first props.ab_store (Some 0%nat) = ["a"; "b"]%string /\
  props.captured_keys host.range_second props.ab_store (Some 0%nat) = ["b"; "a"]%string.
Proof. split; vm_compute; reflexivity. Qed.

(** ** Compiling a program *)

Section CompileProgram.
Variable ParseFloat : string -> option float64.t.
Variable quote : string -> string.
Variable LookupByName : string -> option (Z * Z).

Lemma Compile_loop_lookup source name stmts :
  forall acc fs,
    compiler.Compile_loop ParseFloat quote LookupByName source stmts acc = Ok fs ->
    fs !! name =
      match props.last_decl name stmts with
      | Some (ps, body) =>
          match compiler.compileFunction ParseFloat quote LookupByName source name ps body with
          | Ok p => Some p
          | Fail _ => None
          end
      | None => acc !! name
      end.
Proof.
  induction stmts as [|stmt rest IH]; intros acc fs H.
  - cbn in H. injection H as <-. reflexivity.
  - cbn [compiler.Compile_loop] in H. cbn [props.last_decl].
    destruct stmt as [| | | | | | |n ps0 body0 pos0]; try discriminate.
    destruct (compiler.compileFunction ParseFloat quote LookupByName source n ps0 body0)
      as [proto|] eqn:Ec; [|discriminate].
    rewrite (IH _ _ H).
    destruct (props.last_decl name rest) as [[ps body]|]; [reflexivity|].
    destruct (String.eqb n name) eqn:En.
    + apply String.eqb_eq in En. subst n. rewrite Ec. apply lookup_insert_eq.
    + apply String.eqb_neq in En. apply lookup_insert_ne. exact En.
Qed.

Lemma Compile_loop_total source stmts :
  Forall (props.compiles ParseFloat quote LookupByName source) stmts ->
  forall acc, exists fs,
    compiler.Compile_loop ParseFloat quote LookupByName source stmts acc = Ok fs.
Proof.
  induction 1 as [|stmt rest Hs _ IH]; intros acc.
  - eexists. reflexivity.
  - destruct stmt as [| | | | | | |n ps0 body0 pos0]; try contradiction.
    destruct Hs as [p Hp].
    cbn [compiler.Compile_loop]. rewrite Hp. apply IH.
Qed.

(** C5, as the code has it: [Compile] succeeds whenever every top-level
    statement is a function declaration whose body compiles, also when two
    declarations share a name; the module then maps each name to the
    prototype of the last declaration of that name. *)
Theorem Compile_keeps_last_declaration (prog : list ast.Statement) (source : string) :
  (Forall (props.compiles ParseFloat quote LookupByName source) prog ->
   exists md, compiler.Compile ParseFloat quote LookupByName prog source = Ok md) /\
  (forall md name,
      compiler.Compile ParseFloat quote LookupByName prog source = Ok md ->
      bytecode.Functions md !! name =
        match props.last_decl name prog with
        | Some (ps, body) =>
            match compiler.compileFunction ParseFloat quote LookupByName source name ps body with
            | Ok p => Some p
            | Fail _ => None
            end
        | None => None
        end).
Proof.
  split.
  - intros H. unfold compiler.Compile.
    destruct (Compile_loop_total source prog H ∅) as [fs ->]. eexists. reflexivity.
  - intros md name H. unfold compiler.Compile in H.
    destruct (compiler.Compile_loop ParseFloat quote LookupByName source prog ∅)
      as [fs|] eqn:E; [|discriminate].
    injection H as <-. cbn. rewrite (Compile_loop_lookup _ name _ _ _ E).
    destruct (props.last_decl name prog) as [[ps body]|]; [reflexivity|]. apply lookup_empty.
Qed.

End CompileProgram.

Lemma Compile_keeps_last_declaration_witness :
  exists md, host.Compile examples.twice_f "test" = Ok md.
Proof.
  apply (proj1 (Compile_keeps_last_declaration host.ParseFloat host.quote host.LookupByName
                  examples.twice_f "test")).
  repeat constructor; eexists; vm_compute; reflexivity.
Defined.

(** C5 as stated fails: [func f(){} func f(){return 1}] compiles, and the
    module holds the second [f] (its code is [CONST 0; RETURN]). *)
Lemma duplicate_declaration_compiles :
  exists md p,
    host.Compile examples.twice_f "test" = Ok md /\
    bytecode.Functions md !! "f"%string = Some p /\
    option_map bytecode.Code (bytecode.PChunk p) = Some [0; 0; 0; 57].
Proof. eexists _, _. split; [vm_compute; reflexivity|]. split; vm_compute; reflexivity. Qed.

(** ** The lexer's newline rule *)

Lemma inputLen_readChar l : lexer.inputLen (lexer.readChar l) = lexer.inputLen l.
Proof. unfold lexer.readChar, lexer.inputLen. destruct (_ <=? _); reflexivity. Qed.

Lemma mu_readChar l :
  Ascii.eqb (lexer.ch l) lexer.NUL = false -> (props.mu (lexer.readChar l) < props.mu l)%nat.
Proof.
  intros H. unfold props.mu at 2. rewrite H.
  unfold props.mu, lexer.readChar, lexer.inputLen.
  destruct (Z.of_nat (String.length (lexer.input l)) <=? lexer.readPos l) eqn:E;
    cbn [lexer.ch lexer.input lexer.readPos].
  - rewrite Ascii.eqb_refl. lia.
  - apply Z.leb_gt in E. destruct (Ascii.eqb (lexer.byteAt _ _) _); lia.
Qed.

Lemma mu_skipWhitespace_loop fuel : forall l, (props.mu (lexer.skipWhitespace_loop fuel l) <= props.mu l)%nat.
Proof.
  induction fuel as [|fuel IH]; intros l; cbn [lexer.skipWhitespace_loop]; [lia|].
  destruct (_ || _) eqn:E; [|lia].
  etransitivity; [apply IH|].
  apply Nat.lt_le_incl, mu_readChar.
  destruct (Ascii.eqb (lexer.ch l) lexer.NUL) eqn:E0; [|reflexivity].
  apply Ascii.eqb_eq in E0. rewrite E0 in E. discriminate.
Qed.

Lemma mu_skipLineComment_loop fuel : forall l, (props.mu (lexer.skipLineComment_loop fuel l) <= props.mu l)%nat.
Proof.
  induction fuel as [|fuel IH]; intros l; cbn [lexer.skipLineComment_loop]; [lia|].
  destruct (negb (Ascii.eqb (lexer.ch l) lexer.NUL)) eqn:E; cbn [andb]; [|lia].
  destruct (negb (Ascii.eqb (lexer.ch l) lexer.LF)); [|lia].
  etransitivity; [apply IH|].
  apply Nat.lt_le_incl, mu_readChar. apply negb_true_iff. exact E.
Qed.

Lemma mu_skipBlockComment_loop fuel : forall l, (props.mu (lexer.skipBlockComment_loop fuel l) <= props.mu l)%nat.
Proof.
  induction fuel as [|fuel IH]; intros l; cbn [lexer.skipBlockComment_loop]; [lia|].
  destruct (Ascii.eqb (lexer.ch l) lexer.NUL) eqn:E; [lia|].
  destruct (_ && _) eqn:E2.
  - apply andb_true_iff in E2 as [E2 E3].
    assert (H1 := mu_readChar l E).
    assert (Hp : Ascii.eqb (lexer.ch (lexer.readChar l)) lexer.NUL = false).
    { unfold lexer.peekChar in E3. unfold lexer.readChar.
      destruct (lexer.inputLen l <=? lexer.readPos l); cbn.
      - apply Ascii.eqb_eq in E3. discriminate.
      - apply Ascii.eqb_eq in E3. rewrite E3. reflexivity. }
    assert (H2 := mu_readChar _ Hp). lia.
  - etransitivity; [apply IH|]. apply Nat.lt_le_incl, mu_readChar. exact E.
Qed.

Lemma NextToken_loop_total fuel : forall l, (props.mu l < fuel)%nat -> lexer.NextToken_loop fuel l <> None.
Proof.
  induction fuel as [|fuel IH]; intros l H; [lia|].
  cbn [lexer.NextToken_loop].
  assert (Hw := mu_skipWhitespace_loop (lexer.remaining l) l).
  fold (lexer.skipWhitespace l) in Hw.
  set (l1 := lexer.skipWhitespace l) in *. clearbody l1.
  destruct (Ascii.eqb (lexer.ch l1) lexer.LF) eqn:ELF.
  - unfold lexer.consumeNewline. destruct (_ && _ && _); cbv iota; [intro; discriminate|].
    apply IH.
    assert (Ascii.eqb (lexer.ch l1) lexer.NUL = false).
    { apply Ascii.eqb_eq in ELF. rewrite ELF. reflexivity. }
    pose proof (mu_readChar l1 H0). lia.
  - destruct (Ascii.eqb (lexer.ch l1) lexer.NUL) eqn:ENUL; cbv iota.
    1: { intro HH. discriminate HH. }
    destruct (_ && _) eqn:E1.
    + apply IH. unfold lexer.skipLineComment.
      destruct (lexer.remaining l1) as [|r] eqn:Er; [discriminate|].
      cbn [lexer.skipLineComment_loop]. rewrite ENUL, ELF. cbn.
      pose proof (mu_skipLineComment_loop r (lexer.readChar l1)).
      pose proof (mu_readChar l1 ENUL). lia.
    + destruct (andb (Ascii.eqb (lexer.ch l1) "/") (Ascii.eqb (lexer.peekChar l1) "*")) eqn:E2; cbv iota.
      2: { intro HH; discriminate HH. }
      apply IH. unfold lexer.skipBlockComment.
      apply andb_true_iff in E2 as [E2 E3].
      assert (Hp : Ascii.eqb (lexer.ch (lexer.readChar l1)) lexer.NUL = false).
      { unfold lexer.peekChar in E3. unfold lexer.readChar.
        destruct (lexer.inputLen l1 <=? lexer.readPos l1); cbn.
        - apply Ascii.eqb_eq in E3. discriminate.
        - apply Ascii.eqb_eq in E3. rewrite E3. reflexivity. }
      pose proof (mu_skipBlockComment_loop (lexer.remaining (lexer.readChar (lexer.readChar l1)))
                    (lexer.readChar (lexer.readChar l1))).
      pose proof (mu_readChar l1 ENUL). pose proof (mu_readChar _ Hp). lia.
Qed.

Lemma NextToken_total l : exists r, lexer.NextToken l = Some r.
Proof.
  destruct (lexer.NextToken l) as [r|] eqn:E; [eauto|].
  exfalso. revert E. apply NextToken_loop_total.
  unfold props.mu, lexer.remaining. destruct (Ascii.eqb _ _); lia.
Qed.

Lemma readString_loop_last fuel : forall start sb l, props.emits_last (lexer.readString_loop fuel start sb l).
Proof.
  induction fuel as [|fuel IH]; intros start sb l; cbn [lexer.readString_loop]; [reflexivity|].
  repeat case_match; try reflexivity; apply IH.
Qed.

Lemma lexSymbol_last l : props.emits_last (lexer.lexSymbol l).
Proof.
  unfold lexer.lexSymbol.
  repeat case_match; try reflexivity.
  - apply readString_loop_last.
  - unfold lexer.readVariable. repeat case_match; reflexivity.
  - unfold lexer.readIdentifier. repeat case_match; reflexivity.
  - unfold lexer.readNumber. repeat case_match; reflexivity.
Qed.

Lemma NextToken_loop_last fuel : forall l tok l',
  lexer.NextToken_loop fuel l = Some (tok, l') ->
  token.Typ tok <> token.EOF -> lexer.lastToken l' = token.Typ tok.
Proof.
  induction fuel as [|fuel IH]; intros l tok l' H Hne; [discriminate|].
  cbn [lexer.NextToken_loop] in H.
  set (l1 := lexer.skipWhitespace l) in *. clearbody l1.
  destruct (Ascii.eqb (lexer.ch l1) lexer.LF).
  - unfold lexer.consumeNewline in H. destruct (_ && _ && _).
    + injection H as <- <-. reflexivity.
    + eapply IH; eassumption.
  - destruct (Ascii.eqb (lexer.ch l1) lexer.NUL).
    + injection H as <- <-. contradiction Hne. reflexivity.
    + destruct (_ && _); [eapply IH; eassumption|].
      destruct (_ && _); [eapply IH; eassumption|].
      injection H as H. pose proof (lexSymbol_last l1) as HL. rewrite H in HL. exact HL.
Qed.

Lemma readChar_depths l :
  lexer.parenDepth (lexer.readChar l) = lexer.parenDepth l /\
  lexer.bracketDepth (lexer.readChar l) = lexer.bracketDepth l /\
  lexer.lastToken (lexer.readChar l) = lexer.lastToken l.
Proof. unfold lexer.readChar. destruct (_ <=? _); repeat split. Qed.

Lemma consumeNewline_rule l :
  lexer.consumeNewline l =
    if props.newline_cond l
    then (Some (lexer.makeToken token.Newline "" l), lexer.set_lastToken token.Newline (lexer.readChar l))
    else (None, lexer.readChar l).
Proof.
  unfold lexer.consumeNewline, props.newline_cond.
  destruct (readChar_depths l) as (-> & -> & ->). reflexivity.
Qed.

Lemma NextToken_loop_mono fuel : forall l r fuel',
  lexer.NextToken_loop fuel l = Some r -> (fuel <= fuel')%nat ->
  lexer.NextToken_loop fuel' l = Some r.
Proof.
  induction fuel as [|fuel IH]; intros l r fuel' H Hle; [discriminate|].
  destruct fuel' as [|fuel']; [lia|].
  cbn [lexer.NextToken_loop] in *.
  set (l1 := lexer.skipWhitespace l) in *. clearbody l1.
  destruct (Ascii.eqb (lexer.ch l1) lexer.LF).
  - destruct (lexer.consumeNewline l1) as [[tok|] l2]; [exact H|].
    apply IH; [exact H | lia].
  - destruct (Ascii.eqb (lexer.ch l1) lexer.NUL); [exact H|].
    destruct (_ && _); [apply IH; [exact H | lia]|].
    destruct (_ && _); [apply IH; [exact H | lia]|].
    exact H.
Qed.

Lemma mu_le_remaining l : (props.mu l <= lexer.remaining l)%nat.
Proof. unfold props.mu, lexer.remaining. destruct (Ascii.eqb _ _); lia. Qed.

Lemma NextToken_loop_enough fuel l :
  (props.mu l < fuel)%nat -> lexer.NextToken_loop fuel l = lexer.NextToken l.
Proof.
  intros H.
  destruct (lexer.NextToken_loop fuel l) as [r|] eqn:E.
  - destruct (NextToken_total l) as [r' Hr'].
    unfold lexer.NextToken in *.
    destruct (Nat.le_ge_cases fuel (S (lexer.remaining l))) as [Hle | Hle].
    + rewrite (NextToken_loop_mono _ _ _ _ E Hle). reflexivity.
    + rewrite Hr'. rewrite (NextToken_loop_mono _ _ _ _ Hr' Hle) in E. symmetry. exact E.
  - exfalso. revert E. apply NextToken_loop_total. exact H.
Qed.






(** ** Logical operators *)

(** C1: the compiler lowers [a || b] to [a; JUMP_IF_TRUE end; POP; b; end:]
    and expects the jump to leave [a] on the stack, but the interpreter's
    conditional jumps pop their operand.  When the left operand decides,
    its value is gone: [return 1 || 2] returns null, not 1, and
    [return false && true] returns null, not false. *)
Theorem short_circuit_loses_left_value :
  (exists m, host.load_and_call 0 examples.or_one_two 100 "f" [] = Some (vm.Done vm.Null m)) /\
  (exists m, host.load_and_call 0 examples.and_false_true 100 "f" []
             = Some (vm.Done vm.Null m)).
Proof. split; eexists; vm_compute; reflexivity. Qed.

(** ** Globals *)

Section GlobalOps.
Variable growcap : nat -> nat.
Variable format_g : float64.t -> string.
Variable map_range_choice : nat -> nat -> nat.
Variable native_call : nat -> list vm.Value -> vm.Store -> (vm.Value * option vm.GoError) * vm.Store.

Lemma currentFrame_eq m fr rest : vm.frames m = fr :: rest -> vm.currentFrame m = inl (fr, m).
Proof. intros H. unfold vm.currentFrame. rewrite H. reflexivity. Qed.

Lemma readU16_eq m fr rest hi lo :
  vm.frames m = fr :: rest ->
  vm.codeAt fr (vm.ip fr) = Some hi ->
  vm.codeAt fr (vm.ip fr + 1) = Some lo ->
  vm.readU16 m = inl (Z.lor (Z.shiftl hi 8) lo,
                      vm.set_frames (vm.set_ip (vm.ip fr + 2) fr :: rest) m).
Proof.
  intros Hf Hh Hl. unfold vm.readU16.
  rewrite (bind_inl _ _ _ _ _ (currentFrame_eq _ _ _ Hf)). rewrite Hh, Hl.
  unfold bind, vm.updFrame, modify, ret. rewrite Hf. reflexivity.
Qed.

Lemma stringConst_eq m fr rest idx s msg :
  vm.frames m = fr :: rest ->
  vm.zlookup (vm.consts_of fr) idx = Some (bytecode.CString s) ->
  vm.stringConst idx msg m = inl (s, m).
Proof.
  intros Hf Hc. unfold vm.stringConst, vm.constAt.
  unfold bind at 1. rewrite (bind_inl _ _ _ _ _ (currentFrame_eq _ _ _ Hf)).
  rewrite Hc. reflexivity.
Qed.

End GlobalOps.


(** ** Invariants of the interpreter *)

Lemma hoare_bind {A B} P (c : vm.M A) (k : A -> vm.M B) Q R E :
  props.hoare P c Q E -> (forall a, props.hoare (Q a) (k a) R E) ->
  props.hoare P (bind c k) R E.
Proof.
  intros Hc Hk m Hm. unfold bind. specialize (Hc m Hm).
  destruct (c m) as [[a m']|o]; [apply Hk; exact Hc | exact Hc].
Qed.

Lemma hoare_conseq {A} (P P' : vm.VM -> Prop) (c : vm.M A) (Q Q' : A -> vm.VM -> Prop) E :
  props.hoare P' c Q' E -> (forall m, P m -> P' m) -> (forall a m, Q' a m -> Q a m) ->
  props.hoare P c Q E.
Proof.
  intros H HP HQ m Hm. specialize (H m (HP m Hm)).
  destruct (c m) as [[a m']|o]; [apply HQ, H | exact H].
Qed.

Lemma hoare_assume {A} (P : vm.VM -> Prop) (F : Prop) (c : vm.M A) Q E :
  (F -> props.hoare P c Q E) -> props.hoare (fun m => P m /\ F) c Q E.
Proof. intros H m [Hm HF]. apply H; assumption. Qed.

Lemma to_byte_range z : 0 <= goint.to_byte z < 256.
Proof.
  unfold goint.to_byte. change 255 with (Z.ones 8). rewrite Z.land_ones by lia.
  change (2 ^ 8) with 256. apply Z.mod_pos_bound. lia.
Qed.

Lemma codeAt_range fr i b : vm.codeAt fr i = Some b -> 0 <= b < 256.
Proof.
  unfold vm.codeAt. destruct (vm.zlookup _ _); intros H; inversion H. apply to_byte_range.
Qed.

Section Invariant.

Variable growcap : nat -> nat.
Variable format_g : float64.t -> string.
Variable map_range_choice : nat -> nat -> nat.
Variable native_call : nat -> list vm.Value -> vm.Store -> (vm.Value * option vm.GoError) * vm.Store.
Variable builtinRegistry : Z -> option vm.builtinEntry.

(** The invariant [J], and what holds of an outcome [E]; [J] does not
    depend on the operand stack, the globals, the store, the [ip] and
    [lastOp] of the running frame, and a write to a slot or through a cell
    keeps it. *)
Variable J : vm.VM -> Prop.
Variable E : vm.Outcome -> Prop.

Hypothesis E_failed : forall v e m, J m -> E (vm.Failed v e m).
Hypothesis E_panic : forall w, E (vm.Panic w).
Hypothesis J_stack : forall b n m, J m -> J (vm.set_stack b n m).
Hypothesis J_globals : forall g m, J m -> J (vm.set_globals g m).
Hypothesis J_store : forall st m, J m -> J (vm.set_store st m).
Hypothesis J_ip : forall x fr rest m,
    J m -> vm.frames m = fr :: rest -> J (vm.set_frames (vm.set_ip x fr :: rest) m).
Hypothesis J_lastOp : forall x fr rest m,
    J m -> vm.frames m = fr :: rest -> J (vm.set_frames (vm.set_lastOp x fr :: rest) m).
Hypothesis J_writeSlot : forall slot v m, J m -> J (vm.writeSlot slot v m).
Hypothesis J_upvalue_set : forall uv v m, J m -> J (vm.upvalue_set uv v m).

Lemma inv_bind {A B} (c : vm.M A) (k : A -> vm.M B) :
  props.inv J E c -> (forall a, props.inv J E (k a)) -> props.inv J E (bind c k).
Proof. intros Hc Hk. eapply hoare_bind; [exact Hc | exact Hk]. Qed.

Lemma inv_ret {A} (a : A) : props.inv J E (ret a).
Proof. intros m Hm. exact Hm. Qed.

Lemma inv_get : props.inv J E vm.get_vm.
Proof. intros m Hm. exact Hm. Qed.

Lemma inv_errorf {A} fr msg : props.inv J E (@vm.errorf A fr msg).
Proof. intros m Hm. apply E_failed, Hm. Qed.

Lemma inv_wrapError {A} fr val err : props.inv J E (@vm.wrapError A fr val err).
Proof. intros m Hm. apply E_failed, Hm. Qed.

Lemma inv_panic {A} w : props.inv J E (@vm.panic A w).
Proof. intros m Hm. apply E_panic. Qed.

Lemma inv_try {A} (r : res A) : props.inv J E (vm.try r).
Proof. destruct r; [apply inv_ret | apply inv_wrapError]. Qed.

Lemma inv_push v : props.inv J E (vm.push growcap v).
Proof. intros m Hm. unfold vm.push, modify. destruct (_ <? _)%nat; apply J_stack, Hm. Qed.

Lemma inv_pop : props.inv J E vm.pop.
Proof. intros m Hm. unfold vm.pop. destruct (vm.stack_len m); [exact Hm | apply J_stack, Hm]. Qed.

Lemma inv_peek : props.inv J E vm.peek.
Proof. intros m Hm. unfold vm.peek. destruct (vm.stack_len m); exact Hm. Qed.

Lemma inv_currentFrame : props.inv J E vm.currentFrame.
Proof. intros m Hm. unfold vm.currentFrame. destruct (vm.frames m); [apply E_panic | exact Hm]. Qed.

Lemma inv_set_ip x : props.inv J E (vm.updFrame (vm.set_ip x)).
Proof.
  intros m Hm. unfold vm.updFrame, modify.
  destruct (vm.frames m) eqn:Ef; [exact Hm | eapply J_ip; eauto].
Qed.

Lemma inv_set_lastOp x : props.inv J E (vm.updFrame (vm.set_lastOp x)).
Proof.
  intros m Hm. unfold vm.updFrame, modify.
  destruct (vm.frames m) eqn:Ef; [exact Hm | eapply J_lastOp; eauto].
Qed.

Lemma inv_when b (c : vm.M unit) : props.inv J E c -> props.inv J E (when b c).
Proof. intros H. destruct b; [exact H | apply inv_ret]. Qed.

Lemma inv_readU16 : props.inv J E vm.readU16.
Proof.
  unfold vm.readU16. apply inv_bind; [apply inv_currentFrame|]. intros fr.
  destruct (vm.codeAt fr (vm.ip fr)); [|apply inv_panic].
  destruct (vm.codeAt fr (vm.ip fr + 1)); [|apply inv_panic].
  apply inv_bind; [apply inv_set_ip | intros; apply inv_ret].
Qed.

Lemma inv_readU8 : props.inv J E vm.readU8.
Proof.
  unfold vm.readU8. apply inv_bind; [apply inv_currentFrame|]. intros fr.
  destruct (vm.codeAt fr (vm.ip fr)); [|apply inv_panic].
  apply inv_bind; [apply inv_set_ip | intros; apply inv_ret].
Qed.

(** [readU8] delivers a byte. *)
Lemma hoare_readU8 : props.hoare J vm.readU8 (fun b m => J m /\ 0 <= b < 256) E.
Proof.
  intros m Hm. unfold vm.readU8, bind, vm.currentFrame.
  destruct (vm.frames m) as [|fr rest] eqn:Ef; [apply E_panic|].
  destruct (vm.codeAt fr (vm.ip fr)) as [b|] eqn:Eb; [|apply E_panic].
  cbn. rewrite Ef. split; [eapply J_ip; eauto | eapply codeAt_range; eauto].
Qed.

Lemma inv_constAt idx : props.inv J E (vm.constAt idx).
Proof.
  unfold vm.constAt. apply inv_bind; [apply inv_currentFrame|]. intros fr.
  destruct (vm.zlookup _ _); [apply inv_ret | apply inv_panic].
Qed.

Lemma inv_stringConst idx msg : props.inv J E (vm.stringConst idx msg).
Proof.
  unfold vm.stringConst. apply inv_bind; [apply inv_constAt|]. intros c.
  destruct c; try apply inv_errorf. apply inv_ret.
Qed.

Lemma inv_update_store f : props.inv J E (vm.update_store f).
Proof. intros m Hm. apply J_store, Hm. Qed.

Lemma inv_popN n : props.inv J E (vm.popN n).
Proof.
  induction n as [|n IH]; cbn [vm.popN]; [apply inv_ret|].
  apply inv_bind; [apply inv_pop|]. intros v.
  apply inv_bind; [exact IH|]. intros rest. apply inv_ret.
Qed.

Lemma inv_popFields n : forall obj, props.inv J E (vm.popFields format_g n obj).
Proof.
  induction n as [|n IH]; intros obj; cbn [vm.popFields]; [apply inv_ret|].
  apply inv_bind; [apply inv_pop|]. intros val.
  apply inv_bind; [apply inv_pop|]. intros key.
  destruct (vm.expectKeyString format_g key); [apply IH | apply inv_wrapError].
Qed.

Lemma inv_writeSlot slot v : props.inv J E (modify (vm.writeSlot slot v)).
Proof. intros m Hm. apply J_writeSlot, Hm. Qed.

Lemma inv_upvalue_set uv v : props.inv J E (modify (vm.upvalue_set uv v)).
Proof. intros m Hm. apply J_upvalue_set, Hm. Qed.

Lemma inv_set_globals (f : vm.VM -> gmap string vm.Value) :
  props.inv J E (modify (fun m => vm.set_globals (f m) m)).
Proof. intros m Hm. apply J_globals, Hm. Qed.

(** What is left to each invariant: a new frame, the arguments copied into
    it, the capture of a slot of the running frame, and the return from a
    frame. *)
Hypothesis H_pushFrame : forall f, props.inv J E (vm.pushFrame f).
Hypothesis H_copyArgs : forall args, props.inv J E (vm.copyArgs args).
Hypothesis H_captureUpvalue : forall m fr rest slot,
    J m -> vm.frames m = fr :: rest -> 0 <= slot < vm.localsLen m fr ->
    match vm.captureUpvalue (vm.locals fr, Z.to_nat slot) m with
    | inl (_, m') => J m'
    | inr o => E o
    end.
Hypothesis H_finishFrame : forall r,
    props.hoare J (vm.finishFrame growcap r)
      (fun rd m' => if rd.2 then E (vm.Done rd.1 m') else J m') E.

Lemma inv_closureUpvalues n : forall acc, props.inv J E (vm.closureUpvalues n acc).
Proof.
  induction n as [|n IH]; intros acc; cbn [vm.closureUpvalues]; [apply inv_ret|].
  apply inv_bind; [apply inv_readU8|]. intros isLocal.
  eapply hoare_bind; [apply hoare_readU8|]. intros slot.
  apply hoare_assume. intros Hslot.
  intros m Hm. unfold bind at 1. unfold vm.currentFrame.
  destruct (vm.frames m) as [|fr rest] eqn:Ef; [apply E_panic|].
  unfold bind at 1. unfold vm.get_vm, get_state.
  destruct (isLocal =? 1).
  - destruct (vm.localsLen m fr <=? slot) eqn:Hlen; [apply E_failed, Hm|].
    apply Z.leb_gt in Hlen. unfold bind.
    pose proof (H_captureUpvalue m fr rest slot Hm Ef (conj (proj1 Hslot) Hlen)) as Hc.
    destruct (vm.captureUpvalue _ m) as [[uv m']|o]; [apply IH, Hc | exact Hc].
  - destruct (_ <=? _); [apply E_failed, Hm | apply IH, Hm].
Qed.

Lemma inv_finish_and_return r :
  props.inv J E (rd <- vm.finishFrame growcap r ;;
                 if rd.2 then vm.stop (vm.Done rd.1) else ret tt).
Proof.
  eapply hoare_bind; [apply H_finishFrame|]. intros [v done]. cbn [fst snd].
  destruct done; intros m Hm; exact Hm.
Qed.

Ltac inv_step :=
  first
    [ apply inv_ret | apply inv_get | apply inv_errorf | apply inv_wrapError | apply inv_panic
    | apply inv_try | apply inv_push | apply inv_pop | apply inv_peek | apply inv_currentFrame
    | apply inv_set_ip | apply inv_readU16 | apply inv_readU8 | apply inv_constAt
    | apply inv_stringConst | apply inv_update_store | apply inv_popN | apply inv_popFields
    | apply inv_writeSlot | apply inv_upvalue_set | apply inv_set_globals
    | apply inv_when | apply inv_finish_and_return | apply H_pushFrame | apply H_copyArgs
    | apply inv_closureUpvalues
    | apply inv_bind; [ | intros ]
    | match goal with
      | |- props.inv _ _ (match ?x with _ => _ end) => destruct x
      end ].

Lemma inv_exec op : props.inv J E (vm.exec growcap format_g map_range_choice native_call op).
Proof. destruct op; unfold vm.exec; solve [repeat inv_step]. Qed.

Lemma inv_runBuiltin entry : props.inv J E (vm.runBuiltin entry).
Proof.
  unfold vm.runBuiltin. apply inv_bind; [apply inv_get|]. intros m.
  destruct (_ <? _); [apply inv_errorf|].
  destruct (vm.handler entry m) as [[[val err] stk] st].
  apply inv_bind.
  - intros m' Hm'. apply J_store, J_stack, Hm'.
  - intros _. destruct err; [apply inv_wrapError | apply inv_ret].
Qed.

Lemma inv_dispatch op :
  props.inv J E (props.dispatch growcap format_g map_range_choice native_call builtinRegistry op).
Proof.
  unfold props.dispatch, vm.lookupBuiltin.
  destruct (builtinRegistry op); [apply inv_runBuiltin|].
  destruct (bytecode.switch_case op); [apply inv_exec | apply inv_errorf].
Qed.

(** With an invariant that does not depend on the instruction counter. *)
Hypothesis J_instCount : forall c m, J m -> J (vm.set_instCount c m).

Lemma inv_step_turn :
  props.inv J E (vm.step growcap format_g map_range_choice native_call builtinRegistry).
Proof.
  unfold vm.step.
  apply inv_bind; [apply inv_currentFrame|]. intros fr0.
  apply inv_bind; [apply inv_set_lastOp|]. intros _.
  apply inv_bind; [apply inv_currentFrame|]. intros fr.
  destruct (vm.chunk_of (vm.fn fr)); [|apply inv_errorf].
  destruct (_ <=? _); [apply inv_finish_and_return|].
  destruct (vm.codeAt fr (vm.ip fr)); [|apply inv_panic].
  apply inv_bind; [apply inv_set_ip|]. intros _.
  apply inv_bind; [intros m Hm; apply J_instCount, Hm|]. intros _.
  apply inv_bind; [apply inv_get|]. intros m.
  destruct (_ && _); [apply inv_errorf|].
  apply inv_dispatch.
Qed.

Hypothesis E_no_frames : forall m, J m -> vm.frames m = [] -> E (vm.Done vm.Null m).

Lemma inv_Run_loop fuel : forall m,
  J m ->
  match vm.Run_loop growcap format_g map_range_choice native_call builtinRegistry fuel m with
  | Some o => E o
  | None => True
  end.
Proof.
  induction fuel as [|fuel IH]; intros m Hm; cbn [vm.Run_loop]; [exact I|].
  destruct (vm.frames m) eqn:Ef; [apply E_no_frames; assumption|].
  pose proof (inv_step_turn m Hm) as Hs.
  destruct (vm.step _ _ _ _ _ m) as [[[] m']|o]; [apply IH, Hs | exact Hs].
Qed.

End Invariant.

(** ** The instruction counter *)

Lemma set_upvalues_same m : vm.set_upvalues (vm.upvalues m) m = m.
Proof. destruct m; reflexivity. Qed.

Lemma upvalue_close_shape p m : exists u, vm.upvalue_close p m = vm.set_upvalues u m.
Proof.
  unfold vm.upvalue_close. destruct (vm.upvalues m !! p) as [c|].
  - destruct (vm.location c); eexists; [reflexivity | symmetry; apply set_upvalues_same].
  - eexists. symmetry. apply set_upvalues_same.
Qed.

Lemma closeUpvalues_loop_shape la open : forall m,
  exists u, (vm.closeUpvalues_loop la open m).2 = vm.set_upvalues u m.
Proof.
  induction open as [|uv rest IH]; intros m; cbn [vm.closeUpvalues_loop].
  - eexists. symmetry. apply set_upvalues_same.
  - destruct (vm.containsSlot m la (vm.location_of m uv)).
    + destruct (upvalue_close_shape uv m) as [u Hu]. rewrite Hu.
      destruct (IH (vm.set_upvalues u m)) as [u' Hu']. rewrite Hu'. eexists. reflexivity.
    + destruct (IH m) as [u Hu].
      destruct (vm.closeUpvalues_loop la rest m) as [f m']. cbn in *. eauto.
Qed.

Lemma closeUpvalues_shape la m :
  exists u o, vm.closeUpvalues la m = inl (tt, vm.set_openUpvalues o (vm.set_upvalues u m)).
Proof.
  unfold vm.closeUpvalues, modify. destruct (_ =? _)%nat.
  - exists (vm.upvalues m), (vm.openUpvalues m). destruct m; reflexivity.
  - destruct (closeUpvalues_loop_shape la (vm.openUpvalues m) m) as [u Hu].
    destruct (vm.closeUpvalues_loop la (vm.openUpvalues m) m) as [f m']. cbn in Hu. subst m'.
    eauto.
Qed.

Section Limit.

Variable growcap : nat -> nat.
Variable format_g : float64.t -> string.
Variable map_range_choice : nat -> nat -> nat.
Variable native_call : nat -> list vm.Value -> vm.Store -> (vm.Value * option vm.GoError) * vm.Store.
Variable builtinRegistry : Z -> option vm.builtinEntry.

Variables L c : Z.

Let anything (o : vm.Outcome) : Prop := True.

Lemma counts_finishFrame r :
  props.hoare (props.counts L c) (vm.finishFrame growcap r)
    (fun rd m' => if rd.2 then anything (vm.Done rd.1 m') else props.counts L c m') anything.
Proof.
  intros m Hm. unfold vm.finishFrame, bind at 1, vm.currentFrame.
  destruct (vm.frames m) as [|fr rest] eqn:Ef; [exact I|].
  unfold bind at 1. destruct (closeUpvalues_shape (vm.locals fr) m) as (u & o & ->).
  unfold bind, modify, vm.truncate_stack, vm.get_vm, get_state. cbn.
  destruct (_ <=? _)%nat; [|exact I]. rewrite Ef. cbn.
  destruct rest; [exact I|]. cbn.
  match goal with |- props.counts _ _ (if ?b then _ else _) => destruct b end; exact Hm.
Qed.

Lemma counts_dispatch op :
  props.inv (props.counts L c) anything
    (props.dispatch growcap format_g map_range_choice native_call builtinRegistry op).
Proof.
  apply inv_dispatch; try (intros; exact I); try (intros; assumption).
  - intros uv v m Hm. unfold vm.upvalue_set. destruct uv as [p|]; [|exact Hm].
    destruct (vm.upvalues m !! p) as [cell|]; [|exact Hm]. destruct (vm.location cell); exact Hm.
  - intros f m Hm. unfold vm.pushFrame. destruct f as [f|]; [|exact Hm].
    destruct (vm.Proto f); [|exact Hm]. destruct (_ <=? _); [exact Hm|].
    destruct (_ <? _); [exact I | exact Hm].
  - intros args m Hm. unfold vm.copyArgs, bind, vm.currentFrame.
    destruct (vm.frames m); [exact I | exact Hm].
  - intros m fr rest slot Hm _ _. unfold vm.captureUpvalue. destruct (find _ _); exact Hm.
  - apply counts_finishFrame.
Qed.

End Limit.

Lemma wrap64_in_int64 z : goint.in_int64 (goint.wrap64 z) = true.
Proof.
  unfold goint.in_int64, goint.wrap64, goint.minInt64, goint.maxInt64.
  pose proof (Z.mod_pos_bound (z + 2 ^ 63) (2 ^ 64) ltac:(lia)). lia.
Qed.

Lemma wrap64_add_l a b : goint.wrap64 (goint.wrap64 a + b) = goint.wrap64 (a + b).
Proof.
  unfold goint.wrap64. f_equal.
  replace ((a + 2 ^ 63) mod 2 ^ 64 - 2 ^ 63 + b + 2 ^ 63) with ((a + 2 ^ 63) mod 2 ^ 64 + b) by lia.
  rewrite Zplus_mod_idemp_l. f_equal. lia.
Qed.

Lemma wrap64_small z : goint.minInt64 <= z <= goint.maxInt64 -> goint.wrap64 z = z.
Proof.
  intros H. apply wrap64_id. unfold goint.in_int64. lia.
Qed.

Section Step.

Variable growcap : nat -> nat.
Variable format_g : float64.t -> string.
Variable map_range_choice : nat -> nat -> nat.
Variable native_call : nat -> list vm.Value -> vm.Store -> (vm.Value * option vm.GoError) * vm.Store.
Variable builtinRegistry : Z -> option vm.builtinEntry.

Local Abbreviation step := (vm.step growcap format_g map_range_choice native_call builtinRegistry).
Local Abbreviation dispatch :=
  (props.dispatch growcap format_g map_range_choice native_call builtinRegistry).
Local Abbreviation turns := (props.turns growcap format_g map_range_choice native_call builtinRegistry).
Local Abbreviation dispatched :=
  (props.dispatched growcap format_g map_range_choice native_call builtinRegistry).

Lemma codeAt_chunk fr i b :
  vm.codeAt fr i = Some b ->
  exists chunk, vm.chunk_of (vm.fn fr) = Some chunk /\ 0 <= i < vm.zlen (bytecode.Code chunk).
Proof.
  unfold vm.codeAt, vm.code_of, vm.zlookup, vm.zlen.
  destruct (vm.chunk_of (vm.fn fr)) as [chunk|].
  - intros H. exists chunk. split; [reflexivity|].
    destruct (i <? 0) eqn:Hi; [discriminate|]. apply Z.ltb_ge in Hi.
    destruct (bytecode.Code chunk !! Z.to_nat i) eqn:Hl; [|discriminate].
    apply lookup_lt_Some in Hl. lia.
  - destruct (i <? 0); [discriminate|]. rewrite lookup_nil. discriminate.
Qed.

(** A turn that dispatches: the bookkeeping, the test of the limit, the
    instruction. *)
Lemma step_dispatching m fr rest op :
  vm.frames m = fr :: rest -> vm.codeAt fr (vm.ip fr) = Some op ->
  step m =
    if (0 <? vm.instLimit m) && (vm.instLimit m <? goint.wrap64 (vm.instCount m + 1))
    then inr (vm.errorf_at vm.cur "instruction limit exceeded" (props.counted m))
    else dispatch op (props.counted m).
Proof.
  intros Ef Hop. destruct (codeAt_chunk _ _ _ Hop) as (chunk & Hchunk & Hip).
  unfold vm.step, bind, vm.currentFrame, vm.updFrame, modify, props.counted.
  repeat (rewrite Ef; cbn [vm.frames vm.set_frames vm.fn vm.set_lastOp vm.ip]).
  rewrite Hchunk. destruct (_ <=? _) eqn:Hle; [apply Z.leb_le in Hle; lia|].
  change (vm.codeAt (vm.set_lastOp (vm.ip fr) fr) (vm.ip fr)) with (vm.codeAt fr (vm.ip fr)).
  rewrite Hop. cbn [vm.frames vm.set_frames vm.fn vm.set_lastOp vm.ip vm.set_ip].
  unfold vm.get_vm, get_state.
  cbn [vm.instLimit vm.instCount vm.set_instCount vm.set_frames].
  destruct (_ && _); reflexivity.
Qed.

(** The error of the limit names the frame that was about to dispatch. *)
Lemma limit_error m fr rest :
  vm.frames m = fr :: rest -> 0 <= vm.ip fr ->
  exists v e,
    vm.errorf_at vm.cur "instruction limit exceeded" (props.counted m)
      = vm.Failed v e (props.counted m)
    /\ vm.Message e = "instruction limit exceeded"%string
    /\ vm.Frame e = vm.frameInfo (Some fr) (vm.ip fr).
Proof.
  intros Ef Hip. unfold vm.errorf_at. eexists _, _. split; [reflexivity|].
  split; [reflexivity|].
  unfold vm.newRuntimeError, vm.Frame, props.counted. rewrite Ef.
  cbn [vm.deref vm.cur vm.frames vm.set_instCount vm.set_frames lookup list_lookup].
  unfold vm.offsetForFrame. cbn [vm.lastOp vm.set_ip vm.set_lastOp].
  destruct (0 <=? vm.ip fr) eqn:H0; [reflexivity | apply Z.leb_gt in H0; lia].
Qed.

Section Counts.

Variables L c : Z.

Lemma counts_step_other m fr rest m' :
  vm.frames m = fr :: rest -> vm.codeAt fr (vm.ip fr) = None ->
  step m = inl (tt, m') -> props.counts L c m -> props.counts L c m'.
Proof.
  intros Ef Hop Hstep Hm. revert Hstep.
  unfold vm.step, bind, vm.currentFrame, vm.updFrame, modify.
  repeat (rewrite Ef; cbn [vm.frames vm.set_frames vm.fn vm.set_lastOp vm.ip]).
  destruct (vm.chunk_of (vm.fn fr)); [|discriminate].
  destruct (_ <=? _).
  - pose proof (counts_finishFrame growcap L c vm.Null
                  (vm.set_frames (vm.set_lastOp (vm.ip fr) fr :: rest) m) Hm) as H.
    destruct (vm.finishFrame _ _ _) as [[[v d] m1]|o]; [|discriminate].
    cbn [fst snd] in *. destruct d; [discriminate|]. intros Heq. inversion Heq. subst. exact H.
  - change (vm.codeAt (vm.set_lastOp (vm.ip fr) fr) (vm.ip fr)) with (vm.codeAt fr (vm.ip fr)).
    rewrite Hop. discriminate.
Qed.

End Counts.

Lemma dispatched_nonneg k : forall m, 0 <= dispatched k m.
Proof.
  induction k as [|k IH]; intros m; cbn [props.dispatched]; [lia|].
  destruct (step m) as [[u m']|o]; [|lia].
  specialize (IH m'). destruct (props.dispatching m); lia.
Qed.

(** The counter counts the dispatched instructions, and stays within a
    positive limit. *)
Lemma turns_count (L : Z) k : forall m0 m,
  vm.instLimit m0 = L -> goint.in_int64 (vm.instCount m0) = true ->
  (0 < L -> vm.instCount m0 <= L < goint.maxInt64) ->
  turns k m0 = Some m ->
  vm.instLimit m = L
  /\ vm.instCount m = goint.wrap64 (vm.instCount m0 + dispatched k m0)
  /\ (0 < L -> vm.instCount m0 + dispatched k m0 <= L).
Proof.
  induction k as [|k IH]; intros m0 m HL Hin Hle; cbn [props.turns props.dispatched].
  - intros Heq. inversion Heq. subst m. rewrite Z.add_0_r.
    split; [exact HL|]. split; [symmetry; apply wrap64_id, Hin | lia].
  - destruct (step m0) as [[[] m1]|o] eqn:Hstep; [|discriminate]. intros Hturns.
    unfold props.dispatching.
    destruct (vm.frames m0) as [|fr rest] eqn:Ef.
    { unfold vm.step, bind, vm.currentFrame in Hstep. rewrite Ef in Hstep. discriminate. }
    destruct (vm.codeAt fr (vm.ip fr)) as [op|] eqn:Hop.
    + rewrite bool_decide_eq_true_2 by eauto.
      rewrite (step_dispatching m0 fr rest op Ef Hop) in Hstep.
      destruct (_ && _) eqn:Hchk; [discriminate|].
      pose proof (counts_dispatch growcap format_g map_range_choice native_call builtinRegistry
                    L (goint.wrap64 (vm.instCount m0 + 1)) op (props.counted m0)) as Hd.
      rewrite Hstep in Hd. destruct Hd as [HL1 Hc1].
      { unfold props.counts, props.counted. rewrite Ef. split; [exact HL | reflexivity]. }
      rewrite HL in Hchk.
      assert (0 < L -> vm.instCount m1 = vm.instCount m0 + 1 /\ vm.instCount m1 <= L) as Hle1.
      { intros HLpos. apply andb_false_iff in Hchk. destruct Hchk as [Hchk|Hchk].
        - apply Z.ltb_ge in Hchk. lia.
        - apply Z.ltb_ge in Hchk. specialize (Hle HLpos).
          unfold goint.in_int64 in Hin. apply andb_true_iff in Hin.
          rewrite wrap64_small in Hchk
            by (unfold goint.maxInt64, goint.minInt64 in *; lia).
          rewrite Hc1, wrap64_small by (unfold goint.maxInt64, goint.minInt64 in *; lia).
          lia. }
      destruct (IH m1 m HL1) as (H1 & H2 & H3); [| |exact Hturns|].
      { rewrite Hc1. apply wrap64_in_int64. }
      { intros HLpos. destruct (Hle1 HLpos). specialize (Hle HLpos). lia. }
      split; [exact H1|]. split.
      * rewrite H2, Hc1, wrap64_add_l. f_equal. lia.
      * intros HLpos. destruct (Hle1 HLpos) as [Heq _]. specialize (H3 HLpos). lia.
    + rewrite bool_decide_eq_false_2 by (intros [x Hx]; discriminate).
      pose proof (counts_step_other L (vm.instCount m0) m0 fr rest m1 Ef Hop Hstep
                    (conj HL eq_refl)) as [HL1 Hc1].
      destruct (IH m1 m HL1) as (H1 & H2 & H3); [| |exact Hturns|].
      { rewrite Hc1. exact Hin. }
      { rewrite Hc1. exact Hle. }
      rewrite Hc1 in H2, H3. rewrite Z.add_0_l. auto.
Qed.

End Step.



(** ** Upvalue cells *)

Lemma find_app_singleton {A} (f : A -> bool) l x :
  find f (l ++ [x]) = match find f l with
                      | Some y => Some y
                      | None => if f x then Some x else None
                      end.
Proof.
  induction l as [|a l IH]; cbn [find app]; [reflexivity|].
  destruct (f a); [reflexivity | exact IH].
Qed.

Lemma find_ext_in {A} (f g : A -> bool) l :
  (forall x, x ∈ l -> f x = g x) -> find f l = find g l.
Proof.
  induction l as [|a l IH]; intros H; cbn [find]; [reflexivity|].
  rewrite (H a) by (left). destruct (g a); [reflexivity|].
  apply IH. intros x Hx. apply H. right. exact Hx.
Qed.

(** X2: [captureUpvalue] hands out one cell per slot: the cell it returns
    is on the open list and points at the slot, a second capture of the
    same slot returns the same cell and changes nothing, and when a cell
    for the slot was open already nothing is allocated at all. *)
Theorem captureUpvalue_shares_cell (slot : nat * nat) (m : vm.VM) :
  props.open_allocated m ->
  exists p m1,
    vm.captureUpvalue slot m = inl (p, m1)
    /\ p ∈ vm.openUpvalues m1
    /\ vm.location_of m1 p = Some slot
    /\ vm.captureUpvalue slot m1 = inl (p, m1)
    /\ ((exists q, q ∈ vm.openUpvalues m /\ vm.location_of m q = Some slot) -> m1 = m).
Proof.
  intros Hfresh. unfold vm.captureUpvalue at 1.
  destruct (find _ (vm.openUpvalues m)) as [p|] eqn:Hfind.
  - exists p, m. destruct (find_some _ _ Hfind) as [Hin Hloc].
    apply bool_decide_eq_true in Hloc. apply list_elem_of_In in Hin.
    split; [reflexivity|]. split; [exact Hin|]. split; [exact Hloc|].
    split; [|reflexivity].
    unfold vm.captureUpvalue. rewrite Hfind. reflexivity.
  - eexists _, _. split; [reflexivity|].
    set (p := vm.nextCell m).
    set (m1 := vm.set_openUpvalues _ _).
    assert (vm.location_of m1 p = Some slot) as Hloc.
    { unfold vm.location_of, m1. cbn. rewrite lookup_insert_eq. reflexivity. }
    split; [cbn; apply elem_of_app; right; left|].
    split; [exact Hloc|]. split.
    + unfold vm.captureUpvalue.
      replace (find _ (vm.openUpvalues m1)) with (Some p); [reflexivity|].
      symmetry. change (vm.openUpvalues m1) with (vm.openUpvalues m ++ [p]).
      rewrite find_app_singleton.
      rewrite (find_ext_in _ (fun q => bool_decide (vm.location_of m q = Some slot))).
      * rewrite Hfind, bool_decide_eq_true_2 by exact Hloc. reflexivity.
      * intros q Hq. unfold props.open_allocated in Hfresh. rewrite Forall_forall in Hfresh.
        specialize (Hfresh q Hq).
        unfold vm.location_of, m1. cbn. rewrite lookup_insert_ne by (unfold p; lia).
        reflexivity.
    + intros (q & Hq & Hlq). exfalso. apply list_elem_of_In in Hq.
      pose proof (find_none _ _ Hfind q Hq) as Hn. cbn in Hn.
      apply bool_decide_eq_false in Hn. contradiction.
Qed.

Lemma captureUpvalue_shares_cell_witness :
  exists p m1,
    vm.captureUpvalue (0%nat, 1%nat) props.with_locals = inl (p, m1)
    /\ p ∈ vm.openUpvalues m1
    /\ vm.location_of m1 p = Some (0%nat, 1%nat)
    /\ vm.captureUpvalue (0%nat, 1%nat) m1 = inl (p, m1)
    /\ ((exists q, q ∈ vm.openUpvalues props.with_locals
                   /\ vm.location_of props.with_locals q = Some (0%nat, 1%nat))
        -> m1 = props.with_locals).
Proof.
  apply (captureUpvalue_shares_cell (0%nat, 1%nat) props.with_locals).
  unfold props.open_allocated. cbn. constructor.
Defined.

Lemma readSlot_writeSlot slot v m :
  (slot.2 < length (default [] (vm.localsMem m !! slot.1)))%nat ->
  vm.readSlot (vm.writeSlot slot v m) slot = v.
Proof.
  intros H. unfold vm.readSlot, vm.writeSlot. cbn [vm.localsMem vm.set_localsMem].
  rewrite lookup_insert_eq. cbn [default from_option id].
  rewrite list_lookup_insert_eq by exact H. reflexivity.
Qed.

(** X3: what is written through a cell is what is read through it, for an
    open cell (the write goes to the slot of the frame) as for a closed one
    (the write goes to the cell); and the write of an open cell is the
    write of the local variable itself. *)
Theorem upvalue_set_then_get (p : nat) (v : vm.Value) (m : vm.VM) :
  is_Some (vm.upvalues m !! p) -> props.slot_valid m p ->
  vm.upvalue_get (Some p) (vm.upvalue_set (Some p) v m) = v
  /\ (forall slot, vm.location_of m p = Some slot ->
      vm.readSlot (vm.upvalue_set (Some p) v m) slot = v).
Proof.
  intros [c Hc] Hvalid. unfold props.slot_valid, vm.location_of in *. rewrite Hc in *.
  unfold vm.upvalue_set. rewrite Hc. destruct (vm.location c) as [slot|] eqn:Hloc.
  - split.
    + unfold vm.upvalue_get. cbn [vm.upvalues vm.writeSlot vm.set_localsMem].
      rewrite Hc, Hloc. apply readSlot_writeSlot, Hvalid.
    + intros slot' Heq. inversion Heq. subst slot'. apply readSlot_writeSlot, Hvalid.
  - split; [|discriminate].
    unfold vm.upvalue_get. cbn [vm.upvalues vm.set_upvalues].
    rewrite lookup_insert_eq. reflexivity.
Qed.

Lemma upvalue_set_then_get_witness :
  vm.upvalue_get (Some props.captured.1) (vm.upvalue_set (Some props.captured.1) (vm.Bool true) props.captured.2)
    = vm.Bool true
  /\ (forall slot, vm.location_of props.captured.2 props.captured.1 = Some slot ->
      vm.readSlot (vm.upvalue_set (Some props.captured.1) (vm.Bool true) props.captured.2) slot
        = vm.Bool true).
Proof.
  apply (upvalue_set_then_get props.captured.1 (vm.Bool true) props.captured.2).
  - vm_compute. eauto.
  - vm_compute. lia.
Defined.

(** X4: closing a cell keeps the value seen through it, cuts it from the
    slot (later writes to the local variable are not seen), and closing
    it a second time changes nothing. *)
Theorem upvalue_close_keeps_value (p : nat) (m : vm.VM) :
  vm.upvalue_get (Some p) (vm.upvalue_close p m) = vm.upvalue_get (Some p) m
  /\ (is_Some (vm.upvalues m !! p) ->
      forall slot w,
        vm.upvalue_get (Some p) (vm.writeSlot slot w (vm.upvalue_close p m))
          = vm.upvalue_get (Some p) m)
  /\ vm.upvalue_close p (vm.upvalue_close p m) = vm.upvalue_close p m.
Proof.
  unfold vm.upvalue_close, vm.upvalue_get.
  destruct (vm.upvalues m !! p) as [c|] eqn:Hc.
  - destruct (vm.location c) as [slot|] eqn:Hloc.
    + cbn [vm.upvalues vm.set_upvalues vm.writeSlot vm.set_localsMem].
      rewrite !lookup_insert_eq. cbn [vm.location vm.closed].
      split; [reflexivity|]. split; [reflexivity|]. reflexivity.
    + rewrite Hc, Hloc. cbn [vm.upvalues vm.writeSlot vm.set_localsMem].
      rewrite Hc, Hloc. auto.
  - rewrite Hc. split; [reflexivity|]. split; [|reflexivity]. intros [x Hx]. discriminate.
Qed.

(** ** Returning from a frame, for an invariant *)

Lemma finishFrame_inv (growcap : nat -> nat) (J : vm.VM -> Prop) (E : vm.Outcome -> Prop) r :
  (forall w, E (vm.Panic w)) ->
  (forall b n m, J m -> J (vm.set_stack b n m)) ->
  (forall la m, J m -> J (props.closeUpvalues_of la m)) ->
  (forall m, J m -> J (vm.set_frames (tail (vm.frames m)) m)) ->
  (forall v m, J m -> vm.frames m = [] -> E (vm.Done v m)) ->
  props.hoare J (vm.finishFrame growcap r)
    (fun rd m' => if rd.2 then E (vm.Done rd.1 m') else J m') E.
Proof.
  intros E_panic J_stack J_close J_tail E_done m Hm.
  unfold vm.finishFrame. unfold bind at 1. unfold vm.currentFrame.
  destruct (vm.frames m) as [|fr rest] eqn:Ef; [apply E_panic|].
  unfold bind at 1.
  pose proof (J_close (vm.locals fr) m Hm) as H1. unfold props.closeUpvalues_of in H1.
  destruct (vm.closeUpvalues (vm.locals fr) m) as [[[] m1]|o] eqn:Hclose;
    [|unfold vm.closeUpvalues, modify in Hclose; discriminate].
  unfold bind at 1. unfold modify at 1.
  pose proof (J_tail m1 H1) as H2. set (m2 := vm.set_frames _ m1) in *.
  unfold bind at 1. unfold vm.truncate_stack.
  destruct (_ <=? _)%nat; [|apply E_panic].
  pose proof (J_stack (vm.stack_buf m2) (vm.base fr) m2 H2) as H3.
  set (m3 := vm.set_stack _ _ m2) in *.
  unfold bind at 1. unfold vm.get_vm, get_state.
  destruct (vm.frames m3) eqn:Ef3.
  - cbn. apply E_done; assumption.
  - unfold bind, vm.push, modify. cbn [fst snd ret].
    destruct (_ <? _)%nat; cbn [snd]; apply J_stack, H3.
Qed.

Lemma turns_inv growcap format_g choice native registry (J : vm.VM -> Prop)
  (E : vm.Outcome -> Prop) :
  props.inv J E (vm.step growcap format_g choice native registry) ->
  forall k m m', J m -> props.turns growcap format_g choice native registry k m = Some m' -> J m'.
Proof.
  intros Hstep. induction k as [|k IH]; intros m m' Hm; cbn [props.turns].
  - intros H. inversion H. subst. exact Hm.
  - specialize (Hstep m Hm).
    destruct (vm.step _ _ _ _ _ m) as [[[] m1]|o]; [|discriminate]. apply IH, Hstep.
Qed.

(** ** Closed cells *)

Lemma is_closed_lookup m p :
  props.is_closed m p = true <-> exists c, vm.upvalues m !! p = Some c /\ vm.location c = None.
Proof.
  unfold props.is_closed. destruct (vm.upvalues m !! p) as [c|].
  - rewrite bool_decide_eq_true. split; [eauto | intros (c' & Hc & Hl); congruence].
  - split; [discriminate | intros (c & Hc & _); discriminate].
Qed.

Section Closed.

Variable C : nat -> Prop.

Lemma closed_in_upvalue_set uv v m : props.closed_in C m -> props.closed_in C (vm.upvalue_set uv v m).
Proof.
  intros [Hwf Hc]. unfold vm.upvalue_set. destruct uv as [p|]; [|split; assumption].
  destruct (vm.upvalues m !! p) as [c|] eqn:Hp; [|split; assumption].
  destruct (vm.location c) eqn:Hloc; [split; assumption|].
  split.
  - unfold props.cells_allocated in *. cbn [vm.upvalues vm.set_upvalues vm.nextCell].
    apply map_Forall_insert_2; [exact (Hwf p c Hp) | exact Hwf].
  - intros q Hq. specialize (Hc q Hq). unfold props.is_closed in *.
    cbn [vm.upvalues vm.set_upvalues].
    destruct (decide (q = p)) as [->|Hne].
    + rewrite lookup_insert_eq. reflexivity.
    + rewrite lookup_insert_ne by congruence. exact Hc.
Qed.

Lemma closed_in_upvalue_close p m : props.closed_in C m -> props.closed_in C (vm.upvalue_close p m).
Proof.
  intros [Hwf Hc]. unfold vm.upvalue_close.
  destruct (vm.upvalues m !! p) as [c|] eqn:Hp; [|split; assumption].
  destruct (vm.location c) eqn:Hloc; [|split; assumption].
  split.
  - unfold props.cells_allocated in *. cbn [vm.upvalues vm.set_upvalues vm.nextCell].
    apply map_Forall_insert_2; [exact (Hwf p c Hp) | exact Hwf].
  - intros q Hq. specialize (Hc q Hq). unfold props.is_closed in *.
    cbn [vm.upvalues vm.set_upvalues].
    destruct (decide (q = p)) as [->|Hne].
    + rewrite lookup_insert_eq. reflexivity.
    + rewrite lookup_insert_ne by congruence. exact Hc.
Qed.

Lemma closed_in_closeUpvalues_loop la open : forall m,
  props.closed_in C m -> props.closed_in C (vm.closeUpvalues_loop la open m).2.
Proof.
  induction open as [|uv rest IH]; intros m Hm; cbn [vm.closeUpvalues_loop]; [exact Hm|].
  destruct (vm.containsSlot m la (vm.location_of m uv)).
  - apply IH, closed_in_upvalue_close, Hm.
  - specialize (IH m Hm). destruct (vm.closeUpvalues_loop la rest m). exact IH.
Qed.

Lemma closed_in_closeUpvalues la m : props.closed_in C m -> props.closed_in C (props.closeUpvalues_of la m).
Proof.
  intros Hm. unfold props.closeUpvalues_of, vm.closeUpvalues, modify.
  destruct (_ =? _)%nat; [exact Hm|].
  pose proof (closed_in_closeUpvalues_loop la (vm.openUpvalues m) m Hm) as H.
  destruct (vm.closeUpvalues_loop la (vm.openUpvalues m) m) as [f m']. exact H.
Qed.

Lemma closed_in_captureUpvalue slot m :
  props.closed_in C m ->
  match vm.captureUpvalue slot m with
  | inl (_, m') => props.closed_in C m'
  | inr o => props.closed_after C o
  end.
Proof.
  intros [Hwf Hc]. unfold vm.captureUpvalue. destruct (find _ _); [split; assumption|].
  split.
  - unfold props.cells_allocated in *. cbn [vm.upvalues vm.set_upvalues vm.set_openUpvalues
      vm.set_nextCell vm.nextCell].
    apply map_Forall_insert_2; [lia|].
    intros q c Hq. specialize (Hwf q c Hq). cbn in *. lia.
  - intros q Hq. specialize (Hc q Hq). unfold props.is_closed in *.
    cbn [vm.upvalues vm.set_upvalues vm.set_openUpvalues vm.set_nextCell].
    destruct (vm.upvalues m !! q) as [c|] eqn:Hlq; [|discriminate].
    pose proof (Hwf q c Hlq) as Hlt. cbn in Hlt.
    rewrite lookup_insert_ne by lia. rewrite Hlq. exact Hc.
Qed.

Lemma closed_in_pushFrame f : props.inv (props.closed_in C) (props.closed_after C) (vm.pushFrame f).
Proof.
  intros m Hm. unfold vm.pushFrame. destruct f as [f|]; [|exact Hm].
  destruct (vm.Proto f); [|exact Hm]. destruct (_ <=? _); [exact Hm|].
  destruct (_ <? _); [exact I|].
  destruct Hm as [Hwf Hc]. split; [|exact Hc].
  intros q c Hq. specialize (Hwf q c Hq). cbn in *. lia.
Qed.

Lemma closed_in_step growcap format_g choice native registry :
  props.inv (props.closed_in C) (props.closed_after C)
    (vm.step growcap format_g choice native registry).
Proof.
  apply inv_step_turn; try (intros; assumption); try (intros; exact I).
  - intros uv v m Hm. apply closed_in_upvalue_set, Hm.
  - apply closed_in_pushFrame.
  - intros args m Hm. unfold vm.copyArgs, bind, vm.currentFrame.
    destruct (vm.frames m); [exact I | exact Hm].
  - intros m fr rest slot Hm _ _. apply closed_in_captureUpvalue, Hm.
  - intros r. apply finishFrame_inv; try (intros; assumption); try (intros; exact I).
    intros la m Hm. apply closed_in_closeUpvalues, Hm.
Qed.

End Closed.

Lemma Run_loop_inv growcap format_g choice native registry (J : vm.VM -> Prop)
  (E : vm.Outcome -> Prop) :
  props.inv J E (vm.step growcap format_g choice native registry) ->
  (forall m, J m -> vm.frames m = [] -> E (vm.Done vm.Null m)) ->
  forall fuel m, J m ->
    match vm.Run_loop growcap format_g choice native registry fuel m with
    | Some o => E o
    | None => True
    end.
Proof.
  intros Hstep Hdone. induction fuel as [|fuel IH]; intros m Hm; cbn [vm.Run_loop]; [exact I|].
  destruct (vm.frames m) eqn:Ef; [apply Hdone; assumption|].
  specialize (Hstep m Hm).
  destruct (vm.step _ _ _ _ _ m) as [[[] m']|o]; [apply IH, Hstep | exact Hstep].
Qed.

Lemma closed_in_Run_enter (C : nat -> Prop) native f args :
  props.inv (props.closed_in C) (props.closed_after C) (vm.Run_enter native f args).
Proof.
  intros m Hm. unfold vm.Run_enter, bind, modify.
  assert (props.closed_in C (vm.set_instCount 0 (vm.ResetState m))) as H0 by exact Hm.
  revert H0. generalize (vm.set_instCount 0 (vm.ResetState m)). clear m Hm. intros m Hm.
  destruct f as [f|]; [|exact Hm].
  destruct (vm.Native f) as [h|].
  - unfold vm.get_vm, get_state. destruct (native h args (vm.store m)) as [[val err] st].
    unfold vm.update_store, modify. destruct err; exact Hm.
  - pose proof (closed_in_pushFrame C (Some f) m Hm) as Hp.
    destruct (vm.pushFrame (Some f) m) as [[r m1]|o]; [|exact Hp].
    destruct r; [|exact Hp].
    unfold vm.copyArgs, bind, vm.currentFrame. destruct (vm.frames m1); [exact I | exact Hp].
Qed.

(** X5: a closed cell stays closed.  Whatever the machine runs from a
    state whose cells were handed out by its allocator, a cell that is
    closed is still there and closed after any number of turns of the
    loop, and in the machine that [Run] leaves, whether the function
    returns or fails. *)
Theorem closed_cell_stays_closed
  (growcap : nat -> nat) (format_g : float64.t -> string) (choice : nat -> nat -> nat)
  (native : nat -> list vm.Value -> vm.Store -> (vm.Value * option vm.GoError) * vm.Store)
  (registry : Z -> option vm.builtinEntry) (m : vm.VM) (p : nat) :
  props.cells_allocated m -> props.is_closed m p = true ->
  (forall k m', props.turns growcap format_g choice native registry k m = Some m' ->
                props.is_closed m' p = true)
  /\ (forall fuel f args o,
        vm.Run growcap format_g choice native registry fuel f args m = Some o ->
        match o with
        | vm.Done _ m' | vm.Failed _ _ m' => props.is_closed m' p = true
        | vm.Panic _ => True
        end).
Proof.
  intros Hwf Hp.
  assert (props.closed_in (fun q => q = p) m) as Hm.
  { split; [exact Hwf | intros q ->; exact Hp]. }
  split.
  - intros k m' Hk.
    apply (turns_inv growcap format_g choice native registry _ _
             (closed_in_step _ growcap format_g choice native registry) k m m' Hm Hk).
    reflexivity.
  - intros fuel f args o. unfold vm.Run.
    pose proof (closed_in_Run_enter (fun q => q = p) native f args m Hm) as He.
    destruct (vm.Run_enter native f args m) as [[[] m1]|o1].
    + intros Hrun.
      pose proof (Run_loop_inv growcap format_g choice native registry _ _
                    (closed_in_step _ growcap format_g choice native registry)
                    (fun m0 H _ => H) fuel m1 He) as Hl.
      rewrite Hrun in Hl. destruct o as [v m'|v e m'|w]; [| |exact I]; apply Hl; reflexivity.
    + intros Heq. inversion Heq. subst o1.
      destruct o as [v m'|v e m'|w]; [| |exact I]; apply He; reflexivity.
Qed.

Lemma closed_cell_stays_closed_witness :
  (forall k m', props.turns host.growcap host.format_g host.range_first host.native_call
                  host.builtinRegistry k props.captured_closed = Some m' ->
                props.is_closed m' props.captured.1 = true)
  /\ (forall fuel f args o,
        vm.Run host.growcap host.format_g host.range_first host.native_call
          host.builtinRegistry fuel f args props.captured_closed = Some o ->
        match o with
        | vm.Done _ m' | vm.Failed _ _ m' => props.is_closed m' props.captured.1 = true
        | vm.Panic _ => True
        end).
Proof.
  apply (closed_cell_stays_closed host.growcap host.format_g host.range_first host.native_call
           host.builtinRegistry props.captured_closed props.captured.1).
  - unfold props.cells_allocated.
    refine (bool_decide_unpack (map_Forall _ _) _). vm_compute. exact I.
  - vm_compute. reflexivity.
Defined.

(** ** The frames and the open cells *)

Lemma locals_length_writeSlot slot v m a :
  length (default [] (vm.localsMem (vm.writeSlot slot v m) !! a))
  = length (default [] (vm.localsMem m !! a)).
Proof.
  unfold vm.writeSlot. cbn [vm.localsMem vm.set_localsMem].
  destruct (decide (a = slot.1)) as [->|Hne].
  - rewrite lookup_insert_eq. cbn [default from_option id]. apply length_insert.
  - rewrite lookup_insert_ne by congruence. reflexivity.
Qed.

Lemma points_into_frame_ext m m' p :
  vm.location_of m' p = vm.location_of m p ->
  (forall a, a ∈ map vm.locals (vm.frames m) -> a ∈ map vm.locals (vm.frames m')) ->
  (forall a, a ∈ map vm.locals (vm.frames m) ->
             length (default [] (vm.localsMem m' !! a)) = length (default [] (vm.localsMem m !! a))) ->
  props.points_into_frame m p -> props.points_into_frame m' p.
Proof.
  intros Hloc Hfr Hlen (a & i & H1 & H2 & H3). exists a, i.
  split; [congruence|]. split; [auto|]. rewrite Hlen by exact H2. exact H3.
Qed.

Lemma frames_ok_set_head (f : vm.frame -> vm.frame) fr rest m :
  (forall x, vm.locals (f x) = vm.locals x) -> (forall x, vm.base (f x) = vm.base x) ->
  props.frames_ok m -> vm.frames m = fr :: rest ->
  props.frames_ok (vm.set_frames (f fr :: rest) m).
Proof.
  intros Hl Hb (Hlast & Hloc & Hnd & Halloc & Hopen) Ef.
  unfold props.frames_ok. cbn [vm.frames vm.set_frames vm.nextCell vm.openUpvalues].
  rewrite Ef in Hlast, Hloc.
  split; [|split; [|split; [exact Hnd | split; [exact Halloc|]]]].
  - destruct Hlast as (fr0 & Hlast & Hbase). destruct rest as [|fr1 rest].
    + cbn in *. inversion Hlast. subst fr0. exists (f fr). rewrite Hb. auto.
    + exists fr0. split; [|exact Hbase]. exact Hlast.
  - inversion Hloc as [|? ? Hh Ht]. subst. constructor; [rewrite Hl; exact Hh | exact Ht].
  - eapply Forall_impl; [exact Hopen|]. intros p Hp.
    apply (points_into_frame_ext m); [reflexivity| |reflexivity|exact Hp].
    intros a. rewrite Ef. cbn [map vm.frames vm.set_frames]. rewrite Hl. auto.
Qed.

Lemma frames_ok_writeSlot slot v m : props.frames_ok m -> props.frames_ok (vm.writeSlot slot v m).
Proof.
  intros (Hlast & Hloc & Hnd & Halloc & Hopen).
  split; [exact Hlast|]. split; [exact Hloc|]. split; [exact Hnd|]. split; [exact Halloc|].
  eapply Forall_impl; [exact Hopen|]. intros p Hp.
  apply (points_into_frame_ext m); [reflexivity | auto | | exact Hp].
  intros a _. apply locals_length_writeSlot.
Qed.

Lemma frames_ok_upvalue_set uv v m : props.frames_ok m -> props.frames_ok (vm.upvalue_set uv v m).
Proof.
  intros Hm. unfold vm.upvalue_set. destruct uv as [p|]; [|exact Hm].
  destruct (vm.upvalues m !! p) as [c|] eqn:Hp; [|exact Hm].
  destruct (vm.location c) eqn:Hloc; [apply frames_ok_writeSlot, Hm|].
  destruct Hm as (Hlast & Hl & Hnd & Halloc & Hopen).
  split; [exact Hlast|]. split; [exact Hl|]. split; [exact Hnd|]. split; [exact Halloc|].
  rewrite Forall_forall in Hopen |- *. intros q Hq. specialize (Hopen q Hq).
  apply (points_into_frame_ext m); [|auto|reflexivity|exact Hopen].
  destruct Hopen as (a & i & Hlq & _). unfold vm.location_of in *.
  cbn [vm.upvalues vm.set_upvalues].
  destruct (decide (q = p)) as [->|Hne]; [rewrite Hp in Hlq; congruence|].
  rewrite lookup_insert_ne by congruence. reflexivity.
Qed.

Lemma frames_ok_pushFrame f :
  props.inv props.frames_ok props.settled (vm.pushFrame f).
Proof.
  intros m Hm. unfold vm.pushFrame. destruct f as [f|]; [|exact Hm].
  destruct (vm.Proto f) as [proto|]; [|exact Hm]. destruct (_ <=? _); [exact Hm|].
  destruct (_ <? _); [exact I|].
  destruct Hm as (Hlast & Hloc & Hnd & Halloc & Hopen).
  unfold props.frames_ok, props.open_allocated.
  cbn [vm.frames vm.set_frames vm.set_nextCell vm.set_localsMem vm.nextCell vm.openUpvalues].
  split; [|split; [|split; [exact Hnd | split]]].
  - destruct Hlast as (fr0 & Hlast & Hbase). exists fr0. split; [|exact Hbase].
    destruct (vm.frames m); [discriminate | exact Hlast].
  - constructor; [cbn; lia|]. eapply Forall_impl; [exact Hloc|]. cbn. intros; lia.
  - eapply Forall_impl; [exact Halloc|]. cbn. intros; lia.
  - rewrite Forall_forall in Hopen |- *. intros p Hp.
    destruct (Hopen p Hp) as (a & i & H1 & H2 & H3). exists a, i.
    split; [exact H1|]. split; [cbn; right; exact H2|].
    cbn [vm.localsMem vm.set_localsMem vm.set_frames vm.set_nextCell].
    rewrite Forall_forall in Hloc. apply list_elem_of_fmap in H2. destruct H2 as (fr & -> & Hfr).
    specialize (Hloc fr Hfr). cbn in Hloc. rewrite lookup_insert_ne by lia. exact H3.
Qed.

Lemma frames_ok_copyArgs args :
  props.inv props.frames_ok props.settled (vm.copyArgs args).
Proof.
  intros m Hm. unfold vm.copyArgs, bind, vm.currentFrame.
  destruct (vm.frames m) as [|fr rest] eqn:Ef; [exact I|]. unfold modify.
  destruct Hm as (Hlast & Hloc & Hnd & Halloc & Hopen).
  split; [exact Hlast|]. split; [exact Hloc|]. split; [exact Hnd|]. split; [exact Halloc|].
  eapply Forall_impl; [exact Hopen|]. intros p Hp.
  apply (points_into_frame_ext m); [reflexivity | auto | | exact Hp].
  intros a _. cbn [vm.localsMem vm.set_localsMem].
  destruct (decide (a = vm.locals fr)) as [->|Hne].
  - rewrite lookup_insert_eq. cbn [default from_option id].
    rewrite length_app, length_take, length_drop. lia.
  - rewrite lookup_insert_ne by congruence. reflexivity.
Qed.

Lemma frames_ok_captureUpvalue m fr rest slot :
  props.frames_ok m -> vm.frames m = fr :: rest -> 0 <= slot < vm.localsLen m fr ->
  match vm.captureUpvalue (vm.locals fr, Z.to_nat slot) m with
  | inl (_, m') => props.frames_ok m'
  | inr o => props.settled o
  end.
Proof.
  intros Hm Ef Hslot. unfold vm.captureUpvalue. destruct (find _ _); [exact Hm|].
  destruct Hm as (Hlast & Hloc & Hnd & Halloc & Hopen).
  unfold props.frames_ok, props.open_allocated.
  cbn [vm.frames vm.set_openUpvalues vm.set_nextCell vm.set_upvalues vm.nextCell
       vm.openUpvalues].
  unfold props.open_allocated in Halloc.
  split; [exact Hlast|]. split; [|split; [|split]].
  - eapply Forall_impl; [exact Hloc|]. cbn. intros; lia.
  - apply NoDup_app. split; [exact Hnd|]. split; [|apply NoDup_singleton].
    intros p Hp Hp'. apply list_elem_of_singleton in Hp'. subst p.
    rewrite Forall_forall in Halloc. specialize (Halloc _ Hp). lia.
  - apply Forall_app. split; [|constructor; [lia | constructor]].
    eapply Forall_impl; [exact Halloc|]. cbn. intros; lia.
  - apply Forall_app. split.
    + rewrite Forall_forall in Hopen, Halloc |- *. intros p Hp.
      apply (points_into_frame_ext m); [|auto|reflexivity|exact (Hopen p Hp)].
      unfold vm.location_of. cbn [vm.upvalues vm.set_openUpvalues vm.set_nextCell vm.set_upvalues].
      specialize (Halloc p Hp). rewrite lookup_insert_ne by lia. reflexivity.
    + constructor; [|constructor]. exists (vm.locals fr), (Z.to_nat slot).
      split; [|split].
      * unfold vm.location_of.
        cbn [vm.upvalues vm.set_openUpvalues vm.set_nextCell vm.set_upvalues].
        rewrite lookup_insert_eq. reflexivity.
      * cbn [vm.frames vm.set_openUpvalues vm.set_nextCell vm.set_upvalues]. rewrite Ef.
        cbn. left.
      * cbn [vm.localsMem vm.set_openUpvalues vm.set_nextCell vm.set_upvalues].
        unfold vm.localsLen, vm.zlen in Hslot. lia.
Qed.

Lemma location_of_upvalue_close uv m q :
  vm.location_of (vm.upvalue_close uv m) q
  = if decide (q = uv) then None else vm.location_of m q.
Proof.
  unfold vm.upvalue_close, vm.location_of.
  destruct (vm.upvalues m !! uv) as [c|] eqn:Huv.
  - destruct (vm.location c) eqn:Hloc.
    + cbn [vm.upvalues vm.set_upvalues]. destruct (decide (q = uv)) as [->|Hne].
      * rewrite lookup_insert_eq. reflexivity.
      * rewrite lookup_insert_ne by congruence. reflexivity.
    + destruct (decide (q = uv)) as [->|Hne]; [rewrite Huv; exact Hloc | reflexivity].
  - destruct (decide (q = uv)) as [->|Hne]; [rewrite Huv; reflexivity | reflexivity].
Qed.

Lemma containsSlot_set_upvalues u m la x :
  vm.containsSlot (vm.set_upvalues u m) la x = vm.containsSlot m la x.
Proof. reflexivity. Qed.

(** The loop of [closeUpvalues]: the cells it keeps are cells of the list
    that do not point into the array, and they are left as they were. *)
Lemma closeUpvalues_loop_spec la open : forall m,
  NoDup open ->
  NoDup (vm.closeUpvalues_loop la open m).1
  /\ (forall p, p ∈ (vm.closeUpvalues_loop la open m).1 ->
        p ∈ open /\ vm.containsSlot m la (vm.location_of m p) = false)
  /\ (forall q, q ∉ open \/ vm.containsSlot m la (vm.location_of m q) = false ->
        vm.location_of (vm.closeUpvalues_loop la open m).2 q = vm.location_of m q).
Proof.
  induction open as [|uv rest IH]; intros m Hnd; cbn [vm.closeUpvalues_loop].
  - cbn. split; [constructor|]. split; [intros p Hp; inversion Hp | reflexivity].
  - apply NoDup_cons in Hnd. destruct Hnd as [Huv Hnd].
    destruct (vm.containsSlot m la (vm.location_of m uv)) eqn:Hc.
    + destruct (upvalue_close_shape uv m) as [u Hu].
      destruct (IH (vm.upvalue_close uv m) Hnd) as (H1 & H2 & H3).
      split; [exact H1|]. split.
      * intros p Hp. destruct (H2 p Hp) as [Hin Hcs]. split; [right; exact Hin|].
        rewrite Hu, containsSlot_set_upvalues, <- Hu in Hcs.
        rewrite location_of_upvalue_close in Hcs.
        destruct (decide (p = uv)) as [->|Hne]; [contradiction | exact Hcs].
      * intros q Hq.
        assert (q <> uv) as Hne.
        { intros ->. destruct Hq as [Hq|Hq]; [apply Hq; left | congruence]. }
        rewrite H3.
        -- rewrite location_of_upvalue_close. destruct (decide (q = uv)); [contradiction|].
           reflexivity.
        -- destruct Hq as [Hq|Hq].
           ++ left. intros Hin. apply Hq. right. exact Hin.
           ++ right. rewrite Hu, containsSlot_set_upvalues, <- Hu.
              rewrite location_of_upvalue_close. destruct (decide (q = uv)); [contradiction|].
              exact Hq.
    + destruct (IH m Hnd) as (H1 & H2 & H3).
      destruct (vm.closeUpvalues_loop la rest m) as [f m'] eqn:Hloop. cbn [fst snd] in *.
      split; [|split].
      * apply NoDup_cons. split; [|exact H1]. intros Hin. apply Huv. apply (H2 uv Hin).
      * intros p Hp. apply elem_of_cons in Hp. destruct Hp as [->|Hp].
        -- split; [left | exact Hc].
        -- destruct (H2 p Hp) as [Hin Hcs]. split; [right; exact Hin | exact Hcs].
      * intros q Hq. apply H3. destruct Hq as [Hq|Hq]; [|right; exact Hq].
        left. intros Hin. apply Hq. right. exact Hin.
Qed.

(** [closeUpvalues]: afterwards no open cell points into the array. *)
Lemma closeUpvalues_spec la m :
  NoDup (vm.openUpvalues m) ->
  exists u o,
    props.closeUpvalues_of la m = vm.set_openUpvalues o (vm.set_upvalues u m)
    /\ NoDup o
    /\ forall p, p ∈ o ->
         p ∈ vm.openUpvalues m
         /\ vm.location_of (props.closeUpvalues_of la m) p = vm.location_of m p
         /\ (forall i, vm.location_of m p = Some (la, i) ->
               (length (default [] (vm.localsMem m !! la)) <= i)%nat).
Proof.
  intros Hnd. unfold props.closeUpvalues_of, vm.closeUpvalues, modify.
  destruct (length (default [] (vm.localsMem m !! la)) =? 0)%nat eqn:Hlen.
  - apply Nat.eqb_eq in Hlen. exists (vm.upvalues m), (vm.openUpvalues m).
    split; [destruct m; reflexivity|]. split; [exact Hnd|].
    intros p Hp. split; [exact Hp|]. split; [reflexivity|]. intros i _. lia.
  - destruct (closeUpvalues_loop_spec la (vm.openUpvalues m) m Hnd) as (H1 & H2 & H3).
    destruct (closeUpvalues_loop_shape la (vm.openUpvalues m) m) as [u Hu].
    destruct (vm.closeUpvalues_loop la (vm.openUpvalues m) m) as [f m'] eqn:Hloop.
    cbn [fst snd] in *. subst m'. exists u, f. split; [reflexivity|]. split; [exact H1|].
    intros p Hp. destruct (H2 p Hp) as [Hin Hcs]. split; [exact Hin|].
    split; [apply (H3 p); right; exact Hcs|].
    intros i Hloc. rewrite Hloc in Hcs. unfold vm.containsSlot in Hcs.
    rewrite Nat.eqb_refl in Hcs. cbn [andb] in Hcs. apply Nat.ltb_ge in Hcs. exact Hcs.
Qed.

Lemma closeUpvalues_run la m : vm.closeUpvalues la m = inl (tt, props.closeUpvalues_of la m).
Proof. reflexivity. Qed.

Lemma frames_ok_finishFrame growcap r :
  props.hoare props.frames_ok (vm.finishFrame growcap r)
    (fun rd m' => if rd.2 then props.settled (vm.Done rd.1 m') else props.frames_ok m') props.settled.
Proof.
  intros m (Hlast & Hloc & Hnd & Halloc & Hopen).
  unfold vm.finishFrame. unfold bind at 1. unfold vm.currentFrame.
  destruct (vm.frames m) as [|fr rest] eqn:Ef; [exact I|].
  unfold bind at 1. rewrite closeUpvalues_run.
  destruct (closeUpvalues_spec (vm.locals fr) m Hnd) as (u & o & Heq & Hnd' & Hspec).
  rewrite Heq in Hspec |- *. clear Heq.
  assert (forall p, p ∈ o ->
            vm.location_of (vm.set_openUpvalues o (vm.set_upvalues u m)) p = vm.location_of m p
            /\ exists a i, vm.location_of m p = Some (a, i)
                           /\ a ∈ map vm.locals rest
                           /\ (i < length (default [] (vm.localsMem m !! a)))%nat) as Hkept.
  { intros p Hp. destruct (Hspec p Hp) as (Hin & Hsame & Hout). split; [exact Hsame|].
    rewrite Forall_forall in Hopen. destruct (Hopen p Hin) as (a & i & H1 & H2 & H3).
    exists a, i. split; [exact H1|]. split; [|exact H3].
    rewrite Ef in H2. cbn [map] in H2. apply elem_of_cons in H2. destruct H2 as [->|H2].
    - specialize (Hout i H1). lia.
    - exact H2. }
  unfold bind at 1. unfold modify at 1.
  cbn [vm.frames vm.set_openUpvalues vm.set_upvalues]. rewrite Ef. cbn [tail].
  unfold bind at 1. unfold vm.truncate_stack.
  destruct (_ <=? _)%nat; [|exact I].
  unfold bind at 1. unfold vm.get_vm, get_state.
  cbn [vm.frames vm.set_stack vm.set_frames vm.set_openUpvalues vm.set_upvalues].
  destruct rest as [|fr1 rest].
  - cbn [ret fst snd props.settled vm.stack_len vm.openUpvalues vm.set_stack vm.set_frames
         vm.set_openUpvalues].
    split.
    + destruct Hlast as (fr0 & Hl & Hb). cbn in Hl. inversion Hl. subst fr0. exact Hb.
    + destruct o as [|p o]; [reflexivity|].
      destruct (Hkept p) as (_ & a & i & _ & Ha & _); [left|]. cbn in Ha. inversion Ha.
  - unfold bind, vm.push, modify. cbn [fst snd ret].
    match goal with |- props.frames_ok (if ?b then _ else _) => destruct b end.
    all: unfold props.frames_ok, props.open_allocated;
      cbn [vm.frames vm.nextCell vm.openUpvalues vm.set_stack vm.set_frames
           vm.set_openUpvalues vm.set_upvalues].
    all: (split; [|split; [|split; [exact Hnd'|split]]]).
    all: try (destruct Hlast as (fr0 & Hl & Hb); exists fr0; split; [exact Hl | exact Hb]).
    all: try (inversion Hloc; assumption).
    all: try (rewrite Forall_forall; intros p Hp; destruct (Hspec p Hp) as (Hin & _);
              unfold props.open_allocated in Halloc; rewrite Forall_forall in Halloc;
              exact (Halloc p Hin)).
    all: rewrite Forall_forall; intros p Hp;
      destruct (Hkept p Hp) as (Hsame & a & i & H1 & H2 & H3);
      exists a, i; (split; [rewrite <- H1; exact Hsame | split; [exact H2 | exact H3]]).
Qed.

Lemma frames_ok_step growcap format_g choice native registry :
  props.inv props.frames_ok props.settled (vm.step growcap format_g choice native registry).
Proof.
  apply inv_step_turn; try (intros; assumption); try (intros; exact I).
  - intros x fr rest m Hm Ef. apply frames_ok_set_head; auto.
  - intros x fr rest m Hm Ef. apply frames_ok_set_head; auto.
  - intros slot v m Hm. apply frames_ok_writeSlot, Hm.
  - intros uv v m Hm. apply frames_ok_upvalue_set, Hm.
  - apply frames_ok_pushFrame.
  - apply frames_ok_copyArgs.
  - intros m fr rest slot. apply frames_ok_captureUpvalue.
  - apply frames_ok_finishFrame.
Qed.

Lemma frames_ok_Run_enter native f args m :
  match vm.Run_enter native f args m with
  | inl (_, m') => props.frames_ok m'
  | inr o => props.settled o
  end.
Proof.
  unfold vm.Run_enter, bind, modify.
  assert (vm.frames (vm.set_instCount 0 (vm.ResetState m)) = []
          /\ vm.stack_len (vm.set_instCount 0 (vm.ResetState m)) = 0%nat
          /\ vm.openUpvalues (vm.set_instCount 0 (vm.ResetState m)) = []) as H0.
  { auto. }
  revert H0. generalize (vm.set_instCount 0 (vm.ResetState m)). clear m.
  intros m (Hf & Hs & Ho).
  destruct f as [f|]; [|exact I].
  destruct (vm.Native f) as [h|].
  - unfold vm.get_vm, get_state. destruct (native h args (vm.store m)) as [[val err] st].
    unfold vm.update_store, modify. destruct err; [exact I|]. split; assumption.
  - unfold vm.pushFrame. destruct (vm.Proto f) as [proto|]; [|exact I].
    destruct (_ <=? _); [exact I|]. destruct (_ <? _); [exact I|].
    apply frames_ok_copyArgs.
    unfold props.frames_ok, props.open_allocated.
    cbn [vm.frames vm.nextCell vm.openUpvalues vm.set_frames vm.set_nextCell
         vm.set_localsMem].
    rewrite Hf, Ho, Hs. split; [eexists; split; [reflexivity | reflexivity]|].
    split; [constructor; [cbn; lia | constructor]|].
    split; [constructor|]. split; constructor.
Qed.

Lemma inv_conj {A} (J1 J2 : vm.VM -> Prop) (E1 E2 : vm.Outcome -> Prop) (c : vm.M A) :
  props.inv J1 E1 c -> props.inv J2 E2 c ->
  props.inv (fun m => J1 m /\ J2 m) (fun o => E1 o /\ E2 o) c.
Proof.
  intros H1 H2 m [Hm1 Hm2]. specialize (H1 m Hm1). specialize (H2 m Hm2).
  destruct (c m) as [[a m']|o]; split; assumption.
Qed.

Lemma tracked_upvalue_set n0 uv v m : props.tracked n0 m -> props.tracked n0 (vm.upvalue_set uv v m).
Proof.
  intros Hm. unfold vm.upvalue_set. destruct uv as [p|]; [|exact Hm].
  destruct (vm.upvalues m !! p) as [c|] eqn:Hp; [|exact Hm].
  destruct (vm.location c) eqn:Hloc; [exact Hm|].
  intros q Hq. destruct (Hm q Hq) as [Hn|Ho]; [left | right; exact Ho].
  unfold vm.location_of in *. cbn [vm.upvalues vm.set_upvalues].
  destruct (decide (q = p)) as [->|Hne].
  - rewrite lookup_insert_eq. reflexivity.
  - rewrite lookup_insert_ne by congruence. exact Hn.
Qed.

Lemma tracked_captureUpvalue n0 slot m :
  props.tracked n0 m ->
  match vm.captureUpvalue slot m with
  | inl (_, m') => props.tracked n0 m'
  | inr o => props.tracked_after n0 o
  end.
Proof.
  intros Hm. unfold vm.captureUpvalue. destruct (find _ _); [exact Hm|].
  intros q Hq. cbn [vm.openUpvalues vm.set_openUpvalues].
  destruct (decide (q = vm.nextCell m)) as [->|Hne].
  - right. apply elem_of_app. right. apply list_elem_of_singleton. reflexivity.
  - destruct (Hm q Hq) as [Hn|Ho].
    + left. unfold vm.location_of in *.
      cbn [vm.upvalues vm.set_openUpvalues vm.set_nextCell vm.set_upvalues].
      rewrite lookup_insert_ne by congruence. exact Hn.
    + right. apply elem_of_app. left. exact Ho.
Qed.

(** The loop of [closeUpvalues] closes every cell it takes off the list,
    and opens none. *)
Lemma closeUpvalues_loop_closes la open : forall m q,
  (vm.location_of m q = None -> vm.location_of (vm.closeUpvalues_loop la open m).2 q = None)
  /\ (q ∈ open ->
      q ∈ (vm.closeUpvalues_loop la open m).1
      \/ vm.location_of (vm.closeUpvalues_loop la open m).2 q = None).
Proof.
  induction open as [|uv rest IH]; intros m q; cbn [vm.closeUpvalues_loop].
  - split; [auto | intros H; inversion H].
  - destruct (vm.containsSlot m la (vm.location_of m uv)).
    + destruct (IH (vm.upvalue_close uv m) q) as [Ha Hb]. split.
      * intros Hn. apply Ha. rewrite location_of_upvalue_close.
        destruct (decide (q = uv)); [reflexivity | exact Hn].
      * intros Hin. apply elem_of_cons in Hin. destruct Hin as [->|Hin]; [|auto].
        right. apply Ha. rewrite location_of_upvalue_close.
        destruct (decide (uv = uv)); [reflexivity | contradiction].
    + destruct (IH m q) as [Ha Hb].
      destruct (vm.closeUpvalues_loop la rest m) as [f m'] eqn:Hloop. cbn [fst snd] in *.
      split; [exact Ha|].
      intros Hin. apply elem_of_cons in Hin. destruct Hin as [->|Hin].
      * left. left.
      * destruct (Hb Hin) as [H|H]; [left; right; exact H | right; exact H].
Qed.

Lemma tracked_closeUpvalues n0 la m : props.tracked n0 m -> props.tracked n0 (props.closeUpvalues_of la m).
Proof.
  intros Hm. unfold props.closeUpvalues_of, vm.closeUpvalues, modify.
  destruct (length (default [] (vm.localsMem m !! la)) =? 0)%nat; [exact Hm|].
  intros q Hq. destruct (closeUpvalues_loop_closes la (vm.openUpvalues m) m q) as [Ha Hb].
  destruct (vm.closeUpvalues_loop la (vm.openUpvalues m) m) as [f m'] eqn:Hloop.
  cbn [fst snd] in *.
  destruct (Hm q Hq) as [Hn|Ho].
  - left. exact (Ha Hn).
  - destruct (Hb Ho) as [H|H]; [right; exact H | left; exact H].
Qed.

Lemma tracked_pushFrame n0 f : props.inv (props.tracked n0) (props.tracked_after n0) (vm.pushFrame f).
Proof.
  intros m Hm. unfold vm.pushFrame. destruct f as [f|]; [|exact Hm].
  destruct (vm.Proto f) as [proto|]; [|exact Hm]. destruct (_ <=? _); [exact Hm|].
  destruct (_ <? _); [exact I|]. exact Hm.
Qed.

Lemma tracked_copyArgs n0 args : props.inv (props.tracked n0) (props.tracked_after n0) (vm.copyArgs args).
Proof.
  intros m Hm. unfold vm.copyArgs, bind, vm.currentFrame.
  destruct (vm.frames m); [exact I | exact Hm].
Qed.

Lemma tracked_step n0 growcap format_g choice native registry :
  props.inv (props.tracked n0) (props.tracked_after n0)
    (vm.step growcap format_g choice native registry).
Proof.
  apply inv_step_turn; try (intros; assumption); try (intros; exact I).
  - intros uv v m Hm. apply tracked_upvalue_set, Hm.
  - apply tracked_pushFrame.
  - apply tracked_copyArgs.
  - intros m fr rest slot Hm _ _. apply tracked_captureUpvalue, Hm.
  - intros r. apply finishFrame_inv; try (intros; assumption); try (intros; exact I).
    intros la m Hm. apply tracked_closeUpvalues, Hm.
Qed.

(** [Run] starts with every cell below the allocator's next index, so that
    the cells from there on are the cells the run creates. *)
Lemma tracked_Run_enter native f args m :
  props.cells_allocated m ->
  match vm.Run_enter native f args m with
  | inl (_, m') => props.tracked (vm.nextCell m) m'
  | inr o => props.tracked_after (vm.nextCell m) o
  end.
Proof.
  intros Hal.
  assert (props.tracked (vm.nextCell m) (vm.set_instCount 0 (vm.ResetState m))) as H0.
  { intros p Hp. left. unfold vm.location_of.
    change (vm.upvalues (vm.set_instCount 0 (vm.ResetState m))) with (vm.upvalues m).
    destruct (vm.upvalues m !! p) as [c|] eqn:Hc; [|reflexivity].
    specialize (Hal p c Hc). cbn in Hal. lia. }
  unfold vm.Run_enter, bind, modify.
  revert H0. generalize (vm.set_instCount 0 (vm.ResetState m)). generalize (vm.nextCell m).
  clear m Hal. intros n0 m Hm.
  destruct f as [f|]; [|exact I].
  destruct (vm.Native f) as [h|].
  - unfold vm.get_vm, get_state. destruct (native h args (vm.store m)) as [[val err] st].
    unfold vm.update_store, modify. destruct err; [exact I | exact Hm].
  - pose proof (tracked_pushFrame n0 (Some f) m Hm) as Hp.
    destruct (vm.pushFrame (Some f) m) as [[r m1]|o]; [|exact Hp].
    destruct r; [|exact I].
    apply tracked_copyArgs, Hp.
Qed.



(** ** The depth of the call stack *)

Section Depth.

Variable F : Z.

Lemma depth_within_pushFrame f :
  props.inv (props.depth_within F) (props.depth_after F) (vm.pushFrame f).
Proof.
  intros m [HF Hd]. unfold vm.pushFrame. destruct f as [f|]; [|split; assumption].
  destruct (vm.Proto f) as [proto|]; [|split; assumption].
  destruct (vm.maxFrames m <=? vm.zlen (vm.frames m)) eqn:Hle; [split; assumption|].
  apply Z.leb_gt in Hle. destruct (_ <? _); [exact I|].
  split; [exact HF|]. unfold vm.zlen in *.
  cbn [vm.frames vm.set_frames vm.set_nextCell vm.set_localsMem length]. lia.
Qed.

Lemma depth_within_step growcap format_g choice native registry :
  props.inv (props.depth_within F) (props.depth_after F)
    (vm.step growcap format_g choice native registry).
Proof.
  assert (forall v e m, props.depth_within F m -> props.depth_after F (vm.Failed v e m)) as Hfail.
  { intros v e m [HF Hd]. split; [exact HF | lia]. }
  apply inv_step_turn; try (intros; assumption); try (intros; exact I).
  - exact Hfail.
  - intros x fr rest m [HF Hd] Ef. split; [exact HF|]. rewrite Ef in Hd. exact Hd.
  - intros x fr rest m [HF Hd] Ef. split; [exact HF|]. rewrite Ef in Hd. exact Hd.
  - intros uv v m Hm. unfold vm.upvalue_set. destruct uv as [p|]; [|exact Hm].
    destruct (vm.upvalues m !! p) as [c|]; [|exact Hm]. destruct (vm.location c); exact Hm.
  - apply depth_within_pushFrame.
  - intros args m Hm. unfold vm.copyArgs, bind, vm.currentFrame.
    destruct (vm.frames m); [exact I | exact Hm].
  - intros m fr rest slot Hm _ _. unfold vm.captureUpvalue. destruct (find _ _); exact Hm.
  - intros r. apply finishFrame_inv; try (intros; assumption); try (intros; exact I).
    + intros la m Hm. destruct (closeUpvalues_shape la m) as (u & o & Heq).
      unfold props.closeUpvalues_of. rewrite Heq. exact Hm.
    + intros m [HF Hd]. split; [exact HF|]. unfold vm.zlen in *.
      cbn [vm.frames vm.set_frames]. destruct (vm.frames m); cbn [tail length] in *; lia.
    + intros v m [HF Hd] Hf. split; [exact HF|]. rewrite Hf. unfold vm.zlen. cbn [length]. lia.
Qed.

End Depth.

(** X7: the call stack never grows beyond [maxFrames].  From the entry of
    [Run] on, after any number of turns of the loop, the machine has at
    most [maxFrames] frames, and [maxFrames] is what it was. *)
Theorem call_depth_is_bounded
  (growcap : nat -> nat) (format_g : float64.t -> string) (choice : nat -> nat -> nat)
  (native : nat -> list vm.Value -> vm.Store -> (vm.Value * option vm.GoError) * vm.Store)
  (registry : Z -> option vm.builtinEntry)
  (f : option vm.Function) (args : list vm.Value) (m m0 : vm.VM) (k : nat) (m' : vm.VM) :
  vm.Run_enter native f args m = inl (tt, m0) ->
  props.turns growcap format_g choice native registry k m0 = Some m' ->
  vm.zlen (vm.frames m') <= vm.maxFrames m /\ vm.maxFrames m' = vm.maxFrames m.
Proof.
  intros Henter Hturns.
  assert (props.depth_within (vm.maxFrames m) m0) as H0.
  { revert Henter. unfold vm.Run_enter, bind, modify.
    assert (vm.maxFrames (vm.set_instCount 0 (vm.ResetState m)) = vm.maxFrames m
            /\ vm.frames (vm.set_instCount 0 (vm.ResetState m)) = []) as H by auto.
    revert H. generalize (vm.set_instCount 0 (vm.ResetState m)). intros m1 [HF Hf].
    destruct f as [f|]; [|discriminate].
    destruct (vm.Native f) as [h|].
    - unfold vm.get_vm, get_state. destruct (native h args (vm.store m1)) as [[val err] st].
      unfold vm.update_store, modify. destruct err; discriminate.
    - pose proof (depth_within_pushFrame (vm.maxFrames m) (Some f) m1) as Hp.
      destruct (vm.pushFrame (Some f) m1) as [[r m2]|o] eqn:Hpush; [|discriminate].
      destruct r; [|discriminate].
      unfold vm.copyArgs, bind, vm.currentFrame. destruct (vm.frames m2) eqn:Ef2; [discriminate|].
      unfold modify. intros Heq. inversion Heq. subst m0.
      revert Hpush. unfold vm.pushFrame. destruct (vm.Proto f) as [proto|]; [|discriminate].
      destruct (vm.maxFrames m1 <=? vm.zlen (vm.frames m1)) eqn:Hle; [discriminate|].
      apply Z.leb_gt in Hle. rewrite Hf in Hle. unfold vm.zlen in Hle. cbn [length] in Hle.
      destruct (_ <? _); [discriminate|]. intros Hpush. inversion Hpush. subst m2.
      split; [exact HF|]. unfold vm.zlen.
      cbn [vm.frames vm.set_frames vm.set_localsMem vm.set_nextCell]. rewrite Hf.
      cbn [length]. lia. }
  pose proof (turns_inv growcap format_g choice native registry _ _
                (depth_within_step _ growcap format_g choice native registry) k m0 m' H0 Hturns)
    as [HF Hd].
  split; [lia | exact HF].
Qed.

Lemma call_depth_is_bounded_witness :
  vm.zlen (vm.frames props.closure_turned) <= vm.maxFrames props.closure_machine
  /\ vm.maxFrames props.closure_turned = vm.maxFrames props.closure_machine.
Proof.
  apply (call_depth_is_bounded host.growcap host.format_g host.range_first host.native_call
           host.builtinRegistry props.closure_fn [] props.closure_machine props.closure_entered 2
           props.closure_turned).
  - vm_compute. reflexivity.
  - vm_compute. reflexivity.
Defined.


(** ** Indexing *)


Lemma expectIndex_bounds index len i :
  vm.expectIndex index len = Ok i -> 0 <= len -> 0 <= i < len.
Proof.
  unfold vm.expectIndex. destruct (vm.VKind index); try discriminate.
  destruct (negb _); [discriminate|].
  destruct (0 <=? len) eqn:Hlen.
  - cbn [andb]. destruct ((_ <? 0) || _) eqn:Hb; [discriminate|].
    intros H _. inversion H. subst i. apply orb_false_iff in Hb. destruct Hb as [H1 H2].
    apply Z.ltb_ge in H1. apply Z.leb_gt in H2. lia.
  - intros _ H. apply Z.leb_gt in Hlen. lia.
Qed.

(** X9: what [indexSet] stores, [indexGet] reads back.  When [indexSet]
    succeeds on a target with an index, [indexGet] of the same target and
    index in the store it leaves returns the value that was stored. *)
Theorem indexSet_then_indexGet (format_g : float64.t -> string) (st st' : vm.Store)
  (target index val : vm.Value) :
  vm.indexSet format_g st target index val = Ok st' ->
  vm.indexGet format_g st' target index = Ok val.
Proof.
  unfold vm.indexSet, vm.indexGet. destruct (vm.VKind target); try discriminate.
  - destruct (vm.ReadOnly target); [discriminate|].
    destruct (vm.expectIndex index (vm.zlen (vm.arrayAt st (vm.Arr target)))) as [i|] eqn:Hi;
      [|discriminate].
    pose proof (expectIndex_bounds _ _ _ Hi ltac:(unfold vm.zlen; lia)) as Hb.
    destruct (vm.Arr target) as [r|] eqn:Harr.
    + intros H. inversion H. subst st'. clear H.
      unfold vm.arrayAt in *. cbn [vm.arrays vm.set_arrays]. rewrite lookup_insert_eq.
      cbn [default from_option id]. unfold vm.zlen in *. rewrite length_insert, Hi.
      unfold vm.zlookup. destruct (i <? 0) eqn:Hneg; [apply Z.ltb_lt in Hneg; lia|].
      rewrite list_lookup_insert_eq by lia. reflexivity.
    + unfold vm.arrayAt, vm.zlen in Hb. cbn [length] in Hb. lia.
  - destruct (vm.ReadOnly target); [discriminate|].
    destruct (vm.expectKeyString format_g index) as [k|]; [|discriminate].
    destruct (vm.Obj target) as [r|]; [|discriminate].
    intros H. inversion H. subst st'. clear H.
    unfold vm.objectAt at 1. cbn [vm.objects vm.set_objects]. rewrite lookup_insert_eq.
    cbn [default from_option id]. rewrite lookup_insert_eq. reflexivity.
Qed.

Lemma indexSet_then_indexGet_witness :
  vm.indexGet host.format_g props.pair_set (vm.Array (Some 0%nat))
    (vm.Number (float64.of_int 1)) = Ok (vm.Bool true).
Proof.
  apply (indexSet_then_indexGet host.format_g props.pair_store props.pair_set).
  vm_compute. reflexivity.
Defined.

(** ** The operand stack *)

Lemma push_spec growcap v m :
  props.stack_fits m ->
  exists b,
    vm.push growcap v m = inl (tt, vm.set_stack b (S (vm.stack_len m)) m)
    /\ take (S (vm.stack_len m)) b = props.stack_of m ++ [v]
    /\ (S (vm.stack_len m) <= length b)%nat.
Proof.
  unfold props.stack_fits, props.stack_of, vm.push, modify. intros Hfit.
  destruct (vm.stack_len m <? length (vm.stack_buf m))%nat eqn:Hlt.
  - apply Nat.ltb_lt in Hlt. eexists. split; [reflexivity|]. split.
    + rewrite (take_S_r _ _ v) by (apply list_lookup_insert_eq; exact Hlt).
      rewrite take_insert_ge by lia. reflexivity.
    + rewrite length_insert. lia.
  - apply Nat.ltb_ge in Hlt. eexists. split; [reflexivity|]. split.
    + assert (vm.stack_len m = length (vm.stack_buf m)) as -> by lia.
      rewrite (take_ge (vm.stack_buf m)) by lia.
      replace (S (length (vm.stack_buf m))) with (length (vm.stack_buf m) + 1)%nat by lia.
      rewrite take_app_add. reflexivity.
    + rewrite length_app, length_take. cbn [length]. lia.
Qed.

Lemma pop_spec s v m :
  props.stack_fits m -> props.stack_of m = s ++ [v] ->
  exists n,
    vm.pop m = inl (v, vm.set_stack (vm.stack_buf m) n m)
    /\ n = length s
    /\ props.stack_of (vm.set_stack (vm.stack_buf m) n m) = s
    /\ props.stack_fits (vm.set_stack (vm.stack_buf m) n m).
Proof.
  unfold props.stack_fits, props.stack_of, vm.pop. intros Hfit Hs.
  assert (vm.stack_len m = S (length s)) as Hlen.
  { apply (f_equal length) in Hs. rewrite length_take, length_app in Hs. cbn in Hs. lia. }
  rewrite Hlen in *. exists (length s).
  assert (vm.stack_buf m !! length s = Some v) as Hv.
  { rewrite <- (lookup_take_lt _ (S (length s))) by lia. rewrite Hs.
    rewrite lookup_app_r by lia. rewrite Nat.sub_diag. reflexivity. }
  rewrite Hv. cbn [default from_option id]. split; [reflexivity|]. split; [reflexivity|].
  cbn [vm.stack_len vm.stack_buf vm.set_stack]. split; [|lia].
  rewrite (take_S_r _ _ v) in Hs by exact Hv. apply app_inj_tail in Hs. apply Hs.
Qed.

(** X10: the operand stack is a stack.  On a machine whose stack slice is
    within its capacity, [push v] appends [v], whether or not the slice
    has to grow; [pop] then returns [v] and leaves the stack as it was
    before the push; and [pop] on the empty stack returns null and changes
    nothing. *)
Theorem push_then_pop (growcap : nat -> nat) (v : vm.Value) (m : vm.VM) :
  props.stack_fits m ->
  (exists m1 m2,
      vm.push growcap v m = inl (tt, m1)
      /\ props.stack_of m1 = props.stack_of m ++ [v]
      /\ vm.pop m1 = inl (v, m2)
      /\ props.stack_of m2 = props.stack_of m
      /\ props.stack_fits m2)
  /\ (vm.stack_len m = 0%nat -> vm.pop m = inl (vm.Null, m)).
Proof.
  intros Hfit. split.
  - destruct (push_spec growcap v m Hfit) as (b & Hpush & Htake & Hlen).
    set (m1 := vm.set_stack b (S (vm.stack_len m)) m) in *.
    assert (props.stack_fits m1) as Hfit1 by exact Hlen.
    destruct (pop_spec (props.stack_of m) v m1 Hfit1 Htake) as (n & Hpop & _ & Hs & Hfit2).
    exists m1, (vm.set_stack (vm.stack_buf m1) n m1).
    split; [exact Hpush|]. split; [exact Htake|]. split; [exact Hpop|]. split; assumption.
  - intros H0. unfold vm.pop. rewrite H0. reflexivity.
Qed.

Lemma push_then_pop_witness :
  (exists m1 m2,
      vm.push host.growcap (vm.Bool true) vm.New = inl (tt, m1)
      /\ props.stack_of m1 = props.stack_of vm.New ++ [vm.Bool true]
      /\ vm.pop m1 = inl (vm.Bool true, m2)
      /\ props.stack_of m2 = props.stack_of vm.New
      /\ props.stack_fits m2)
  /\ (vm.stack_len vm.New = 0%nat -> vm.pop vm.New = inl (vm.Null, vm.New)).
Proof.
  apply (push_then_pop host.growcap (vm.Bool true) vm.New).
  unfold props.stack_fits. cbn. lia.
Defined.

(** ** The builtin plugins *)

Lemma runIndexRead_spec growcap format_g m s target index def :
  props.stack_fits m -> props.stack_of m = s ++ [target; index; def] ->
  exists m',
    builtins.runIndexRead growcap format_g m = inl ((vm.zeroValue, None), m')
    /\ props.stack_of m' = s ++ [match vm.indexGet format_g (vm.store m) target index with
                              | Ok v => v
                              | Fail _ => def
                              end]
    /\ vm.store m' = vm.store m.
Proof.
  intros Hfit Hs. unfold builtins.runIndexRead.
  change (s ++ [target; index; def]) with (s ++ [target; index] ++ [def]) in Hs.
  rewrite app_assoc in Hs.
  destruct (pop_spec _ _ _ Hfit Hs) as (n1 & Hp1 & _ & Hs1 & Hfit1).
  rewrite (bind_inl _ _ _ _ _ Hp1). set (m1 := vm.set_stack _ n1 m) in *.
  change (s ++ [target; index]) with (s ++ [target] ++ [index]) in Hs1.
  rewrite app_assoc in Hs1.
  destruct (pop_spec _ _ _ Hfit1 Hs1) as (n2 & Hp2 & _ & Hs2 & Hfit2).
  rewrite (bind_inl _ _ _ _ _ Hp2). set (m2 := vm.set_stack _ n2 m1) in *.
  destruct (pop_spec _ _ _ Hfit2 Hs2) as (n3 & Hp3 & _ & Hs3 & Hfit3).
  rewrite (bind_inl _ _ _ _ _ Hp3). set (m3 := vm.set_stack _ n3 m2) in *.
  unfold bind at 1. unfold vm.get_vm, get_state.
  change (vm.store m3) with (vm.store m).
  set (r := match vm.indexGet format_g (vm.store m) target index with
            | Ok v => v
            | Fail _ => def
            end).
  destruct (push_spec growcap r m3 Hfit3) as (b & Hpush & Htake & Hlen).
  exists (vm.set_stack b (S (vm.stack_len m3)) m3).
  split; [|split; [rewrite <- Hs3; exact Htake | reflexivity]].
  unfold r in *. destruct (vm.indexGet format_g (vm.store m) target index);
    rewrite (bind_inl _ _ _ _ _ Hpush); reflexivity.
Qed.

(** X11: the builtin [indexRead(target, index, default)] never fails.
    Dispatched with its three operands on the stack, the opcode replaces
    them by [target[index]] when [indexGet] succeeds and by the default
    otherwise, and leaves the store and the frames as they are. *)
Theorem indexRead_yields_element_or_default
  (growcap : nat -> nat) (format_g : float64.t -> string) (choice : nat -> nat -> nat)
  (native : nat -> list vm.Value -> vm.Store -> (vm.Value * option vm.GoError) * vm.Store)
  (m : vm.VM) (s : list vm.Value) (target index def : vm.Value) :
  props.stack_fits m -> props.stack_of m = s ++ [target; index; def] ->
  exists m',
    props.dispatch growcap format_g choice native (builtins.registry growcap format_g) 131 m
      = inl (tt, m')
    /\ props.stack_of m' = s ++ [match vm.indexGet format_g (vm.store m) target index with
                              | Ok v => v
                              | Fail _ => def
                              end]
    /\ vm.store m' = vm.store m
    /\ vm.frames m' = vm.frames m.
Proof.
  intros Hfit Hs.
  destruct (runIndexRead_spec growcap format_g m s target index def Hfit Hs)
    as (m' & Hrun & Hstack & Hstore).
  unfold props.dispatch, vm.lookupBuiltin.
  change (builtins.registry growcap format_g 131)
    with (Some {| vm.name := "indexRead"; vm.opcode := 131; vm.arity := 3;
                  vm.handler := builtins.handler_of (builtins.runIndexRead growcap format_g) |}).
  unfold vm.runBuiltin. unfold bind at 1. unfold vm.get_vm, get_state.
  cbn [vm.arity vm.handler vm.name].
  assert (vm.stack_len m = (length s + 3)%nat) as Hlen.
  { apply (f_equal length) in Hs. unfold props.stack_fits, props.stack_of in *.
    rewrite length_take, length_app in Hs. cbn [length] in Hs. lia. }
  destruct (Z.of_nat (vm.stack_len m) <? 3) eqn:Hlt; [apply Z.ltb_lt in Hlt; lia|].
  unfold builtins.handler_of. rewrite Hrun.
  eexists. split; [reflexivity|].
  split; [exact Hstack|]. split; [exact Hstore | reflexivity].
Qed.

Lemma indexRead_yields_element_or_default_witness :
  exists m',
    props.dispatch host.growcap host.format_g host.range_first host.native_call
      (builtins.registry host.growcap host.format_g) 131 props.read_operands = inl (tt, m')
    /\ props.stack_of m'
       = [] ++ [match vm.indexGet host.format_g (vm.store props.read_operands)
                        (vm.Array (Some 0%nat)) (vm.Number (float64.of_int 5)) with
                | Ok v => v
                | Fail _ => vm.Bool true
                end]
    /\ vm.store m' = vm.store props.read_operands
    /\ vm.frames m' = vm.frames props.read_operands.
Proof.
  apply (indexRead_yields_element_or_default host.growcap host.format_g host.range_first
           host.native_call props.read_operands []).
  - unfold props.stack_fits. cbn. lia.
  - reflexivity.
Defined.

Lemma Equal_reference_false a b : props.is_reference (vm.VKind b) = true -> vm.Equal a b = false.
Proof.
  unfold vm.Equal, props.is_reference. destruct (vm.VKind a), (vm.VKind b); cbn; congruence.
Qed.

(** X12: [valueExists] never finds an array, an object, a function or an
    iterator: for a value of one of these kinds it answers [false] whatever
    the array holds, even the value itself; and it answers [false] for a
    target that is not an array. *)
Theorem valueExists_never_finds_reference (st : vm.Store) (arr v : vm.Value) :
  props.is_reference (vm.VKind v) = true \/ vm.VKind arr <> vm.KindArray ->
  vm.valueExists st arr v = false.
Proof.
  intros [Href|Hk]; unfold vm.valueExists.
  - destruct (vm.VKind arr); try reflexivity.
    induction (vm.arrayAt st (vm.Arr arr)) as [|el l IH]; [reflexivity|].
    cbn [existsb]. rewrite (Equal_reference_false el v Href). exact IH.
  - destruct (vm.VKind arr); try reflexivity. contradiction.
Qed.

Lemma valueExists_never_finds_reference_witness :
  vm.valueExists (vm.allocArray [vm.Array (Some 0%nat)] vm.emptyStore).2
    (vm.Array (Some 0%nat)) (vm.Array (Some 0%nat)) = false.
Proof.
  apply (valueExists_never_finds_reference
           (vm.allocArray [vm.Array (Some 0%nat)] vm.emptyStore).2
           (vm.Array (Some 0%nat)) (vm.Array (Some 0%nat))).
  left. reflexivity.
Defined.

(** ** Iterating to exhaustion *)

Lemma drain_array p r (l : list vm.Value) n : forall i st ob ks,
  vm.iterators st !! p = Some {| vm.arr := Some r; vm.obj := ob; vm.keys := ks;
                                 vm.index := Z.of_nat i |} ->
  vm.arrays st !! r = Some l ->
  (i + n = length l)%nat -> vm.zlen l <= goint.maxInt64 ->
  exists st',
    props.drain (S n) p st
      = (imap (fun j v => (goint.FormatInt (Z.of_nat (i + j)), v)) (drop i l), st')
    /\ vm.arrays st' = vm.arrays st
    /\ props.exhausted p st'.
Proof.
  induction n as [|n IH]; intros i st ob ks Hit Harr Hlen Hmax.
  - exists st. assert (i = length l) as -> by lia.
    assert (vm.Iterator_Next p st = (("", vm.zeroValue, false), st)) as Hnext.
    { unfold vm.Iterator_Next. rewrite Hit. cbn [vm.arr vm.index vm.arrayAt].
      rewrite Harr. cbn [default from_option id]. unfold vm.zlen.
      rewrite Z.leb_refl. reflexivity. }
    cbn [props.drain]. rewrite Hnext, drop_all. split; [reflexivity|]. split; [reflexivity|].
    exact Hnext.
  - assert (is_Some (l !! i)) as [v Hv] by (apply lookup_lt_is_Some; lia).
    set (it' := {| vm.arr := Some r; vm.obj := ob; vm.keys := ks;
                   vm.index := Z.of_nat (S i) |}).
    set (st1 := vm.set_iterators (<[p := it']> (vm.iterators st)) st).
    assert (vm.Iterator_Next p st = ((goint.FormatInt (Z.of_nat i), v, true), st1)) as Hnext.
    { unfold vm.Iterator_Next. rewrite Hit. cbn [vm.arr vm.index vm.arrayAt vm.obj vm.keys].
      rewrite Harr. cbn [default from_option id]. unfold vm.zlen in *.
      destruct (Z.of_nat (length l) <=? Z.of_nat i) eqn:Hle; [apply Z.leb_le in Hle; lia|].
      unfold vm.zlookup. destruct (Z.of_nat i <? 0) eqn:Hneg; [apply Z.ltb_lt in Hneg; lia|].
      rewrite Nat2Z.id, Hv. cbn [default from_option id].
      rewrite wrap64_small by (unfold goint.minInt64, goint.maxInt64 in *; lia).
      unfold vm.stringIndex, st1, it'. do 4 f_equal. lia. }
    destruct (IH (S i) st1 ob ks) as (st' & Hd & Ha & He); try assumption.
    { unfold st1. cbn [vm.iterators vm.set_iterators]. rewrite lookup_insert_eq. reflexivity. }
    { lia. }
    exists st'. split; [|split; [rewrite Ha; reflexivity | exact He]].
    change (props.drain (S (S n)) p st)
      with (match vm.Iterator_Next p st with
            | ((k, v, true), st') =>
                let '(rest, st'') := props.drain (S n) p st' in ((k, v) :: rest, st'')
            | ((_, _, false), st') => ([], st')
            end).
    rewrite Hnext, Hd. rewrite (drop_S _ _ _ Hv). cbn [imap]. rewrite Nat.add_0_r.
    f_equal. f_equal. apply imap_ext. intros j x _. cbn. do 3 f_equal. lia.
Qed.

(** X13: an array iterator visits the array front to back.  Drained, the
    iterator [NewArrayIterator] makes for an array yields the elements in
    order, each under its index written in decimal, touches no array, and
    is exhausted afterwards: a further [Next] answers [false] and changes
    nothing. *)
Theorem array_iterator_visits_in_order (st : vm.Store) (r : nat) (l : list vm.Value) :
  vm.arrays st !! r = Some l -> vm.zlen l <= goint.maxInt64 ->
  exists st',
    props.drain (S (length l)) (vm.NewArrayIterator (Some r) st).1
      (vm.NewArrayIterator (Some r) st).2
      = (imap (fun i v => (goint.FormatInt (Z.of_nat i), v)) l, st')
    /\ vm.arrays st' = vm.arrays st
    /\ props.exhausted (vm.NewArrayIterator (Some r) st).1 st'.
Proof.
  intros Harr Hmax.
  destruct (drain_array (vm.nextRef st) r l (length l) 0
              (vm.NewArrayIterator (Some r) st).2 None []) as (st' & Hd & Ha & He).
  - cbn. rewrite lookup_insert_eq. reflexivity.
  - exact Harr.
  - lia.
  - exact Hmax.
  - exists st'. split; [exact Hd|]. split; [exact Ha | exact He].
Qed.

Lemma array_iterator_visits_in_order_witness :
  exists st',
    props.drain (S (length [vm.Null; vm.Null])) (vm.NewArrayIterator (Some 0%nat) props.pair_store).1
      (vm.NewArrayIterator (Some 0%nat) props.pair_store).2
      = (imap (fun i v => (goint.FormatInt (Z.of_nat i), v)) [vm.Null; vm.Null], st')
    /\ vm.arrays st' = vm.arrays props.pair_store
    /\ props.exhausted (vm.NewArrayIterator (Some 0%nat) props.pair_store).1 st'.
Proof.
  apply (array_iterator_visits_in_order props.pair_store 0 [vm.Null; vm.Null]).
  - reflexivity.
  - unfold goint.maxInt64, vm.zlen. cbn [length]. lia.
Defined.

Lemma drain_object p r (o : gmap string vm.Value) (ks : list string) n : forall i st,
  vm.iterators st !! p = Some {| vm.arr := None; vm.obj := Some r; vm.keys := ks;
                                 vm.index := Z.of_nat i |} ->
  vm.objects st !! r = Some o ->
  (i + n = length ks)%nat -> vm.zlen ks <= goint.maxInt64 ->
  exists st',
    props.drain (S n) p st = (map (fun k => (k, default vm.zeroValue (o !! k))) (drop i ks), st')
    /\ vm.objects st' = vm.objects st
    /\ props.exhausted p st'.
Proof.
  induction n as [|n IH]; intros i st Hit Hobj Hlen Hmax.
  - exists st. assert (i = length ks) as -> by lia.
    assert (vm.Iterator_Next p st = (("", vm.zeroValue, false), st)) as Hnext.
    { unfold vm.Iterator_Next. rewrite Hit. cbn [vm.arr vm.obj vm.index vm.keys].
      unfold vm.zlen. rewrite Z.leb_refl. reflexivity. }
    cbn [props.drain]. rewrite Hnext, drop_all. split; [reflexivity|]. split; [reflexivity|].
    exact Hnext.
  - assert (is_Some (ks !! i)) as [k Hk] by (apply lookup_lt_is_Some; lia).
    set (it' := {| vm.arr := None; vm.obj := Some r; vm.keys := ks;
                   vm.index := Z.of_nat (S i) |}).
    set (st1 := vm.set_iterators (<[p := it']> (vm.iterators st)) st).
    assert (vm.Iterator_Next p st = ((k, default vm.zeroValue (o !! k), true), st1)) as Hnext.
    { unfold vm.Iterator_Next. rewrite Hit. cbn [vm.arr vm.index vm.objectAt vm.obj vm.keys].
      rewrite Hobj. cbn [default from_option id]. unfold vm.zlen in *.
      destruct (Z.of_nat (length ks) <=? Z.of_nat i) eqn:Hle; [apply Z.leb_le in Hle; lia|].
      unfold vm.zlookup. destruct (Z.of_nat i <? 0) eqn:Hneg; [apply Z.ltb_lt in Hneg; lia|].
      rewrite Nat2Z.id, Hk. cbn [default from_option id].
      rewrite wrap64_small by (unfold goint.minInt64, goint.maxInt64 in *; lia).
      unfold st1, it'. do 4 f_equal. lia. }
    destruct (IH (S i) st1) as (st' & Hd & Ho & He); try assumption.
    { unfold st1. cbn [vm.iterators vm.set_iterators]. rewrite lookup_insert_eq. reflexivity. }
    { lia. }
    exists st'. split; [|split; [rewrite Ho; reflexivity | exact He]].
    change (props.drain (S (S n)) p st)
      with (match vm.Iterator_Next p st with
            | ((k, v, true), st') =>
                let '(rest, st'') := props.drain (S n) p st' in ((k, v) :: rest, st'')
            | ((_, _, false), st') => ([], st')
            end).
    rewrite Hnext, Hd. rewrite (drop_S _ _ _ Hk). reflexivity.
Qed.

(** X14: an object iterator visits every key once.  Whatever order Go's
    [range] takes over the map, the iterator [NewObjectIterator] makes for
    an object yields, when drained, each key the object holds exactly once,
    with the value stored under it, and is exhausted afterwards. *)
Theorem object_iterator_visits_each_key_once (choice : nat -> nat -> nat) (st : vm.Store)
  (r : nat) (o : gmap string vm.Value) :
  vm.objects st !! r = Some o -> Z.of_nat (size o) <= goint.maxInt64 ->
  exists ks st',
    props.drain (S (size o)) (vm.NewObjectIterator choice (Some r) st).1
      (vm.NewObjectIterator choice (Some r) st).2
      = (map (fun k => (k, default vm.zeroValue (o !! k))) ks, st')
    /\ NoDup ks
    /\ (forall k, k ∈ ks <-> is_Some (o !! k))
    /\ props.exhausted (vm.NewObjectIterator choice (Some r) st).1 st'.
Proof.
  intros Hobj Hmax.
  set (ks := vm.map_range choice (vm.rangeSeed st) o).
  assert (length ks = size o) as Hlen.
  { unfold ks. rewrite (map_range_perm choice (vm.rangeSeed st) o).
    rewrite length_fmap. apply length_map_to_list. }
  destruct (drain_object (vm.nextRef st) r o ks (length ks) 0
              (vm.NewObjectIterator choice (Some r) st).2) as (st' & Hd & Ho & He).
  - unfold vm.NewObjectIterator, vm.allocIterator.
    cbn [snd vm.iterators vm.set_nextRef vm.set_iterators vm.set_rangeSeed vm.objectAt
         vm.rangeSeed vm.objects vm.nextRef].
    rewrite lookup_insert_eq, Hobj. reflexivity.
  - exact Hobj.
  - lia.
  - unfold vm.zlen. rewrite Hlen. exact Hmax.
  - exists ks, st'. rewrite <- Hlen. split; [exact Hd|].
    destruct (map_range_once choice (vm.rangeSeed st) o) as [Hnd Hin].
    split; [exact Hnd|]. split; [exact Hin | exact He].
Qed.

Lemma object_iterator_visits_each_key_once_witness :
  exists ks st',
    props.drain (S (size (vm.objectAt props.ab_store (Some 0%nat))))
      (vm.NewObjectIterator host.range_second (Some 0%nat) props.ab_store).1
      (vm.NewObjectIterator host.range_second (Some 0%nat) props.ab_store).2
      = (map (fun k => (k, default vm.zeroValue (vm.objectAt props.ab_store (Some 0%nat) !! k)))
           ks, st')
    /\ NoDup ks
    /\ (forall k, k ∈ ks <-> is_Some (vm.objectAt props.ab_store (Some 0%nat) !! k))
    /\ props.exhausted (vm.NewObjectIterator host.range_second (Some 0%nat) props.ab_store).1 st'.
Proof.
  apply (object_iterator_visits_each_key_once host.range_second props.ab_store 0
           (vm.objectAt props.ab_store (Some 0%nat))).
  - vm_compute. reflexivity.
  - vm_compute. discriminate.
Defined.

(** ** Values *)

Lemma SFcompare_sym f1 f2 :
  SFcompare f2 f1 = option_map CompOpp (SFcompare f1 f2).
Proof.
  destruct f1 as [s1|s1| |s1 m1 e1], f2 as [s2|s2| |s2 m2 e2]; cbn; try reflexivity;
    try (destruct s1, s2; reflexivity); try (destruct s1; reflexivity);
    try (destruct s2; reflexivity).
  destruct s1, s2; try reflexivity.
  - rewrite (Z.compare_antisym e1 e2). destruct (e1 ?= e2); cbn; try reflexivity.
    change (Pos.compare_cont Eq m2 m1) with (m2 ?= m1)%positive.
    change (Pos.compare_cont Eq m1 m2) with (m1 ?= m2)%positive.
    rewrite (Pos.compare_antisym m1 m2). destruct (m1 ?= m2)%positive; reflexivity.
  - rewrite (Z.compare_antisym e1 e2). destruct (e1 ?= e2); cbn; try reflexivity.
    change (Pos.compare_cont Eq m2 m1) with (m2 ?= m1)%positive.
    change (Pos.compare_cont Eq m1 m2) with (m1 ?= m2)%positive.
    rewrite (Pos.compare_antisym m1 m2). destruct (m1 ?= m2)%positive; reflexivity.
Qed.

Lemma float64_eqb_sym a b : float64.eqb a b = float64.eqb b a.
Proof.
  unfold float64.eqb, SFeqb. rewrite (SFcompare_sym a b).
  destruct (SFcompare a b) as [[]|]; reflexivity.
Qed.

Lemma Kind_eqb_sym a b : vm.Kind_eqb a b = vm.Kind_eqb b a.
Proof. destruct a, b; reflexivity. Qed.

Lemma Kind_eqb_eq a b : vm.Kind_eqb a b = true -> a = b.
Proof. destruct a, b; (reflexivity || discriminate). Qed.

(** X15: [Equal] is symmetric, values of different kinds are never equal,
    and every null, boolean, string and error value is equal to itself. *)
Theorem Equal_symmetric (a b : vm.Value) :
  vm.Equal a b = vm.Equal b a
  /\ (vm.VKind a <> vm.VKind b -> vm.Equal a b = false)
  /\ (match vm.VKind a with
      | vm.KindNull | vm.KindBool | vm.KindString | vm.KindError => vm.Equal a a = true
      | _ => True
      end).
Proof.
  split; [|split].
  - unfold vm.Equal. rewrite (Kind_eqb_sym (vm.VKind b) (vm.VKind a)).
    destruct (vm.Kind_eqb (vm.VKind a) (vm.VKind b)) eqn:Hk; [|reflexivity].
    apply Kind_eqb_eq in Hk. rewrite <- Hk. cbn [negb].
    destruct (vm.VKind a); try reflexivity.
    + destruct (vm.B a), (vm.B b); reflexivity.
    + apply float64_eqb_sym.
    + apply String.eqb_sym.
    + apply String.eqb_sym.
  - intros Hne. unfold vm.Equal.
    destruct (vm.Kind_eqb (vm.VKind a) (vm.VKind b)) eqn:Hk; [|reflexivity].
    apply Kind_eqb_eq in Hk. contradiction.
  - unfold vm.Equal. rewrite Kind_eqb_refl. cbn [negb].
    destruct (vm.VKind a); try exact I; try reflexivity.
    + destruct (vm.B a); reflexivity.
    + apply String.eqb_refl.
    + apply String.eqb_refl.
Qed.

(** ** The compiler's scopes and operands *)

Lemma declare_locals_other names name : forall s,
  name ∉ names ->
  compiler.scope_resolveLocal name (props.declare names s) = compiler.scope_resolveLocal name s.
Proof.
  induction names as [|n names IH]; intros s Hn; [reflexivity|].
  cbn [props.declare foldl]. fold (props.declare names (compiler.scope_addLocal n s).2).
  rewrite IH by (intros H; apply Hn; right; exact H).
  unfold compiler.scope_resolveLocal. cbn [compiler.scope_addLocal snd compiler.locals].
  apply lookup_insert_ne. intros ->. apply Hn. left.
Qed.

Lemma declare_slot names : forall s i name,
  NoDup names -> names !! i = Some name -> 0 <= compiler.nextLoc s < 256 ->
  compiler.scope_resolveLocal name (props.declare names s)
  = Some ((compiler.nextLoc s + Z.of_nat i) mod 256).
Proof.
  induction names as [|n names IH]; intros s i name Hnd Hi Hs; [discriminate|].
  apply NoDup_cons in Hnd. destruct Hnd as [Hn Hnd].
  cbn [props.declare foldl]. fold (props.declare names (compiler.scope_addLocal n s).2).
  destruct i as [|i].
  - inversion Hi. subst n. rewrite declare_locals_other by exact Hn.
    unfold compiler.scope_resolveLocal. cbn [compiler.scope_addLocal snd compiler.locals].
    rewrite lookup_insert_eq, Z.add_0_r, Z.mod_small by lia. reflexivity.
  - cbn in Hi. rewrite (IH _ i name Hnd Hi).
    + cbn [compiler.scope_addLocal snd compiler.nextLoc]. unfold compiler.uint8.
      rewrite Zplus_mod_idemp_l. do 2 f_equal. lia.
    + cbn [compiler.scope_addLocal snd compiler.nextLoc]. unfold compiler.uint8.
      apply Z.mod_pos_bound. lia.
Qed.

(** X16: the locals of a function get the slots 0, 1, 2, ... in the order
    of their declaration, and the counter wraps silently: in a new scope
    the [i]-th distinct name declared resolves to slot [i mod 256], so the
    first 256 locals have slots of their own and the 257th shares slot 0
    with the first. *)
Theorem declared_local_slot (enclosing : option compiler.scope) (names : list string)
  (i : nat) (name : string) :
  NoDup names -> names !! i = Some name ->
  compiler.scope_resolveLocal name (props.declare names (compiler.newScope enclosing))
  = Some (Z.of_nat i mod 256).
Proof.
  intros Hnd Hi.
  rewrite (declare_slot names (compiler.newScope enclosing) i name Hnd Hi).
  - reflexivity.
  - cbn. lia.
Qed.

Lemma declared_local_slot_witness :
  compiler.scope_resolveLocal "b" (props.declare ["a"; "b"]%string (compiler.newScope None))
  = Some (Z.of_nat 1 mod 256).
Proof.
  apply (declared_local_slot None ["a"; "b"]%string 1 "b").
  - refine (bool_decide_unpack (NoDup _) _). vm_compute. exact I.
  - reflexivity.
Defined.

Lemma u16_decode z :
  0 <= z < 65536 -> Z.lor (Z.shiftl (compiler.hi z) 8) (compiler.lo z) = z.
Proof.
  intros Hz. unfold compiler.hi, compiler.lo, goint.to_byte.
  apply Z.bits_inj'. intros n Hn.
  rewrite Z.lor_spec, Z.shiftl_spec, !Z.land_spec by lia.
  change 255 with (Z.ones 8).
  destruct (Z.ltb_spec n 8).
  - rewrite !(Z.testbit_neg_r _ (n - 8)) by lia. cbn [andb orb].
    rewrite Z.ones_spec_low by lia. apply andb_true_r.
  - rewrite Z.shiftr_spec by lia. replace (n - 8 + 8) with n by lia.
    rewrite (Z.ones_spec_high 8 n) by lia. rewrite andb_false_r, orb_false_r.
    destruct (Z.ltb_spec n 16).
    + rewrite Z.ones_spec_low by lia. apply andb_true_r.
    + rewrite Z.ones_spec_high by lia. rewrite andb_false_r.
      symmetry. destruct (Z.eq_dec z 0) as [->|Hnz]; [apply Z.bits_0|].
      apply Z.bits_above_log2; [lia|].
      apply Z.log2_lt_pow2; [lia|]. apply Z.lt_le_trans with (2 ^ 16); [lia|].
      apply Z.pow_le_mono_r; lia.
Qed.

Lemma to_byte_idem z : goint.to_byte (goint.to_byte z) = goint.to_byte z.
Proof. unfold goint.to_byte. rewrite <- Z.land_assoc. reflexivity. Qed.

(** X17: the machine reads back the operands the compiler writes.  When
    the two bytes at [ip] are the [hi] and [lo] the compiler emits for an
    operand [z] below 65536 (a constant index, a jump target), [readU16]
    returns [z] and moves [ip] past them. *)
Theorem readU16_reads_emitted_operand (m : vm.VM) (fr : vm.frame) (rest : list vm.frame)
  (pre post : list Z) (z : Z) :
  vm.frames m = fr :: rest ->
  vm.code_of fr = pre ++ [compiler.hi z; compiler.lo z] ++ post ->
  vm.ip fr = vm.zlen pre ->
  0 <= z < 65536 ->
  vm.readU16 m = inl (z, vm.set_frames (vm.set_ip (vm.ip fr + 2) fr :: rest) m).
Proof.
  intros Ef Hcode Hip Hz.
  assert (vm.code_of fr !! length pre = Some (compiler.hi z)) as H1.
  { rewrite Hcode. apply list_lookup_middle. reflexivity. }
  assert (vm.code_of fr !! S (length pre) = Some (compiler.lo z)) as H2.
  { rewrite Hcode. change (pre ++ [compiler.hi z; compiler.lo z] ++ post)
      with (pre ++ [compiler.hi z] ++ compiler.lo z :: post).
    rewrite app_assoc. apply list_lookup_middle. rewrite length_app. cbn [length]. lia. }
  rewrite (readU16_eq m fr rest (compiler.hi z) (compiler.lo z) Ef).
  - rewrite u16_decode by exact Hz. reflexivity.
  - unfold vm.codeAt, vm.zlookup. rewrite Hip. unfold vm.zlen.
    destruct (Z.of_nat (length pre) <? 0) eqn:Hneg; [apply Z.ltb_lt in Hneg; lia|].
    rewrite Nat2Z.id, H1. unfold compiler.hi. cbn [option_map]. rewrite to_byte_idem.
    reflexivity.
  - unfold vm.codeAt, vm.zlookup. rewrite Hip. unfold vm.zlen.
    destruct (Z.of_nat (length pre) + 1 <? 0) eqn:Hneg; [apply Z.ltb_lt in Hneg; lia|].
    replace (Z.to_nat (Z.of_nat (length pre) + 1)) with (S (length pre)) by lia.
    rewrite H2. unfold compiler.lo. cbn [option_map]. rewrite to_byte_idem. reflexivity.
Qed.

Lemma readU16_reads_emitted_operand_witness :
  match vm.frames props.at_set_global_operand with
  | fr :: rest =>
      vm.readU16 props.at_set_global_operand
      = inl (1, vm.set_frames (vm.set_ip (vm.ip fr + 2) fr :: rest) props.at_set_global_operand)
  | [] => False
  end.
Proof.
  destruct (vm.frames props.at_set_global_operand) as [|fr rest] eqn:Ef.
  - vm_compute in Ef. discriminate.
  - apply (readU16_reads_emitted_operand props.at_set_global_operand fr rest
             [0; 0; 0; 25] [1; 57] 1 Ef).
    + vm_compute in Ef. inversion Ef. reflexivity.
    + vm_compute in Ef. inversion Ef. reflexivity.
    + lia.
Defined.
